(** * modelipy: the document model and the pretty printer

    A shallow embedding of [modelipy/misc.py], [modelipy/component.py],
    [modelipy/model.py], [modelipy/output.py] and the dictionary functions
    of [modelipy/util.py].

    Python objects become records and inductive types, the mutable
    [PrettyPrinter] together with the text streams it writes to becomes a
    state that every printing function passes along, and a raised exception
    becomes the [Raise] result, which keeps the state reached so far.  For
    what a render does to the objects it is handed, the nodes are objects of
    a store and the printer works on references to them ([visit_ref],
    [pprint_ref]). *)

From Stdlib Require Import String Ascii ZArith List Bool Lia DecimalString Permutation.
Import ListNotations.
Open Scope string_scope.
Open Scope Z_scope.

(** ** Strings *)

(** [n * s] on a Python [int] and [str]: [s] repeated, nothing when [n <= 0]. *)
Fixpoint repeat_nat (n : nat) (s : string) : string :=
  match n with
  | O => ""
  | S k => s ++ repeat_nat k s
  end.

Definition str_mul (n : Z) (s : string) : string := repeat_nat (Z.to_nat n) s.

(** [str(n)] of a Python [int]. *)
Definition str_of_int (z : Z) : string := NilZero.string_of_int (Z.to_int z).

(** [sep.join(parts)]. *)
Definition join (sep : string) (parts : list string) : string := String.concat sep parts.

(** ** Exceptions and results *)

Inductive PyError : Type :=
| ValueError (msg : string)
| KeyError (msg : string)
| AssertionError (msg : string)
| NotImplementedError (msg : string)
| TypeError (msg : string)
| AttributeError (msg : string)
| IndexError (msg : string)
| RecursionError (msg : string).

Inductive Res (A : Type) : Type :=
| Ok (a : A)
| Raise (e : PyError).
Arguments Ok {A} a.
Arguments Raise {A} e.

Definition is_ok {A} (r : Res A) : bool :=
  match r with Ok _ => true | Raise _ => false end.

(** ** Flags ([enum.Flag])

    The members of a flag enumeration are the powers of two that
    [enum.auto()] hands out in declaration order; [a | b] is bitwise or,
    and [a in flags] holds when every bit of [a] is set in [flags]. *)

Definition Flags := Z.

Definition flag_or (a b : Flags) : Flags := Z.lor a b.
Definition flag_in (a flags : Flags) : bool := Z.land a flags =? a.

Module AssignFlags.
Definition Each : Flags := 1.
Definition Final : Flags := 2.
Definition Redeclare : Flags := 4.
Definition Replaceable : Flags := 8.
End AssignFlags.

Module ComponentFlags.
Definition Final : Flags := 1.
Definition Inner : Flags := 2.
Definition Outer : Flags := 4.
Definition Replaceable : Flags := 8.
End ComponentFlags.

Module ModelFlags.
Definition Final : Flags := 1.
Definition Encapsulated : Flags := 2.
Definition Partial : Flags := 4.
Definition Replaceable : Flags := 8.
End ModelFlags.

(** ** Values *)

(** The objects the printer only ever turns into text.  A [float] is carried
    by the text [str] gives for it. *)
Inductive Scalar : Type :=
| SNone
| SBool (b : bool)
| SInt (z : Z)
| SFloat (text : string)
| SStr (s : string).

Definition py_str (v : Scalar) : string :=
  match v with
  | SNone => "None"
  | SBool true => "True"
  | SBool false => "False"
  | SInt z => str_of_int z
  | SFloat text => text
  | SStr s => s
  end.

(** A Python [dict] with string keys, in insertion order. *)
Definition Dict (V : Type) := list (string * V).

Fixpoint dict_get {V} (d : Dict V) (key : string) : option V :=
  match d with
  | [] => None
  | (k, v) :: d' => if String.eqb k key then Some v else dict_get d' key
  end.

Definition dict_contains {V} (key : string) (d : Dict V) : bool :=
  match dict_get d key with Some _ => true | None => false end.

(** [d[key] = v]: an existing key keeps its place, a new one goes last. *)
Fixpoint dict_set {V} (d : Dict V) (key : string) (v : V) : Dict V :=
  match d with
  | [] => [(key, v)]
  | (k, x) :: d' =>
      if String.eqb k key then (k, v) :: d' else (k, x) :: dict_set d' key v
  end.

#[local] Unset Elimination Schemes.

(** What an annotation holds ([dict[str, Any]] in the source).  Lists and
    tuples are taken homogeneous, as [write_annotation] expects them: of
    dictionaries, of lists of scalars, or of scalars. *)
Inductive Anno : Type :=
| ADict (items : Dict Anno)
| ADictList (elems : list (Dict Anno))
| AListList (elems : list (list Scalar))
| AList (elems : list Scalar)
| AScalar (v : Scalar).

(** [Assign] of [misc.py], over the type of the entries of its [init]. *)
Record AssignOf (V : Type) : Type := mkAssign {
  a_value : Scalar;
  a_init : Dict V;
  a_fmt : string;
  a_flags : option Flags;
  a_description : option string;
  a_annotation : Dict Anno;
  a_type : option string
}.
Arguments mkAssign {V}.
Arguments a_value {V}.
Arguments a_init {V}.
Arguments a_fmt {V}.
Arguments a_flags {V}.
Arguments a_description {V}.
Arguments a_annotation {V}.
Arguments a_type {V}.

(** What a modification holds: the cases [write_key_value] tells apart.
    [VOther] is any other object (a list, say), by the name of its type. *)
Inductive Value : Type :=
| VScalar (v : Scalar)
| VDict (items : Dict Value)
| VAssign (a : AssignOf Value)
| VTuple (elems : list Scalar)
| VOther (type_name : string).

#[local] Set Elimination Schemes.

Definition Assign := AssignOf Value.

(** [Assign.__init__]: the two assertions, then the defaults. *)
Definition Assign_init (value : Scalar) (init : option (Dict Value)) (fmt : string)
    (flags : option Flags) (description : option string)
    (annotation : option (Dict Anno)) (type : option string) : Res Assign :=
  let build :=
    Ok (mkAssign value
                 (match init with None => [] | Some d => d end)
                 fmt flags description
                 (match annotation with None => [] | Some d => d end)
                 type) in
  match type with
  | Some _ =>
      match flags with
      | None => Raise (AssertionError "")
      | Some f =>
          if flag_in AssignFlags.Redeclare f then build
          else Raise (AssertionError "component type must be known when redeclaring")
      end
  | None => build
  end.

(** ** Nodes ([component.py], [misc.py], [condition.py], [model.py]) *)

Inductive Flux : Type := Flow | Stream_.
Inductive Causality : Type := Input | Output.
Inductive Variability : Type := Constant | Parameter_ | Discrete.

(** The [value] of each member of the three enumerations. *)
Definition Flux_value (f : Flux) : string :=
  match f with Flow => "flow" | Stream_ => "stream" end.
Definition Causality_value (c : Causality) : string :=
  match c with Input => "input" | Output => "output" end.
Definition Variability_value (v : Variability) : string :=
  match v with Constant => "constant" | Parameter_ => "parameter" | Discrete => "discrete" end.

(** [str2ComponentFlags]. *)
Definition str2ComponentFlags : Dict Flags :=
  [("final", ComponentFlags.Final); ("inner", ComponentFlags.Inner);
   ("outer", ComponentFlags.Outer); ("replaceable", ComponentFlags.Replaceable)].

(** [Component].  The printer uses [condition] only through an f-string, so
    it is carried by the text the f-string gives; [constraint] is only tested
    against [None]. *)
Record Component : Type := mkComponent {
  c_type : string;
  c_ident : string;
  c_value : Scalar;
  c_init : Dict Value;
  c_flags : option Flags;
  c_variability : option Variability;
  c_causality : option Causality;
  c_flux : option Flux;
  c_subscripts : list Scalar;
  c_condition : option string;
  c_constraint : option unit;
  c_description : option string;
  c_annotation : Dict Anno
}.

(** [Component.__setitem__] and [Component.__getitem__]. *)
Definition Component_setitem (c : Component) (key : string) (value : Value) : Component :=
  mkComponent (c_type c) (c_ident c) (c_value c) (dict_set (c_init c) key value)
              (c_flags c) (c_variability c) (c_causality c) (c_flux c)
              (c_subscripts c) (c_condition c) (c_constraint c) (c_description c)
              (c_annotation c).

Definition Component_getitem (c : Component) (key : string) : Res Value :=
  match dict_get (c_init c) key with
  | Some v => Ok v
  | None => Raise (KeyError key)
  end.

Record Equation : Type := mkEquation {
  eq_left : string;
  eq_right : string;
  eq_description : option string;
  eq_annotation : Dict Anno
}.

Record Algorithm : Type := mkAlgorithm {
  alg_left : string;
  alg_right : string;
  alg_description : option string;
  alg_annotation : option (Dict Anno)
}.

(** An argument of [add_connect] ([Any] in the source): a string or a
    [Component]. *)
Inductive Ref : Type :=
| RStr (s : string)
| RComponent (c : Component).

(** The text an f-string gives for a reference.  [Component] is a dataclass
    without fields, whose generated [__repr__] is ["Component()"]. *)
Definition Ref_format (r : Ref) : string :=
  match r with
  | RStr s => s
  | RComponent _ => "Component()"
  end.

Record Connect : Type := mkConnect {
  ref1 : Ref;
  ref2 : Ref;
  con_description : option string;
  con_annotation : Dict Anno
}.

(** [Within] and [Within.from_str]. *)
Record Within : Type := mkWithin { within_name : option string }.

Definition Within_from_str (s : string) : Within :=
  if String.eqb s "" then mkWithin None else mkWithin (Some s).

(** [Model], over the type of the nodes in its sections. *)
Record ModelOf (N : Type) : Type := mkModel {
  m_ident : string;
  m_description : option string;
  m_within : option Within;
  m_flags : option Flags;
  m_annotation : Dict Anno;
  components : Dict Component;
  public_section : list N;
  protected_section : list N;
  initial_equations : list N;
  initial_algorithms : list N;
  equations : list N;
  algorithms : list N
}.
Arguments mkModel {N}.
Arguments m_ident {N}.
Arguments m_description {N}.
Arguments m_within {N}.
Arguments m_flags {N}.
Arguments m_annotation {N}.
Arguments components {N}.
Arguments public_section {N}.
Arguments protected_section {N}.
Arguments initial_equations {N}.
Arguments initial_algorithms {N}.
Arguments equations {N}.
Arguments algorithms {N}.

#[local] Unset Elimination Schemes.

(** Whatever can sit in a section or be handed to [pprint]: one case for
    each [visit_] method of the printer, and [NOther] for an object of any
    other type, by the name of that type. *)
Inductive Node : Type :=
| NAlgorithm (a : Algorithm)
| NAssign (a : Assign)
| NComponent (c : Component)
| NConnect (c : Connect)
| NEquation (e : Equation)
| NExtends (name : string)
| NExpression (value : string)
| NIfEquation (test : Node) (body : list Node)
              (elseif : list (Node * list Node)) (orelse : option (list Node))
| NModel (m : ModelOf Node)
| NMultiImport (path : string) (names : list string)
| NNamedImport (short long : string)
| NQualifiedImport (name : string)
| NStr (s : string)
| NText (lines : list string) (indent : bool)
| NWithin (w : Within)
| NOther (type_name : string).

#[local] Set Elimination Schemes.

Definition Model := ModelOf Node.

(** ** The printer state *)

(** The two text streams a render can touch: the process's standard output
    and one other stream (a [StringIO] or a file of the caller). *)
Inductive TextIO : Type := Stdout | Sink.

Record World : Type := mkWorld {
  stdout : string;
  sink : string
}.

Definition stream_append (st : TextIO) (s : string) (w : World) : World :=
  match st with
  | Stdout => mkWorld (stdout w ++ s) (sink w)
  | Sink => mkWorld (stdout w) (sink w ++ s)
  end.

Record PrettyPrinter : Type := mkPrettyPrinter {
  stream : TextIO;
  indentation : string;
  width : Z;
  charcount : Z;
  curpos : Z;
  indent : Z
}.

Definition State : Type := PrettyPrinter * World.

(** A method of the printer: it may raise, and the state it reached stays. *)
Definition M (A : Type) : Type := State -> Res A * State.

Definition ret {A} (a : A) : M A := fun s => (Ok a, s).

Definition bind {A B} (m : M A) (f : A -> M B) : M B :=
  fun s =>
    match m s with
    | (Ok a, s') => f a s'
    | (Raise e, s') => (Raise e, s')
    end.

Definition raise {A} (e : PyError) : M A := fun s => (Raise e, s).

Notation "x <- m ;; k" := (bind m (fun x => k))
  (at level 61, m at next level, right associativity).
Notation "m ;; k" := (bind m (fun _ => k))
  (at level 61, right associativity).

Section ForEach.
Context {A : Type} (body : A -> M unit).

(** [for x in xs: body(x)]. *)
Fixpoint for_each (xs : list A) : M unit :=
  match xs with
  | [] => ret tt
  | x :: xs' => body x ;; for_each xs'
  end.
End ForEach.

(** [self.stream.write(s)]: the text goes to the printer's stream, the
    number of characters comes back. *)
Definition stream_write (s : string) : M Z :=
  fun '(p, w) => (Ok (Z.of_nat (String.length s)), (p, stream_append (stream p) s w)).

(** The line break. *)
Definition nl : string := String (ascii_of_nat 10) "".

(** A space and [s] between double quotes, as in [f' "{s}"']. *)
Definition dquote : string := String (ascii_of_nat 34) "".
Definition quoted (s : string) : string := " " ++ dquote ++ s ++ dquote.

(** The built-in [print(s)]: always to the process's standard output. *)
Definition builtin_print (s : string) : M unit :=
  fun '(p, w) => (Ok tt, (p, stream_append Stdout (s ++ nl) w)).

Definition add_charcount (n : Z) : M unit :=
  fun '(p, w) =>
    (Ok tt, (mkPrettyPrinter (stream p) (indentation p) (width p)
                             (charcount p + n) (curpos p) (indent p), w)).

Definition set_curpos (f : Z -> Z) : M unit :=
  fun '(p, w) =>
    (Ok tt, (mkPrettyPrinter (stream p) (indentation p) (width p)
                             (charcount p) (f (curpos p)) (indent p), w)).

(** [self.indent += d]. *)
Definition add_indent (d : Z) : M unit :=
  fun '(p, w) =>
    (Ok tt, (mkPrettyPrinter (stream p) (indentation p) (width p)
                             (charcount p) (curpos p) (indent p + d), w)).

Definition indent_prefix : M string :=
  fun '(p, w) => (Ok (str_mul (indent p) (indentation p)), (p, w)).

(** [PrettyPrinter._write]. *)
Definition _write (s : string) (with_indent : bool) : M Z :=
  nchars <- (if with_indent
             then (pre <- indent_prefix ;; stream_write (pre ++ s))
             else stream_write s) ;;
  add_charcount nchars ;;
  ret nchars.

(** [PrettyPrinter.print]. *)
Definition print (s : string) (with_indent : bool) : M unit :=
  _write (s ++ nl) with_indent ;;
  set_curpos (fun _ => 0).

(** [PrettyPrinter.write]. *)
Definition write (s : string) (with_indent : bool) : M unit :=
  nchars <- _write s with_indent ;;
  set_curpos (fun c => c + nchars).

Definition lift {A} (r : Res A) : M A := fun s => (r, s).

Section RestLast.
Context {A : Type} (each final : A -> M unit).

(** [*head, last = xs], then [each] on every element of [head] in turn
    and [final] on [last]. *)
Fixpoint for_head_then_last (xs : list A) : M unit :=
  match xs with
  | [] => ret tt
  | [x] => final x
  | x :: xs' => each x ;; for_head_then_last xs'
  end.
End RestLast.

(** ** Modifications and annotations ([output.py]) *)

Section Printer.

(** Python's built-in [format(value, spec)] for a non-empty format
    specification [spec]; with the empty one it is [str(value)]. *)
Variable format_spec : Scalar -> string -> Res string.

Definition py_format (v : Scalar) (spec : string) : Res string :=
  if String.eqb spec "" then Ok (py_str v) else format_spec v spec.

(** [Assign.__str__], and [Assign.__format__] with the empty
    specification an f-string passes. *)
Definition Assign_str (a : Assign) : Res string := py_format (a_value a) (a_fmt a).

(** [PrettyPrinter.write_annotation]. *)
Fixpoint write_annotation (anno : Anno) : M unit :=
  match anno with
  | ADict items =>
      match items with
      | [] => ret tt
      | [(k, v)] =>
          write "(" false ;;
          write k false ;;
          write_annotation v ;;
          write ")" false
      | (k, v) :: rest_last =>
          write "(" false ;;
          add_indent 1 ;;
          write k false ;;
          write_annotation v ;;
          print "," false ;;
          for_head_then_last
            (fun '(k, v) => write k true ;; write_annotation v ;; print "," false)
            (fun '(k, v) => write k true ;; write_annotation v)
            rest_last ;;
          add_indent (-1) ;;
          write ")" false
      end
  | ADictList [] | AListList [] | AList [] => write "={}" false
  | ADictList elems =>
      print "={" true ;;
      add_indent 1 ;;
      for_head_then_last
        (fun e =>
           match e with
           | [(name, value)] =>
               write name true ;; write_annotation value ;; print "," true
           | _ => raise (AssertionError "only one object per array element allowed")
           end)
        (fun e =>
           match e with
           | (name, value) :: _ => write name true ;; write_annotation value
           | [] => raise (IndexError "list index out of range")
           end)
        elems ;;
      add_indent (-1) ;;
      print "" false ;;
      write "}" true
  | AListList elems =>
      write "={" false ;;
      for_head_then_last
        (fun e => write ("{" ++ join "," (map py_str e) ++ "}") false ;; write "," false)
        (fun e => write ("{" ++ join "," (map py_str e) ++ "}") false)
        elems ;;
      write "}" false
  | AList elems => write ("={" ++ join "," (map py_str elems) ++ "}") false
  | AScalar (SBool true) => write "=true" false
  | AScalar (SBool false) => write "=false" false
  | AScalar v => write ("=" ++ py_str v) false
  end.

(** The branch of [write_key_value] for a [dict], over the function that
    writes one entry. *)
Definition write_dict (write_entry : string -> Value -> M unit)
    (key : string) (lst : Dict Value) : M unit :=
  write key false ;;
  match lst with
  | [] => ret tt
  | [(k, v)] =>
      write "(" false ;;
      write_entry k v ;;
      write ")" false
  | [(k0, v0); (k1, v1)] =>
      write "(" false ;;
      write_entry k0 v0 ;;
      write ", " false ;;
      write_entry k1 v1 ;;
      write ")" false
  | (k, v) :: rest_last =>
      add_indent 1 ;;
      write ("(" ++ nl) false ;;
      write "" true ;;
      write_entry k v ;;
      print "," false ;;
      for_head_then_last
        (fun '(k, v) => write "" true ;; write_entry k v ;; print "," false)
        (fun '(k, v) => write "" true ;; write_entry k v)
        rest_last ;;
      add_indent (-1) ;;
      write ")" false
  end.

(** The names of the flags of an [Assign], in the order they are tested. *)
Definition assign_flag_names (f : Flags) : list string :=
  (if flag_in AssignFlags.Redeclare f then ["redeclare"] else []) ++
  (if flag_in AssignFlags.Each f then ["each"] else []) ++
  (if flag_in AssignFlags.Final f then ["final"] else []) ++
  (if flag_in AssignFlags.Replaceable f then ["replaceable"] else []).

(** A non-empty [dict] is true, an empty one false. *)
Definition truthy {V} (d : Dict V) : bool :=
  match d with [] => false | _ :: _ => true end.

(** [PrettyPrinter.write_key_value]. *)
Fixpoint write_key_value (key : string) (value : Value) : M unit :=
  match value with
  | VScalar SNone => write key false
  | VDict lst => write_dict write_key_value key lst
  | VAssign a =>
      match a_flags a with
      | Some f => write (join " " (assign_flag_names f) ++ " ") false
      | None => ret tt
      end ;;
      match a_type a with
      | Some (String c t) => write (String c t ++ " ") false
      | _ => ret tt
      end ;;
      (if truthy (a_init a)
       then write_dict write_key_value key (a_init a)
       else write key false) ;;
      match a_value a with
      | SNone => ret tt
      | _ =>
          text <- lift (Assign_str a) ;;
          if truthy (a_init a)
          then write (" = " ++ text) false
          else write ("=" ++ text) false
      end ;;
      match a_description a with
      | Some d => write (quoted d) false
      | None => ret tt
      end ;;
      if truthy (a_annotation a)
      then write " annotation" false ;; write_annotation (ADict (a_annotation a))
      else ret tt
  | VScalar (SBool true) => write (key ++ "=true") false
  | VScalar (SBool false) => write (key ++ "=false") false
  | VScalar (SInt z) => write (key ++ "=" ++ str_of_int z) false
  | VScalar (SFloat text) => write (key ++ "=" ++ text) false
  | VTuple elems => write (key ++ "={" ++ join ", " (map py_str elems) ++ "}") false
  | VScalar (SStr s) => write (key ++ "=" ++ s) false
  | VOther type_name =>
      raise (AssertionError ("Expected str got `<class '" ++ type_name ++ "'>`"))
  end.

(** ** The visitor ([output.py]) *)

(** [Visitor.visit_default]. *)
Definition visit_default {A} (type_name : string) : M A :=
  raise (ValueError ("no visit function for type <class '" ++ type_name ++ "'>")).

(** [PrettyPrinter.visit_Annotation]. *)
Definition visit_Annotation (node : Dict Anno) : M unit :=
  write "annotation " false ;;
  write_annotation (ADict node).

(** [PrettyPrinter.visit_Algorithm]. *)
Definition visit_Algorithm (node : Algorithm) : M unit :=
  write (alg_left node ++ " := " ++ alg_right node) true ;;
  match alg_description node with
  | Some d => write (quoted d) false
  | None => ret tt
  end ;;
  match alg_annotation node with
  | Some a => write " " false ;; visit_Annotation a
  | None => ret tt
  end ;;
  print ";" false.

(** [PrettyPrinter.visit_Assign]: the built-in [print], not the stream. *)
Definition visit_Assign (node : Assign) : M unit :=
  text <- lift (Assign_str node) ;;
  builtin_print text.

(** The flags of a [Component], as [visit_Component] writes them. *)
Definition write_component_flags (flags : option Flags) : M unit :=
  match flags with
  | Some f =>
      (if flag_in ComponentFlags.Final f then write "final " false else ret tt) ;;
      (if flag_in ComponentFlags.Inner f then write "inner " false else ret tt) ;;
      (if flag_in ComponentFlags.Outer f then write "outer " false else ret tt)
  | None => ret tt
  end.

(** [PrettyPrinter.visit_Component]. *)
Definition visit_Component (node : Component) : M unit :=
  write "" true ;;
  write_component_flags (c_flags node) ;;
  match c_flux node with
  | Some f => write (Flux_value f ++ " ") false
  | None => ret tt
  end ;;
  match c_variability node with
  | Some v => write (Variability_value v ++ " ") false
  | None => ret tt
  end ;;
  match c_causality node with
  | Some c => write (Causality_value c ++ " ") false
  | None => ret tt
  end ;;
  write (c_type node) false ;;
  match c_subscripts node with
  | [] => ret tt
  | subs => write ("[" ++ join "," (map py_str subs) ++ "]") false
  end ;;
  write (" " ++ c_ident node) false ;;
  (if truthy (c_init node) then write_key_value "" (VDict (c_init node)) else ret tt) ;;
  match c_value node with
  | SNone => ret tt
  | v =>
      let spacing := if truthy (c_init node) then " " else "" in
      write (spacing ++ "=" ++ spacing) false ;;
      write (py_str v) false
  end ;;
  match c_condition node with
  | Some c => write (" if " ++ c) false
  | None => ret tt
  end ;;
  match c_constraint node with
  | Some _ => raise (NotImplementedError "constraints are not yet implemented")
  | None => ret tt
  end ;;
  match c_description node with
  | Some d => write (quoted d) false
  | None => ret tt
  end ;;
  (if truthy (c_annotation node)
   then write " " false ;; visit_Annotation (c_annotation node)
   else ret tt) ;;
  print ";" false.

(** [PrettyPrinter.visit_Description]. *)
Definition visit_Description (node : string) : M unit := write (quoted node) false.

(** [PrettyPrinter.visit_Connect]. *)
Definition visit_Connect (node : Connect) : M unit :=
  write ("connect(" ++ Ref_format (ref1 node) ++ ", " ++ Ref_format (ref2 node) ++ ")") true ;;
  match con_description node with
  | Some d => visit_Description d
  | None => ret tt
  end ;;
  (if truthy (con_annotation node)
   then write " " false ;; visit_Annotation (con_annotation node)
   else ret tt) ;;
  print ";" false.

(** [PrettyPrinter.visit_Equation]. *)
Definition visit_Equation (node : Equation) : M unit :=
  write (eq_left node ++ " = " ++ eq_right node) true ;;
  match eq_description node with
  | Some d => write (quoted d) false
  | None => ret tt
  end ;;
  (if truthy (eq_annotation node)
   then write " " false ;; visit_Annotation (eq_annotation node)
   else ret tt) ;;
  print ";" false.

(** [PrettyPrinter.visit_Within]. *)
Definition visit_Within (node : Within) : M unit :=
  match within_name node with
  | None => print "within;" true
  | Some name => print ("within " ++ name ++ ";") true
  end.

(** The flags of a [Model], as [visit_Model] writes them. *)
Definition write_model_flags (flags : option Flags) : M unit :=
  match flags with
  | Some f =>
      (if flag_in ModelFlags.Final f then write "final " false else ret tt) ;;
      (if flag_in ModelFlags.Encapsulated f then write "encapsulated " false else ret tt) ;;
      (if flag_in ModelFlags.Partial f then write "partial " false else ret tt) ;;
      (if flag_in ModelFlags.Replaceable f then write "replaceable " false else ret tt)
  | None => ret tt
  end.

(** One of the five sections of [visit_Model] that come with a keyword
    line: nothing at all when the section is empty. *)
Definition visit_section {N} (visit : N -> M unit) (keyword : string)
    (section : list N) : M unit :=
  match section with
  | [] => ret tt
  | _ =>
      add_indent (-1) ;;
      print keyword true ;;
      add_indent 1 ;;
      for_each visit section
  end.

(** [PrettyPrinter.visit_Model], over the function that visits a node. *)
Definition visit_Model {N} (visit : N -> M unit) (node : ModelOf N) : M unit :=
  match m_within node with
  | Some w => visit_Within w
  | None => ret tt
  end ;;
  write_model_flags (m_flags node) ;;
  match m_description node with
  | Some d => print ("model " ++ m_ident node ++ quoted d) true
  | None => print ("model " ++ m_ident node) true
  end ;;
  add_indent 1 ;;
  for_each visit (public_section node) ;;
  visit_section visit "protected" (protected_section node) ;;
  visit_section visit "initial equation" (initial_equations node) ;;
  visit_section visit "initial algorithm" (initial_algorithms node) ;;
  visit_section visit "equation" (equations node) ;;
  visit_section visit "algorithm" (algorithms node) ;;
  (if truthy (m_annotation node)
   then visit_Annotation (m_annotation node) ;; print ";" false
   else ret tt) ;;
  add_indent (-1) ;;
  print ("end " ++ m_ident node ++ ";") true.

(** [Visitor.visit] with the methods of [PrettyPrinter]: the dispatch on
    the type of the node, [visit_IfEquation] and the recursive calls. *)
Fixpoint visit (node : Node) : M unit :=
  match node with
  | NAlgorithm a => visit_Algorithm a
  | NAssign a => visit_Assign a
  | NComponent c => visit_Component c
  | NConnect c => visit_Connect c
  | NEquation e => visit_Equation e
  | NExtends name => print ("extends " ++ name ++ ";") true
  | NExpression value => write value false
  | NIfEquation test body elseif orelse =>
      write "if " true ;;
      visit test ;;
      print " then" false ;;
      add_indent 1 ;;
      for_each (fun eq => write "" true ;; visit eq ;; print ";" false) body ;;
      add_indent (-1) ;;
      for_each
        (fun '(expr, eqs) =>
           write "elseif " true ;;
           write "" true ;;
           visit expr ;;
           write " then" false ;;
           add_indent 1 ;;
           for_each (fun eq => write "" true ;; visit eq ;; print ";" false) eqs ;;
           add_indent (-1))
        elseif ;;
      match orelse with
      | Some _ => print "else" true ;; visit_default "list"
      | None => ret tt
      end ;;
      print "end if;" true
  | NModel m => visit_Model visit m
  | NMultiImport path names =>
      print ("import " ++ path ++ ".{" ++ join ", " names ++ "};") true
  | NNamedImport short long => print ("import " ++ short ++ " = " ++ long ++ ";") true
  | NQualifiedImport name => print ("import " ++ name ++ ";") true
  | NStr s => write s false
  | NText lines with_indent => for_each (fun e => print e with_indent) lines
  | NWithin w => visit_Within w
  | NOther type_name => visit_default type_name
  end.

(** [PrettyPrinter.__init__]: the new printer, and the warning that the
    built-in [print] leaves on the standard output. *)
Definition PrettyPrinter_init (stream : TextIO) (indentation : string) (width : Z)
    (start_indent : Z) (draw_connections : bool) (w : World) : State :=
  (mkPrettyPrinter stream indentation width 0 0 start_indent,
   if draw_connections
   then stream_append Stdout ("WARNING: Does not support drawing connections yet" ++ nl) w
   else w).

(** [pprint].  With [stream=None] the printer writes to a new [StringIO],
    which nothing else refers to: it is the [sink] of the world only while
    the call lasts, and the stream of the caller is back afterwards. *)
Definition pprint (o : Node) (stream : option TextIO) (draw_connections : bool)
    (indentation : string) (width : Z) (start_indent : Z)
    (w : World) : Res (option string) * World :=
  match stream with
  | None =>
      let buffer := mkWorld (stdout w) "" in
      let printer :=
        PrettyPrinter_init Sink indentation width start_indent draw_connections buffer in
      match visit o printer with
      | (Ok _, (_, w')) => (Ok (Some (sink w')), mkWorld (stdout w') (sink w))
      | (Raise e, (_, w')) => (Raise e, mkWorld (stdout w') (sink w))
      end
  | Some stream =>
      let printer :=
        PrettyPrinter_init stream indentation width start_indent draw_connections w in
      match visit o printer with
      | (Ok _, (_, w')) => (Ok None, w')
      | (Raise e, (_, w')) => (Raise e, w')
      end
  end.

End Printer.

(** ** The nodes as objects of a store ([output.py])

    What [pprint] and [visit] are handed is a reference to an object, and
    the sections of a model and the branches of an if-equation hold
    references to the objects in them.  Here the objects are in a store, a
    method of the printer works on the state of the printer and the store,
    and an assignment to an object would be a call of [store_set]. *)

Definition Loc : Type := nat.

(** An object, by its class: as [Node], with references where a model and
    an if-equation hold nodes. *)
Inductive Obj : Type :=
| OAlgorithm (a : Algorithm)
| OAssign (a : Assign)
| OComponent (c : Component)
| OConnect (c : Connect)
| OEquation (e : Equation)
| OExtends (name : string)
| OExpression (value : string)
| OIfEquation (test : Loc) (body : list Loc) (elseif : list (Loc * list Loc))
              (orelse : option (list Loc))
| OModel (m : ModelOf Loc)
| OMultiImport (path : string) (names : list string)
| ONamedImport (short long : string)
| OQualifiedImport (name : string)
| OStr (s : string)
| OText (lines : list string) (indent : bool)
| OWithin (w : Within)
| OOther (type_name : string).

Definition Store : Type := Loc -> Obj.

Definition StateH : Type := State * Store.

Definition MH (A : Type) : Type := StateH -> Res A * StateH.

Definition retH {A} (a : A) : MH A := fun s => (Ok a, s).

Definition bindH {A B} (m : MH A) (f : A -> MH B) : MH B :=
  fun s =>
    match m s with
    | (Ok a, s') => f a s'
    | (Raise e, s') => (Raise e, s')
    end.

Definition raiseH {A} (e : PyError) : MH A := fun s => (Raise e, s).

Notation "x <<- m ;; k" := (bindH m (fun x => k))
  (at level 61, m at next level, right associativity).
Notation "m ;;; k" := (bindH m (fun _ => k))
  (at level 61, right associativity).

(** A method that works on the printer and its streams alone. *)
Definition liftH {A} (m : M A) : MH A :=
  fun '(s, h) => let '(r, s') := m s in (r, (s', h)).

(** The object a reference refers to. *)
Definition deref (node : Loc) : MH Obj := fun '(s, h) => (Ok (h node), (s, h)).

(** An assignment to the object a reference refers to. *)
Definition store_set (node : Loc) (obj : Obj) : MH unit :=
  fun '(s, h) => (Ok tt, (s, fun l => if Nat.eqb l node then obj else h l)).

Section ForEachRef.
Context {A : Type} (body : A -> MH unit).

Fixpoint for_each_ref (xs : list A) : MH unit :=
  match xs with
  | [] => retH tt
  | x :: xs' => body x ;;; for_each_ref xs'
  end.
End ForEachRef.

Section Objects.

Variable format_spec : Scalar -> string -> Res string.

(** [visit_section] and [PrettyPrinter.visit_Model] on a model whose
    sections hold references. *)
Definition visit_section_ref (visit : Loc -> MH unit) (keyword : string)
    (section : list Loc) : MH unit :=
  match section with
  | [] => retH tt
  | _ =>
      liftH (add_indent (-1)) ;;;
      liftH (print keyword true) ;;;
      liftH (add_indent 1) ;;;
      for_each_ref visit section
  end.

Definition visit_Model_ref (visit : Loc -> MH unit) (node : ModelOf Loc) : MH unit :=
  liftH (match m_within node with
         | Some w => visit_Within w
         | None => ret tt
         end) ;;;
  liftH (write_model_flags (m_flags node)) ;;;
  liftH (match m_description node with
         | Some d => print ("model " ++ m_ident node ++ quoted d) true
         | None => print ("model " ++ m_ident node) true
         end) ;;;
  liftH (add_indent 1) ;;;
  for_each_ref visit (public_section node) ;;;
  visit_section_ref visit "protected" (protected_section node) ;;;
  visit_section_ref visit "initial equation" (initial_equations node) ;;;
  visit_section_ref visit "initial algorithm" (initial_algorithms node) ;;;
  visit_section_ref visit "equation" (equations node) ;;;
  visit_section_ref visit "algorithm" (algorithms node) ;;;
  liftH (if truthy (m_annotation node)
         then visit_Annotation (m_annotation node) ;; print ";" false
         else ret tt) ;;;
  liftH (add_indent (-1)) ;;;
  liftH (print ("end " ++ m_ident node ++ ";") true).

(** [Visitor.visit] on a reference: the object is looked up and visited by
    the method for its type, which visits the objects it refers to in turn.
    [fuel] is the depth of nested visits the interpreter allows; beyond it
    the call raises [RecursionError], as it does on a model that holds
    itself. *)
Fixpoint visit_ref (fuel : nat) (node : Loc) : MH unit :=
  match fuel with
  | O => raiseH (RecursionError "maximum recursion depth exceeded")
  | S fuel' =>
      obj <<- deref node ;;
      match obj with
      | OAlgorithm a => liftH (visit_Algorithm a)
      | OAssign a => liftH (visit_Assign format_spec a)
      | OComponent c => liftH (visit_Component format_spec c)
      | OConnect c => liftH (visit_Connect c)
      | OEquation e => liftH (visit_Equation e)
      | OExtends name => liftH (print ("extends " ++ name ++ ";") true)
      | OExpression value => liftH (write value false)
      | OIfEquation test body elseif orelse =>
          liftH (write "if " true) ;;;
          visit_ref fuel' test ;;;
          liftH (print " then" false) ;;;
          liftH (add_indent 1) ;;;
          for_each_ref
            (fun eq => liftH (write "" true) ;;; visit_ref fuel' eq ;;; liftH (print ";" false))
            body ;;;
          liftH (add_indent (-1)) ;;;
          for_each_ref
            (fun '(expr, eqs) =>
               liftH (write "elseif " true) ;;;
               liftH (write "" true) ;;;
               visit_ref fuel' expr ;;;
               liftH (write " then" false) ;;;
               liftH (add_indent 1) ;;;
               for_each_ref
                 (fun eq =>
                    liftH (write "" true) ;;; visit_ref fuel' eq ;;; liftH (print ";" false))
                 eqs ;;;
               liftH (add_indent (-1)))
            elseif ;;;
          match orelse with
          | Some _ => liftH (print "else" true) ;;; liftH (visit_default "list")
          | None => retH tt
          end ;;;
          liftH (print "end if;" true)
      | OModel m => visit_Model_ref (visit_ref fuel') m
      | OMultiImport path names =>
          liftH (print ("import " ++ path ++ ".{" ++ join ", " names ++ "};") true)
      | ONamedImport short long =>
          liftH (print ("import " ++ short ++ " = " ++ long ++ ";") true)
      | OQualifiedImport name => liftH (print ("import " ++ name ++ ";") true)
      | OStr s => liftH (write s false)
      | OText lines with_indent => liftH (for_each (fun e => print e with_indent) lines)
      | OWithin w => liftH (visit_Within w)
      | OOther type_name => liftH (visit_default type_name)
      end
  end.

(** [pprint] on a reference. *)
Definition pprint_ref (fuel : nat) (o : Loc) (stream : option TextIO)
    (draw_connections : bool) (indentation : string) (width : Z) (start_indent : Z)
    (w : World) (h : Store) : Res (option string) * (World * Store) :=
  match stream with
  | None =>
      let buffer := mkWorld (stdout w) "" in
      let printer :=
        PrettyPrinter_init Sink indentation width start_indent draw_connections buffer in
      match visit_ref fuel o (printer, h) with
      | (Ok _, ((_, w'), h')) => (Ok (Some (sink w')), (mkWorld (stdout w') (sink w), h'))
      | (Raise e, ((_, w'), h')) => (Raise e, (mkWorld (stdout w') (sink w), h'))
      end
  | Some stream =>
      let printer :=
        PrettyPrinter_init stream indentation width start_indent draw_connections w in
      match visit_ref fuel o (printer, h) with
      | (Ok _, ((_, w'), h')) => (Ok None, (w', h'))
      | (Raise e, ((_, w'), h')) => (Raise e, (w', h'))
      end
  end.

End Objects.

(** ** The builder ([model.py])

    A builder function works on the [Model] it is given: it returns its
    result, or the exception it raised, together with the model as the call
    left it. *)

(** [Model.__init__]. *)
Definition Model_init (ident : string) (description : option string)
    (within : option string) (flags : option Flags)
    (annotation : option (Dict Anno)) : Model :=
  mkModel ident description
          (match within with None => None | Some s => Some (Within_from_str s) end)
          flags
          (match annotation with None => [] | Some a => a end)
          [] [] [] [] [] [] [].

(** The model with one of its fields replaced. *)
Definition set_components (m : Model) (d : Dict Component) : Model :=
  mkModel (m_ident m) (m_description m) (m_within m) (m_flags m) (m_annotation m)
          d (public_section m) (protected_section m) (initial_equations m)
          (initial_algorithms m) (equations m) (algorithms m).

Definition set_public_section (m : Model) (l : list Node) : Model :=
  mkModel (m_ident m) (m_description m) (m_within m) (m_flags m) (m_annotation m)
          (components m) l (protected_section m) (initial_equations m)
          (initial_algorithms m) (equations m) (algorithms m).

Definition set_protected_section (m : Model) (l : list Node) : Model :=
  mkModel (m_ident m) (m_description m) (m_within m) (m_flags m) (m_annotation m)
          (components m) (public_section m) l (initial_equations m)
          (initial_algorithms m) (equations m) (algorithms m).

Definition set_initial_equations (m : Model) (l : list Node) : Model :=
  mkModel (m_ident m) (m_description m) (m_within m) (m_flags m) (m_annotation m)
          (components m) (public_section m) (protected_section m) l
          (initial_algorithms m) (equations m) (algorithms m).

Definition set_initial_algorithms (m : Model) (l : list Node) : Model :=
  mkModel (m_ident m) (m_description m) (m_within m) (m_flags m) (m_annotation m)
          (components m) (public_section m) (protected_section m) (initial_equations m)
          l (equations m) (algorithms m).

Definition set_equations (m : Model) (l : list Node) : Model :=
  mkModel (m_ident m) (m_description m) (m_within m) (m_flags m) (m_annotation m)
          (components m) (public_section m) (protected_section m) (initial_equations m)
          (initial_algorithms m) l (algorithms m).

Definition set_algorithms (m : Model) (l : list Node) : Model :=
  mkModel (m_ident m) (m_description m) (m_within m) (m_flags m) (m_annotation m)
          (components m) (public_section m) (protected_section m) (initial_equations m)
          (initial_algorithms m) (equations m) l.

(** [Model.add]. *)
Definition Model_add (self : Model) (some : Node) (where_ : string) : Res Node * Model :=
  if String.eqb where_ "public" then
    (Ok some, set_public_section self (public_section self ++ [some]))
  else if String.eqb where_ "protected" then
    (Ok some, set_protected_section self (protected_section self ++ [some]))
  else if String.eqb where_ "initial equation" then
    (Ok some, set_initial_equations self (initial_equations self ++ [some]))
  else if String.eqb where_ "initial algorithm" then
    (Ok some, set_initial_algorithms self (initial_algorithms self ++ [some]))
  else if String.eqb where_ "equation" then
    (Ok some, set_equations self (equations self ++ [some]))
  else if String.eqb where_ "algorithm" then
    (Ok some, set_algorithms self (algorithms self ++ [some]))
  else
    (Raise (ValueError ("where=" ++ where_ ++ " unknown")), self).

(** [str.split()]: the words between runs of white space.  A string holds
    the UTF-8 bytes of the Python string; white space is what [str.isspace]
    says: the ASCII characters 9 to 13 and 28 to 32, and U+0085, U+00A0,
    U+1680, U+2000 to U+200A, U+2028, U+2029, U+202F, U+205F and U+3000,
    which are two or three bytes long. *)
Definition is_space (c : ascii) : bool :=
  let n := nat_of_ascii c in
  ((9 <=? n) && (n <=? 13) || (28 <=? n) && (n <=? 32))%nat.

Definition is_space2 (c1 c2 : ascii) : bool :=
  let n1 := nat_of_ascii c1 in
  let n2 := nat_of_ascii c2 in
  ((n1 =? 194) && ((n2 =? 133) || (n2 =? 160)))%nat.

Definition is_space3 (c1 c2 c3 : ascii) : bool :=
  let n1 := nat_of_ascii c1 in
  let n2 := nat_of_ascii c2 in
  let n3 := nat_of_ascii c3 in
  ((n1 =? 225) && (n2 =? 154) && (n3 =? 128)
   || (n1 =? 226) && (n2 =? 128)
      && ((128 <=? n3) && (n3 <=? 138) || (n3 =? 168) || (n3 =? 169) || (n3 =? 175))
   || (n1 =? 226) && (n2 =? 129) && (n3 =? 159)
   || (n1 =? 227) && (n2 =? 128) && (n3 =? 128))%nat.

Fixpoint split_from (word : string) (s : string) : list string :=
  let close rest :=
    match word with
    | EmptyString => rest
    | _ => word :: rest
    end in
  match s with
  | EmptyString => close []
  | String c1 s1 =>
      if is_space c1 then close (split_from "" s1)
      else
        match s1 with
        | String c2 s2 =>
            if is_space2 c1 c2 then close (split_from "" s2)
            else
              match s2 with
              | String c3 s3 =>
                  if is_space3 c1 c2 c3 then close (split_from "" s3)
                  else split_from (word ++ String c1 "") s1
              | EmptyString => split_from (word ++ String c1 "") s1
              end
        | EmptyString => split_from (word ++ String c1 "") s1
        end
  end.

Definition py_split (s : string) : list string := split_from "" s.

(** The [value] argument of [add_component]: [None] or a primitive, or a
    [dict] that is taken as the initialization. *)
Inductive ValueArg : Type :=
| ValScalar (v : Scalar)
| ValDict (d : Dict Value).

(** The [flags] argument of [add_component]; [FlagsOther] is an object of
    any other type. *)
Inductive FlagsArg : Type :=
| FlagsNone
| FlagsStr (s : string)
| FlagsEnum (f : Flags)
| FlagsOther.

(** The keyword arguments [add_component] collects in [kwargs]: the ones
    [Component.__init__] knows, the four placement keys, and the names of
    any others.  [None] is a keyword that was not passed. *)
Record Kwargs : Type := mkKwargs {
  kw_variability : option Variability;
  kw_causality : option Causality;
  kw_flux : option Flux;
  kw_subscripts : option (list Scalar);
  kw_condition : option string;
  kw_constraint : option unit;
  kw_description : option string;
  kw_annotation : option (Dict Anno);
  kw_pos : option (Scalar * Scalar);
  kw_size : option Z;
  kw_rotation : option Scalar;
  kw_flip : option string;
  kw_others : list string
}.

Definition no_kwargs : Kwargs :=
  mkKwargs None None None None None None None None None None None None [].

(** [d.setdefault(key, {})] on an annotation, where the entry has to be a
    [dict] for the caller to go on: the entry and the updated dictionary.
    The message of the error, which names the type, is cut short. *)
Definition setdefault_dict (d : Dict Anno) (key : string) : Res (Dict Anno * Dict Anno) :=
  match dict_get d key with
  | None => Ok ([], dict_set d key (ADict []))
  | Some (ADict sub) => Ok (sub, d)
  | Some _ => Raise (AttributeError "object has no attribute 'setdefault'")
  end.

(** [transf = placement.setdefault(key, {})] followed by an assignment
    [transf[...] = ...]: the call gives back whatever the entry holds, and it
    is the assignment that fails, with [TypeError], when that is no [dict].
    The message, which names the type, is left out. *)
Definition setdefault_item (d : Dict Anno) (key : string) : Res (Dict Anno * Dict Anno) :=
  match dict_get d key with
  | None => Ok ([], dict_set d key (ADict []))
  | Some (ADict sub) => Ok (sub, d)
  | Some _ => Raise (TypeError "object does not support item assignment")
  end.

(** [set_placement] called without [visible], with the in-place updates of
    the nested dictionaries written back from the inside out.  A rotation
    that is [None], passed or left out, stores nothing.  What it prints on
    the standard error stream is [set_placement_warning], below. *)
Definition set_placement (component : Component) (pos : Scalar * Scalar)
    (flip : option string) (rotation : option Scalar) (size : Z) : Res Component :=
  match setdefault_dict (c_annotation component) "Placement" with
  | Raise e => Raise e
  | Ok (placement, annotation) =>
      match setdefault_item placement "transformation" with
      | Raise e => Raise e
      | Ok (transf, placement) =>
          let extent :=
            match flip with
            | Some "horiz" => [[SInt size; SInt (- size)]; [SInt (- size); SInt size]]
            | Some "vert" => [[SInt (- size); SInt size]; [SInt size; SInt (- size)]]
            | _ => [[SInt (- size); SInt (- size)]; [SInt size; SInt size]]
            end in
          let transf := dict_set transf "extent" (AListList extent) in
          let transf :=
            match rotation with
            | None | Some SNone => transf
            | Some r => dict_set transf "rotation" (AScalar r)
            end in
          let transf := dict_set transf "origin" (AList [fst pos; snd pos]) in
          let placement := dict_set placement "transformation" (ADict transf) in
          let annotation := dict_set annotation "Placement" (ADict placement) in
          Ok (mkComponent (c_type component) (c_ident component) (c_value component)
                          (c_init component) (c_flags component)
                          (c_variability component) (c_causality component)
                          (c_flux component) (c_subscripts component)
                          (c_condition component) (c_constraint component)
                          (c_description component) annotation)
      end
  end.

(** The truth value of a scalar and of an object of an annotation.  The
    text of a float is its [repr]. *)
Definition scalar_truthy (v : Scalar) : bool :=
  match v with
  | SNone => false
  | SBool b => b
  | SInt z => negb (z =? 0)
  | SFloat text => negb (String.eqb text "0.0" || String.eqb text "-0.0")
  | SStr s => negb (String.eqb s "")
  end.

Definition anno_truthy (a : Anno) : bool :=
  match a with
  | ADict d => truthy d
  | ADictList l => match l with [] => false | _ => true end
  | AListList l => match l with [] => false | _ => true end
  | AList l => match l with [] => false | _ => true end
  | AScalar v => scalar_truthy v
  end.

(** What [set_placement] prints on the standard error stream: a warning
    when the transformation it finds is true.  The text is no f-string in the
    source, so the braces are printed as they are. *)
Definition set_placement_warning (component : Component) : string :=
  match dict_get (c_annotation component) "Placement" with
  | Some (ADict placement) =>
      match dict_get placement "transformation" with
      | Some transf =>
          if anno_truthy transf
          then "WARNING: Overwriting placement transformation for component {component.ident}"
               ++ nl
          else ""
      | None => ""
      end
  | _ => ""
  end.

(** The loop of [add_component] over the words of a [flags] string. *)
Fixpoint or_flags (flgs : Flags) (parts : list string) : Res Flags :=
  match parts with
  | [] => Ok flgs
  | part :: parts' =>
      match dict_get str2ComponentFlags part with
      | Some f => or_flags (flag_or flgs f) parts'
      | None => Raise (KeyError part)
      end
  end.

(** The [flags] that end up in [kwargs]. *)
Definition flags_kwarg (flags : FlagsArg) : Res (option Flags) :=
  match flags with
  | FlagsStr s =>
      match py_split s with
      | [] => Ok None
      | part :: parts =>
          match dict_get str2ComponentFlags part with
          | None => Raise (KeyError part)
          | Some flgs =>
              match or_flags flgs parts with
              | Ok f => Ok (Some f)
              | Raise e => Raise e
              end
          end
      end
  | FlagsEnum f => Ok (Some f)
  | FlagsNone => Ok None
  | FlagsOther => Raise (AssertionError "'flags' must be of type str, ComponentFlags or None")
  end.

(** Whether [kwargs] holds one of the placement keys. *)
Definition has_pos_keys (kw : Kwargs) : bool :=
  match kw_pos kw, kw_size kw, kw_rotation kw, kw_flip kw with
  | None, None, None, None => false
  | _, _, _, _ => true
  end.

(** [add_component].  The component holds the [dict] objects the caller
    passes as [init] and [annotation]; here it holds their values.  The two
    agree as long as no such object is written to while another object of
    the model holds it too, which the call itself does only when it gets an
    annotation and a placement to write into it. *)
Definition add_component (model : Model) (typ ident : string) (value : ValueArg)
    (init : option (Dict Value)) (protected parameter : bool) (flags : FlagsArg)
    (kwargs : Kwargs) : Res Component * Model :=
  if dict_contains ident (components model) then
    (Raise (KeyError ("component with ident " ++ ident ++ " already exists")), model)
  else
    let value_init :=
      match value with
      | ValDict d =>
          match init with
          | Some _ => Raise (AssertionError "cannot pass initialization twice")
          | None => Ok (SNone, Some d)
          end
      | ValScalar v => Ok (v, init)
      end in
    match value_init with
    | Raise e => (Raise e, model)
    | Ok (value, init) =>
        match flags_kwarg flags with
        | Raise e => (Raise e, model)
        | Ok flgs =>
            let variability :=
              if parameter then Some Parameter_ else kw_variability kwargs in
            let init := match init with None => [] | Some d => d end in
            match kw_others kwargs with
            | name :: _ =>
                (Raise (TypeError ("__init__() got an unexpected keyword argument '"
                                   ++ name ++ "'")), model)
            | [] =>
                let c :=
                  mkComponent typ ident value init flgs variability
                              (kw_causality kwargs) (kw_flux kwargs)
                              (match kw_subscripts kwargs with None => [] | Some l => l end)
                              (kw_condition kwargs) (kw_constraint kwargs)
                              (kw_description kwargs)
                              (match kw_annotation kwargs with None => [] | Some a => a end) in
                let placed :=
                  if has_pos_keys kwargs then
                    match kw_pos kwargs with
                    | None =>
                        Raise (TypeError
                          "set_placement() missing 1 required positional argument: 'pos'")
                    | Some pos =>
                        set_placement c pos (kw_flip kwargs) (kw_rotation kwargs)
                                      (match kw_size kwargs with None => 10 | Some n => n end)
                    end
                  else Ok c in
                match placed with
                | Raise e => (Raise e, model)
                | Ok c =>
                    let model :=
                      if protected
                      then set_protected_section model (protected_section model ++ [NComponent c])
                      else set_public_section model (public_section model ++ [NComponent c]) in
                    (Ok c, set_components model (dict_set (components model) ident c))
                end
            end
        end
    end.

(** [add_parameter]. *)
Definition add_parameter (model : Model) (typ ident : string) (value : ValueArg)
    (init : option (Dict Value)) (protected : bool) (flags : FlagsArg)
    (kwargs : Kwargs) : Res Component * Model :=
  add_component model typ ident value init protected true flags kwargs.

(** The owner named by the first or third argument of the four-argument
    form of [add_connect]. *)
Definition owner_name (r : Ref) : string :=
  match r with
  | RComponent c => c_ident c
  | RStr s => s
  end.

(** [add_connect]: [args] are the positional arguments after the first two. *)
Definition add_connect (model : Model) (ref1 ref2 : Ref) (args : list Ref)
    (description : option string) : Res Connect * Model :=
  let made :=
    match args with
    | [] => Ok (mkConnect ref1 ref2 description [])
    | [arg1; port2] =>
        let name1 := owner_name ref1 in
        let name2 := owner_name arg1 in
        let s1 := name1 ++ "." ++ Ref_format ref2 in
        let s2 := name2 ++ "." ++ Ref_format port2 in
        Ok (mkConnect (RStr s1) (RStr s2) description [])
    | _ => Raise (ValueError "Too many or too few args.")
    end in
  match made with
  | Raise e => (Raise e, model)
  | Ok c =>
      match Model_add model (NConnect c) "equation" with
      | (Ok _, model') => (Ok c, model')
      | (Raise e, model') => (Raise e, model')
      end
  end.

(** [add_equation]. *)
Definition add_equation (model : Model) (left right : string) (initial : bool)
    (description : option string) (annotation : option (Dict Anno)) : Equation * Model :=
  let eq := mkEquation left right description
                       (match annotation with None => [] | Some a => a end) in
  (eq, if initial
       then set_initial_equations model (initial_equations model ++ [NEquation eq])
       else set_equations model (equations model ++ [NEquation eq])).

(** [add_algorithm]. *)
Definition add_algorithm (model : Model) (left right : string) (initial : bool)
    (description : option string) (annotation : option (Dict Anno)) : Algorithm * Model :=
  let alg := mkAlgorithm left right description annotation in
  (alg, if initial
        then set_initial_algorithms model (initial_algorithms model ++ [NAlgorithm alg])
        else set_algorithms model (algorithms model ++ [NAlgorithm alg])).

(** ** More of the builder ([model.py]) *)

(** [add_extends]. *)
Definition add_extends (model : Model) (name : string) : Node * Model :=
  let e := NExtends name in
  (e, set_public_section model (public_section model ++ [e])).

(** The second argument of [add_import]: [None], a list of names, a string,
    or an object of any other type. *)
Inductive ImportArg : Type :=
| ImportNone
| ImportNames (names : list string)
| ImportAlias (short : string)
| ImportOther.

(** [add_import].  Its [comment] and [annotation] arguments are not used by
    the source. *)
Definition add_import (model : Model) (name : string) (arg : ImportArg)
  : Res Node * Model :=
  match arg with
  | ImportNone => Model_add model (NQualifiedImport name) "public"
  | ImportNames names => Model_add model (NMultiImport name names) "public"
  | ImportAlias short => Model_add model (NNamedImport short name) "public"
  | ImportOther => (Raise (AssertionError ""), model)
  end.

(** [add_text]. *)
Definition add_text (model : Model) (lines : list string) (indent : bool)
    (where_ : string) : Res Node * Model :=
  Model_add model (NText lines indent) where_.

(** The prefixes [add_comment] chooses by the type of the comment:
    whether it is a multi-line comment, the prefix of the first line and the
    prefix of the others. *)
Definition comment_prefixes (type : string) : option (bool * string * string) :=
  if String.eqb type "//" then Some (false, "// ", "// ")
  else if String.eqb type "///" then Some (false, "/// ", "/// ")
  else if String.eqb type "/*" then Some (true, "/* ", " * ")
  else if String.eqb type "/**" then Some (true, "/** ", " * ")
  else if String.eqb type "" then Some (false, "", "")
  else None.

(** The lines [add_comment] builds. *)
Definition comment_parts (is_multi : bool) (start_prefix prefix : string)
    (lines : list string) : Res (list string) :=
  let end_prefix := if is_multi then " */" else "" in
  match lines with
  | [line] => Ok [start_prefix ++ line ++ end_prefix ++ ""]
  | first :: (_ :: _) as rest_last =>
      Ok ((start_prefix ++ first ++ "")
            :: map (fun e => prefix ++ e ++ "") (removelast rest_last)
            ++ [prefix ++ last rest_last "" ++ " */"])
  | [] => Raise (ValueError "not enough values to unpack (expected at least 2, got 0)")
  end.

(** [add_comment]. *)
Definition add_comment (model : Model) (lines : list string) (indent : bool)
    (type where_ : string) : Res Node * Model :=
  match comment_prefixes type with
  | None => (Raise (ValueError ("'" ++ type ++ "' is not a valid parameter for `type`")), model)
  | Some (is_multi, start_prefix, prefix) =>
      match comment_parts is_multi start_prefix prefix lines with
      | Raise e => (Raise e, model)
      | Ok parts => Model_add model (NText parts indent) where_
      end
  end.

(** [coord_sys = annotation.setdefault(layer, {}).setdefault("coordinateSystem", {})]
    and [coord_sys["extent"] = extent], written back from the inside out.
    An entry that is there and is no [dict] stops the chain. *)
Definition set_layer_extent (annotation : Dict Anno) (layer : string) (extent : Anno)
  : Res (Dict Anno) :=
  match setdefault_dict annotation layer with
  | Raise e => Raise e
  | Ok (layer_dict, annotation) =>
      match dict_get layer_dict "coordinateSystem" with
      | None =>
          Ok (dict_set annotation layer
                (ADict (dict_set layer_dict "coordinateSystem" (ADict [("extent", extent)]))))
      | Some (ADict coord_sys) =>
          Ok (dict_set annotation layer
                (ADict (dict_set layer_dict "coordinateSystem"
                          (ADict (dict_set coord_sys "extent" extent)))))
      | Some _ =>
          Raise (TypeError "object does not support item assignment")
      end
  end.

(** The model with its annotation replaced. *)
Definition set_annotation (m : Model) (a : Dict Anno) : Model :=
  mkModel (m_ident m) (m_description m) (m_within m) (m_flags m) a
          (components m) (public_section m) (protected_section m) (initial_equations m)
          (initial_algorithms m) (equations m) (algorithms m).

(** [set_extent]: when the second layer of ["both"] fails, the first one
    has been set. *)
Definition set_extent (m : Model) (extent : Anno) (layer : string) : Res unit * Model :=
  if String.eqb layer "both" then
    match set_layer_extent (m_annotation m) "Diagram" extent with
    | Raise e => (Raise e, m)
    | Ok a =>
        match set_layer_extent a "Icon" extent with
        | Raise e => (Raise e, set_annotation m a)
        | Ok a' => (Ok tt, set_annotation m a')
        end
    end
  else
    match set_layer_extent (m_annotation m) layer extent with
    | Raise e => (Raise e, m)
    | Ok a => (Ok tt, set_annotation m a)
    end.

(** The loop of [add_annotation] over [path]: the annotation as the loop
    leaves it, and the exception that stopped it, if any.  The message is a
    plain string in the source, braces included. *)
Fixpoint add_annotation_loop (annotation : Dict Anno) (path : list string) (replace : bool)
  : Res unit * Dict Anno :=
  match path with
  | [] => (Ok tt, annotation)
  | p :: path' =>
      if negb (dict_contains p annotation) then
        add_annotation_loop (dict_set annotation p (ADict [])) path' replace
      else if replace then
        add_annotation_loop (dict_set annotation p (ADict [])) path' replace
      else
        (Raise (ValueError "Not allowed to replace '{p}'"), annotation)
  end.

(** [add_annotation]; the source does not use its argument [anno]. *)
Definition add_annotation (model : Model) (path : list string) (anno : Dict Anno)
    (replace : bool) : Res unit * Model :=
  let '(r, annotation) := add_annotation_loop (m_annotation model) path replace in
  (r, set_annotation model annotation).

(** ** Dictionaries along a path ([util.py]) *)

(** [create_dict]: the dictionary at the end of [path], and [root] with the
    dictionaries that were created on the way.  The message of the error,
    which quotes the path, is left out. *)
Fixpoint create_dict (root : Dict Anno) (path : list string)
  : Res (Dict Anno) * Dict Anno :=
  match path with
  | [] => (Ok root, root)
  | p :: path' =>
      match dict_get root p with
      | None =>
          let '(r, node) := create_dict [] path' in
          (r, dict_set root p (ADict node))
      | Some (ADict node) =>
          let '(r, node') := create_dict node path' in
          (r, dict_set root p (ADict node'))
      | Some _ =>
          (Raise (ValueError "node already exists and is not a dictionary"), root)
      end
  end.

(** [get_dict]. *)
Fixpoint get_dict (dct : Dict Anno) (path : list string) : Res (option (Dict Anno)) :=
  match path with
  | [] => Ok (Some dct)
  | p :: path' =>
      match dict_get dct p with
      | None => Ok None
      | Some (ADict node) => get_dict node path'
      | Some _ => Raise (ValueError "node already exists and is not a dictionary")
      end
  end.

(** ** Drawing connections ([output.py]) *)

(** [a.get(key)] on an object taken from an annotation: [None] for a missing
    key and for a value that is [None]; only a [dict] has [get]. *)
Definition anno_get (a : Anno) (key : string) : Res (option Anno) :=
  match a with
  | ADict d =>
      match dict_get d key with
      | Some (AScalar SNone) => Ok None
      | found => Ok found
      end
  | _ => Raise (AttributeError "object has no attribute 'get'")
  end.

(** [get_component_origin]. *)
Definition get_component_origin (c : Component) : Res (option Anno) :=
  match anno_get (ADict (c_annotation c)) "Placement" with
  | Raise e => Raise e
  | Ok None => Ok None
  | Ok (Some placement) =>
      match anno_get placement "transformation" with
      | Raise e => Raise e
      | Ok None => Ok None
      | Ok (Some transformation) => anno_get transformation "origin"
      end
  end.

(** [s.rsplit(".", 1)[0]]: what is before the last dot, all of [s] when it
    has none. *)
Fixpoint before_last_dot (s : string) : option string :=
  match s with
  | EmptyString => None
  | String c s' =>
      match before_last_dot s' with
      | Some r => Some (String c r)
      | None => if Ascii.eqb c "." then Some "" else None
      end
  end.

Definition rsplit_head (s : string) : string :=
  match before_last_dot s with
  | Some r => r
  | None => s
  end.

(** The component a reference of a [Connect] names in [idents]. *)
Definition lookup_owner (r : Ref) (idents : Dict Component) : Res (option Component) :=
  match r with
  | RStr s => Ok (dict_get idents (rsplit_head s))
  | RComponent _ => Raise (AttributeError "'Component' object has no attribute 'rsplit'")
  end.

(** The line [draw_connect] draws. *)
Definition line_points : Anno := AListList [[SInt 0; SInt 0]; [SInt 10; SInt 10]].
Definition line_color : Anno := AList [SInt 0; SInt 0; SInt 255].

(** [draw_connect]: the [Connect] as the call leaves it. *)
Definition draw_connect (c : Connect) (idents : Dict Component) : Res Connect :=
  match lookup_owner (ref1 c) idents with
  | Raise e => Raise e
  | Ok None => Ok c
  | Ok (Some comp1) =>
      match get_component_origin comp1 with
      | Raise e => Raise e
      | Ok None => Ok c
      | Ok (Some _) =>
          match lookup_owner (ref2 c) idents with
          | Raise e => Raise e
          | Ok None => Ok c
          | Ok (Some comp2) =>
              match get_component_origin comp2 with
              | Raise e => Raise e
              | Ok None => Ok c
              | Ok (Some _) =>
                  let line :=
                    match dict_get (con_annotation c) "Line" with
                    | None => Ok []
                    | Some (ADict d) => Ok d
                    | Some _ => Raise (TypeError "object does not support item assignment")
                    end in
                  match line with
                  | Raise e =>  Raise e
                  | Ok line =>
                      let line := dict_set line "points" line_points in
                      let line := dict_set line "color" line_color in
                      Ok (mkConnect (ref1 c) (ref2 c) (con_description c)
                                    (dict_set (con_annotation c) "Line" (ADict line)))
                  end
              end
          end
      end
  end.

(** The components of a section, by their identifiers, added to [idents]. *)
Fixpoint collect_idents (section : list Node) (idents : Dict Component) : Dict Component :=
  match section with
  | [] => idents
  | NComponent c :: section' => collect_idents section' (dict_set idents (c_ident c) c)
  | _ :: section' => collect_idents section'  idents
  end.

(** The loop of [draw_connections] over the equations: the equations as the
    loop leaves them, and the exception that stopped it, if any. *)
Fixpoint draw_equations (eqs : list Node) (idents : Dict Component)
  : Res unit * list Node :=
  match eqs with
  | [] => (Ok tt, [])
  | NConnect c :: eqs' =>
      match draw_connect c idents with
      | Raise e => (Raise e, NConnect c :: eqs')
      | Ok c' =>
          let '(r, eqs'') := draw_equations eqs' idents in
          (r, NConnect c' :: eqs'')
      end
  | e :: eqs' =>
      let '(r, eqs'') := draw_equations eqs' idents in
      (r, e :: eqs'')
  end.

(** [draw_connections]. *)
Definition draw_connections (m : Model) : Res unit * Model :=
  let idents := collect_idents (protected_section m) (collect_idents (public_section m) []) in
  let '(r, eqs) := draw_equations (equations m) idents in
  (r, set_equations m eqs).

(** * The vocabulary of the properties *)

(** [runs i ind m r t i']: started at indent [i] with the indentation unit
    [ind], on whatever stream and after whatever was written before, [m]
    ends with [r], has appended [t] to the stream of the printer and nothing
    to any other, and leaves the indent at [i']. *)
Definition runs {A} (i : Z) (ind : string) (m : M A) (r : Res A) (t : string) (i' : Z) : Prop :=
  forall p w, indent p = i -> indentation p = ind ->
    exists p', m (p, w) = (r, (p', stream_append (stream p) t w))
               /\ stream p' = stream p /\ indentation p' = ind /\ indent p' = i'.

(** [m] succeeds, writes [t] and leaves the indent where it was. *)
Definition emits_at (i : Z) (ind : string) (m : M unit) (t : string) : Prop :=
  runs i ind m (Ok tt) t i.

(** [framed d m]: the result of [m], the text it writes and the indent it
    leaves depend on the indent and the indentation unit alone, and a
    successful run moves the indent by [d]. *)
Definition framed {A} (d : Z) (m : M A) : Prop :=
  forall i ind, exists r t i', runs i ind m r t i' /\ (is_ok r = true -> i' = i + d).

(** [a | b | ...]: the members of [l] combined from the left. *)
Definition combine (l : list Flags) : Flags := fold_left flag_or l 0.

(** The members of a flag enumeration with four names. *)
Definition members : list Flags := [1; 2; 4; 8].

(** The six sections of a model. *)
Inductive Section_ : Type :=
| Public | Protected | InitialEquation | InitialAlgorithm | EquationSection | AlgorithmSection.

(** The section a name stands for in [Model.add]. *)
Definition section_named (name : string) : option Section_ :=
  if String.eqb name "public" then Some Public
  else if String.eqb name "protected" then Some Protected
  else if String.eqb name "initial equation" then Some InitialEquation
  else if String.eqb name "initial algorithm" then Some InitialAlgorithm
  else if String.eqb name "equation" then Some EquationSection
  else if String.eqb name "algorithm" then Some AlgorithmSection
  else None.

Definition get_section (sec : Section_) (m : Model) : list Node :=
  match sec with
  | Public => public_section m
  | Protected => protected_section m
  | InitialEquation => initial_equations m
  | InitialAlgorithm => initial_algorithms m
  | EquationSection => equations m
  | AlgorithmSection => algorithms m
  end.

Definition Section_eqb (a b : Section_) : bool :=
  match a, b with
  | Public, Public | Protected, Protected | InitialEquation, InitialEquation
  | InitialAlgorithm, InitialAlgorithm | EquationSection, EquationSection
  | AlgorithmSection, AlgorithmSection => true
  | _, _ => false
  end.

(** What of a model is not a section. *)
Definition header (m : Model) :=
  (m_ident m, m_description m, m_within m, m_flags m, m_annotation m, components m).

(** The nodes [visit] reaches from the sections of a model. *)
Definition sections_of (m : Model) : list (list Node) :=
  [public_section m; protected_section m; initial_equations m;
   initial_algorithms m; equations m; algorithms m].

(** The text of a dictionary with the texts [texts] of its entries, as the
    claim about [write_key_value] words it: nothing, one line for one or two
    entries, and from three entries on a line for each entry, one level
    deeper, with a comma after every entry but the last and the closing
    parenthesis right after the last. *)
Definition dict_layout (i : Z) (ind : string) (texts : list string) : string :=
  match texts with
  | [] => ""
  | [t] => "(" ++ t ++ ")"
  | [t0; t1] => "(" ++ t0 ++ ", " ++ t1 ++ ")"
  | _ => "(" ++ nl ++ join ("," ++ nl) (map (fun t => str_mul (i + 1) ind ++ t) texts) ++ ")"
  end.

(** A format function for the examples: every non-empty specification is
    refused (the examples use none). *)
Definition no_format_spec : Scalar -> string -> Res string :=
  fun _ _ => Raise (ValueError "Invalid format specifier").

(** The flags of a model and of a component as text, in the order of the
    claim, for the members [l] that were combined. *)
Definition model_flags_text (l : list Flags) : string :=
  (if existsb (Z.eqb ModelFlags.Final) l then "final " else "") ++
  (if existsb (Z.eqb ModelFlags.Encapsulated) l then "encapsulated " else "") ++
  (if existsb (Z.eqb ModelFlags.Partial) l then "partial " else "") ++
  (if existsb (Z.eqb ModelFlags.Replaceable) l then "replaceable " else "").

Definition component_flags_text (l : list Flags) : string :=
  (if existsb (Z.eqb ComponentFlags.Final) l then "final " else "") ++
  (if existsb (Z.eqb ComponentFlags.Inner) l then "inner " else "") ++
  (if existsb (Z.eqb ComponentFlags.Outer) l then "outer " else "").

(** A component and a model with their flags replaced. *)
Definition with_flags (c : Component) (flags : option Flags) : Component :=
  mkComponent (c_type c) (c_ident c) (c_value c) (c_init c) flags
              (c_variability c) (c_causality c) (c_flux c) (c_subscripts c)
              (c_condition c) (c_constraint c) (c_description c) (c_annotation c).

Definition with_model_flags (m : Model) (flags : option Flags) : Model :=
  mkModel (m_ident m) (m_description m) (m_within m) flags (m_annotation m)
          (components m) (public_section m) (protected_section m) (initial_equations m)
          (initial_algorithms m) (equations m) (algorithms m).

(** A node can hold an [Assign], which [visit_Assign] hands to the built-in
    [print]: a render then writes to its stream and to the standard output
    in turn.  A log keeps the pieces in the order they were written, each
    with its origin: [true] for the stream of the printer, [false] for the
    built-in [print]. *)
Definition Log : Type := list (bool * string).

(** The log written out, when the stream of the printer is [st]. *)
Definition flush (st : TextIO) (log : Log) (w : World) : World :=
  fold_left (fun (w : World) (e : bool * string) =>
               stream_append (if fst e then st else Stdout) (snd e) w) log w.

(** What went to the stream of the printer, what the built-in [print]
    wrote, and all of it in the order it was written. *)
Fixpoint written (log : Log) : string :=
  match log with
  | [] => ""
  | (true, s) :: log' => s ++ written log'
  | (false, _) :: log' => written log'
  end.

Fixpoint printed (log : Log) : string :=
  match log with
  | [] => ""
  | (true, _) :: log' => printed log'
  | (false, s) :: log' => s ++ printed log'
  end.

Fixpoint everything (log : Log) : string :=
  match log with
  | [] => ""
  | (_, s) :: log' => s ++ everything log'
  end.

(** [runs] with a log in place of the text: [m] writes the pieces of [log],
    each where its origin says. *)
Definition runs_log {A} (i : Z) (ind : string) (m : M A) (r : Res A) (log : Log) (i' : Z)
  : Prop :=
  forall p w, indent p = i -> indentation p = ind ->
    exists p', m (p, w) = (r, (p', flush (stream p) log w))
               /\ stream p' = stream p /\ indentation p' = ind /\ indent p' = i'.

(** The result of [m] and the log of what it writes depend on the indent and
    the indentation unit alone. *)
Definition lframed {A} (m : M A) : Prop :=
  forall i ind, exists r log i', runs_log i ind m r log i'.

(** What [PrettyPrinter.__init__] leaves on the standard output. *)
Definition warning_text (draw_connections : bool) : string :=
  if draw_connections
  then "WARNING: Does not support drawing connections yet" ++ nl
  else "".

Section HeadsAndLast.
Context {A : Type} (head_ok last_ok : A -> bool).

(** [head_ok] on every element but the last and [last_ok] on the last. *)
Fixpoint heads_and_last (xs : list A) : bool :=
  match xs with
  | [] => true
  | [x] => last_ok x
  | x :: xs' => head_ok x && heads_and_last xs'
  end.
End HeadsAndLast.

(** The annotations [write_annotation] can write: in a list of
    dictionaries, every dictionary but the last has exactly one entry and the
    last has at least one, of which only the first is looked at. *)
Fixpoint writable_anno (anno : Anno) : bool :=
  match anno with
  | ADict items => forallb (fun kv => writable_anno (snd kv)) items
  | ADictList elems =>
      heads_and_last
        (fun e => match e with [(_, value)] => writable_anno value | _ => false end)
        (fun e => match e with (_, value) :: _ => writable_anno value | [] => false end)
        elems
  | AListList _ | AList _ | AScalar _ => true
  end.

(** The values [write_key_value] can write: no object of an unknown type,
    and for an [Assign] a value that can be formatted and an annotation that
    can be written. *)
Fixpoint writable_value (format_spec : Scalar -> string -> Res string) (value : Value)
  : bool :=
  match value with
  | VScalar _ | VTuple _ => true
  | VDict items => forallb (fun kv => writable_value format_spec (snd kv)) items
  | VAssign a =>
      forallb (fun kv => writable_value format_spec (snd kv)) (a_init a)
      && match a_value a with
         | SNone => true
         | _ => is_ok (Assign_str format_spec a)
         end
      && forallb (fun kv => writable_anno (snd kv)) (a_annotation a)
  | VOther _ => false
  end.

Definition writable_annotation (d : Dict Anno) : bool :=
  forallb (fun kv => writable_anno (snd kv)) d.

(** The nodes [visit] can render. *)
Fixpoint renderable (format_spec : Scalar -> string -> Res string) (node : Node) : bool :=
  match node with
  | NAlgorithm a =>
      match alg_annotation a with
      | Some d => writable_annotation d
      | None => true
      end
  | NAssign a => is_ok (Assign_str format_spec a)
  | NComponent c =>
      forallb (fun kv => writable_value format_spec (snd kv)) (c_init c)
      && match c_constraint c with Some _ => false | None => true end
      && writable_annotation (c_annotation c)
  | NConnect c => writable_annotation (con_annotation c)
  | NEquation e => writable_annotation (eq_annotation e)
  | NIfEquation test body elseif orelse =>
      renderable format_spec test
      && forallb (renderable format_spec) body
      && forallb (fun b => renderable format_spec (fst b)
                           && forallb (renderable format_spec) (snd b)) elseif
      && match orelse with Some _ => false | None => true end
  | NModel m =>
      forallb (renderable format_spec) (public_section m)
      && forallb (renderable format_spec) (protected_section m)
      && forallb (renderable format_spec) (initial_equations m)
      && forallb (renderable format_spec) (initial_algorithms m)
      && forallb (renderable format_spec) (equations m)
      && forallb (renderable format_spec) (algorithms m)
      && writable_annotation (m_annotation m)
  | NOther _ => false
  | _ => true
  end.

(** [m] succeeds from every state, or from none. *)
Definition succeeds_iff {A} (b : bool) (m : M A) : Prop :=
  forall s, is_ok (fst (m s)) = b.

(** [tracks d m]: whatever the state, [m] writes to the stream of the
    printer and through the built-in [print] only, keeps the stream, the
    indentation unit and the width of the printer, adds to [charcount] the
    number of characters it wrote to the stream, and moves the indent by [d]
    when it succeeds. *)
Definition tracks {A} (d : Z) (m : M A) : Prop :=
  forall p w, exists r p' log,
    m (p, w) = (r, (p', flush (stream p) log w))
    /\ stream p' = stream p /\ indentation p' = indentation p /\ width p' = width p
    /\ charcount p' = charcount p + Z.of_nat (String.length (written log))
    /\ (is_ok r = true -> indent p' = indent p + d).

(** The text of a dictionary in an annotation with the entries [entries]
    (each a name followed by what is written for its value): nothing for no
    entry, one line for a single entry, and from two entries on the first
    entry after the opening parenthesis and every other entry on a line of
    its own, one indent deeper, with a comma after every entry but the last. *)
Definition anno_layout (i : Z) (ind : string) (entries : list string) : string :=
  match entries with
  | [] => ""
  | [e] => "(" ++ e ++ ")"
  | e :: rest =>
      "(" ++ e ++ "," ++ nl
          ++ join ("," ++ nl) (map (fun e => str_mul (i + 1) ind ++ e) rest) ++ ")"
  end.

(** The names of the entries of a dictionary, each followed by its text. *)
Definition entry_texts {V} (items : Dict V) (texts : list string) : list string :=
  map (fun kt => fst (fst kt) ++ snd kt) (List.combine items texts).

(** A list or tuple of scalars between braces. *)
Definition braced (e : list Scalar) : string := "{" ++ join "," (map py_str e) ++ "}".

(** The parts of the text of a model: the [within] line, the flags, a
    section with its keyword line (nothing for an empty section), and the
    annotation with its semicolon (nothing for an empty annotation). *)
Definition within_text (i : Z) (ind : string) (w : option Within) : string :=
  match w with
  | None => ""
  | Some w =>
      str_mul i ind
      ++ match within_name w with
         | None => "within;"
         | Some name => "within " ++ name ++ ";"
         end
      ++ nl
  end.

Definition model_flags_written (flags : option Flags) : string :=
  match flags with
  | None => ""
  | Some f =>
      (if flag_in ModelFlags.Final f then "final " else "")
      ++ (if flag_in ModelFlags.Encapsulated f then "encapsulated " else "")
      ++ (if flag_in ModelFlags.Partial f then "partial " else "")
      ++ (if flag_in ModelFlags.Replaceable f then "replaceable " else "")
  end.

Definition section_text (i : Z) (ind keyword : string) (texts : list string) : string :=
  match texts with
  | [] => ""
  | _ => str_mul i ind ++ keyword ++ nl ++ String.concat "" texts
  end.

Definition model_annotation_text (annotation : Dict Anno) (text : string) : string :=
  if truthy annotation then "annotation " ++ text ++ ";" ++ nl else "".

(** The text of a model whose nodes are written as the texts given for its
    six sections and whose annotation is written as [anno]. *)
Definition model_layout (i : Z) (ind : string) (m : Model)
    (pub prot ieq ialg eqs algs : list string) (anno : string) : string :=
  within_text i ind (m_within m)
  ++ model_flags_written (m_flags m)
  ++ str_mul i ind ++ "model " ++ m_ident m
  ++ match m_description m with Some d => quoted d | None => "" end ++ nl
  ++ String.concat "" pub
  ++ section_text i ind "protected" prot
  ++ section_text i ind "initial equation" ieq
  ++ section_text i ind "initial algorithm" ialg
  ++ section_text i ind "equation" eqs
  ++ section_text i ind "algorithm" algs
  ++ model_annotation_text (m_annotation m) anno
  ++ str_mul i ind ++ "end " ++ m_ident m ++ ";" ++ nl.

(** The registry of a model agrees with its sections: no identifier is
    registered twice, and every registered identifier stands for a component
    that bears it and sits in the public or the protected section. *)
Definition registry_consistent (m : Model) : Prop :=
  NoDup (map fst (components m))
  /\ forall ident c,
       dict_get (components m) ident = Some c ->
       c_ident c = ident
       /\ In (NComponent c) (public_section m ++ protected_section m).

(** The flag a word of a [flags] string stands for. *)
Definition flag_of_word (word : string) : Flags :=
  match dict_get str2ComponentFlags word with
  | Some f => f
  | None => 0
  end.

(** The lines of a comment, one for each line given: the first with the
    prefix that opens the comment, the others with the prefix that continues
    it, and the last with what closes it. *)
Definition comment_line_ok (start_prefix prefix : string) (line part : string) : Prop :=
  exists pre suf,
    part = pre ++ line ++ suf
    /\ (pre = start_prefix \/ pre = prefix)
    /\ (suf = "" \/ suf = " */").

(** The dictionary an entry of an annotation holds, the empty one when the
    entry is missing or holds something else. *)
Definition sub_dict (d : Dict Anno) (key : string) : Dict Anno :=
  match dict_get d key with
  | Some (ADict sub) => sub
  | _ => []
  end.

(** The components [draw_connections] collects from a model. *)
Definition model_idents (m : Model) : Dict Component :=
  collect_idents (protected_section m) (collect_idents (public_section m) []).

(** A reference names a component of [idents] that has an origin. *)
Definition placed (idents : Dict Component) (r : Ref) : bool :=
  match lookup_owner r idents with
  | Ok (Some comp) =>
      match get_component_origin comp with
      | Ok (Some _) => true
      | _ => false
      end
  | _ => false
  end.

(** The annotation of a connection holds the drawn line. *)
Definition has_line (c : Connect) : Prop :=
  exists line,
    dict_get (con_annotation c) "Line" = Some (ADict line)
    /\ dict_get line "points" = Some line_points
    /\ dict_get line "color" = Some line_color.

(** The connection [c'] is [c] with the line drawn: its entry [Line] holds
    the points and the colour and every other entry it held before, and
    nothing else of the connection differs. *)
Definition drawn (c c' : Connect) : Prop :=
  ref1 c' = ref1 c /\ ref2 c' = ref2 c /\ con_description c' = con_description c
  /\ has_line c'
  /\ (forall key,
         dict_get (sub_dict (con_annotation c') "Line") key
         = if String.eqb "color" key then Some line_color
           else if String.eqb "points" key then Some line_points
           else dict_get (sub_dict (con_annotation c) "Line") key)
  /\ forall key, if String.eqb "Line" key then True
                 else dict_get (con_annotation c') key = dict_get (con_annotation c) key.

(** A node of the equations before and after [draw_connections]: the same
    node, or a connection between two placed components with its line
    drawn. *)
Definition drawn_from (idents : Dict Component) (n n' : Node) : Prop :=
  n' = n
  \/ exists c c',
       n = NConnect c /\ n' = NConnect c'
       /\ placed idents (ref1 c) = true /\ placed idents (ref2 c) = true
       /\ drawn c c'.

(** A connection between two placed components holds its line. *)
Definition line_if_placed (idents : Dict Component) (n : Node) : Prop :=
  match n with
  | NConnect c =>
      if placed idents (ref1 c) && placed idents (ref2 c) then has_line c else True
  | _ => True
  end.

(** The extent [set_placement] stores for a size and a flip. *)
Definition placement_extent (flip : option string) (size : Z) : Anno :=
  AListList
    match flip with
    | Some "horiz" => [[SInt size; SInt (- size)]; [SInt (- size); SInt size]]
    | Some "vert" => [[SInt (- size); SInt size]; [SInt size; SInt (- size)]]
    | _ => [[SInt (- size); SInt (- size)]; [SInt size; SInt size]]
    end.

(** The rotation [set_placement] stores: none for [None]. *)
Definition stored_rotation (rotation : option Scalar) : option Scalar :=
  match rotation with
  | None | Some SNone => None
  | Some r => Some r
  end.

(** The component with its annotation replaced. *)
Definition with_annotation (c : Component) (annotation : Dict Anno) : Component :=
  mkComponent (c_type c) (c_ident c) (c_value c) (c_init c) (c_flags c)
              (c_variability c) (c_causality c) (c_flux c) (c_subscripts c)
              (c_condition c) (c_constraint c) (c_description c) annotation.

(** An entry of an annotation that is there and is no dictionary. *)
Definition blocked (d : Dict Anno) (key : string) : bool :=
  match dict_get d key with
  | Some (ADict _) | None => false
  | Some _ => true
  end.

(** The extent stored for a layer of an annotation, if there is one. *)
Definition extent_of (annotation : Dict Anno) (layer : string) : option Anno :=
  match get_dict annotation [layer; "coordinateSystem"] with
  | Ok (Some coord_sys) => dict_get coord_sys "extent"
  | _ => None
  end.

(** The annotation [a'] is [a] with the extent set for a layer: the layer
    and its [coordinateSystem] keep every other entry they held. *)
Definition extent_set (a a' : Dict Anno) (extent : Anno) (layer : string) : Prop :=
  extent_of a' layer = Some extent
  /\ (forall key, if String.eqb "coordinateSystem" key then True
                  else dict_get (sub_dict a' layer) key = dict_get (sub_dict a layer) key)
  /\ forall key,
       dict_get (sub_dict (sub_dict a' layer) "coordinateSystem") key
       = if String.eqb "extent" key then Some extent
         else dict_get (sub_dict (sub_dict a layer) "coordinateSystem") key.

(** What stops [set_extent] at a layer, and the exception it raises then:
    the layer, or [coordinateSystem] under it, is there and is no
    dictionary. *)
Definition extent_blocked (a : Dict Anno) (layer : string) (e : PyError) : Prop :=
  (blocked a layer = true /\ exists msg, e = AttributeError msg)
  \/ (blocked a layer = false
      /\ blocked (sub_dict a layer) "coordinateSystem" = true
      /\ exists msg, e = TypeError msg).

(** The layers [set_extent] sets for its argument [layer]. *)
Definition layers_of (layer : string) : list string :=
  if String.eqb layer "both" then ["Diagram"; "Icon"] else [layer].

(** The nodes a list of references that all stand for one holds. *)
Fixpoint all_some {A} (l : list (option A)) : option (list A) :=
  match l with
  | [] => Some []
  | Some a :: l' =>
      match all_some l' with
      | Some r => Some (a :: r)
      | None => None
      end
  | None :: _ => None
  end.

(** The tree a reference stands for in a store: the object it refers to,
    with the trees of the references it holds in their place.  There is none
    within [fuel] levels when the objects refer to each other in a circle. *)
Fixpoint tree_at (fuel : nat) (h : Store) (node : Loc) : option Node :=
  match fuel with
  | O => None
  | S fuel' =>
      let trees ls := all_some (map (tree_at fuel' h) ls) in
      match h node with
      | OAlgorithm a => Some (NAlgorithm a)
      | OAssign a => Some (NAssign a)
      | OComponent c => Some (NComponent c)
      | OConnect c => Some (NConnect c)
      | OEquation e => Some (NEquation e)
      | OExtends name => Some (NExtends name)
      | OExpression value => Some (NExpression value)
      | OIfEquation test body elseif orelse =>
          match tree_at fuel' h test, trees body,
                all_some
                  (map (fun b : Loc * list Loc =>
                          match tree_at fuel' h (fst b), trees (snd b) with
                          | Some expr, Some eqs => Some (expr, eqs)
                          | _, _ => None
                          end) elseif),
                match orelse with
                | Some ls => option_map Some (trees ls)
                | None => Some None
                end with
          | Some test', Some body', Some elseif', Some orelse' =>
              Some (NIfEquation test' body' elseif' orelse')
          | _, _, _, _ => None
          end
      | OModel m =>
          match trees (public_section m), trees (protected_section m),
                trees (initial_equations m), trees (initial_algorithms m),
                trees (equations m), trees (algorithms m) with
          | Some pub, Some prot, Some ieq, Some ialg, Some eqs, Some algs =>
              Some (NModel (mkModel (m_ident m) (m_description m) (m_within m) (m_flags m)
                                    (m_annotation m) (components m)
                                    pub prot ieq ialg eqs algs))
          | _, _, _, _, _, _ => None
          end
      | OMultiImport path names => Some (NMultiImport path names)
      | ONamedImport short long => Some (NNamedImport short long)
      | OQualifiedImport name => Some (NQualifiedImport name)
      | OStr s => Some (NStr s)
      | OText lines with_indent => Some (NText lines with_indent)
      | OWithin w => Some (NWithin w)
      | OOther type_name => Some (NOther type_name)
      end
  end.

(** On the store [h], the method [mh] does to the printer and its streams
    what [m] does, and leaves the store as it is. *)
Definition sim {A} (h : Store) (mh : MH A) (m : M A) : Prop :=
  forall s, mh (s, h) = (fst (m s), (snd (m s), h)).

(** [mh] leaves every store as it is. *)
Definition keeps_store {A} (mh : MH A) : Prop :=
  forall s h, snd (snd (mh (s, h))) = h.

(** * Properties *)

(** ** Strings and worlds *)

Lemma append_nil_r (s : string) : s ++ "" = s.
Proof. induction s as [|c s IH]; simpl; [reflexivity | now rewrite IH]. Qed.

Lemma append_assoc (a b c : string) : (a ++ b) ++ c = a ++ (b ++ c).
Proof. induction a as [|x a IH]; simpl; [reflexivity | now rewrite IH]. Qed.

Lemma append_inv_head (a b c : string) : a ++ b = a ++ c -> b = c.
Proof. induction a as [|x a IH]; simpl; intros H; [exact H | injection H; auto]. Qed.

Lemma stream_append_nil (st : TextIO) (w : World) : stream_append st "" w = w.
Proof. destruct st, w; unfold stream_append; simpl; now rewrite append_nil_r. Qed.

Lemma stream_append_app (st : TextIO) (a b : string) (w : World) :
  stream_append st b (stream_append st a w) = stream_append st (a ++ b) w.
Proof. destruct st, w; unfold stream_append; simpl; now rewrite append_assoc. Qed.

(** ** What a method of the printer writes *)

Lemma runs_ret {A} i ind (a : A) : runs i ind (ret a) (Ok a) "" i.
Proof.
  intros p w Hi Hind. exists p. unfold ret. rewrite stream_append_nil. auto.
Qed.

Lemma runs_raise {A} i ind e : runs i ind (@raise A e) (Raise e) "" i.
Proof.
  intros p w Hi Hind. exists p. unfold raise. rewrite stream_append_nil. auto.
Qed.

Lemma runs_lift {A} i ind (r : Res A) : runs i ind (lift r) r "" i.
Proof.
  intros p w Hi Hind. exists p. unfold lift. rewrite stream_append_nil. auto.
Qed.

Lemma runs_bind_ok {A B} i ind (m : M A) (f : A -> M B) a t1 i1 r t2 i2 :
  runs i ind m (Ok a) t1 i1 ->
  runs i1 ind (f a) r t2 i2 ->
  runs i ind (bind m f) r (t1 ++ t2) i2.
Proof.
  intros Hm Hf p w Hi Hind.
  destruct (Hm p w Hi Hind) as (p1 & E1 & Hs1 & Hd1 & Hi1).
  destruct (Hf p1 (stream_append (stream p) t1 w) Hi1 Hd1) as (p2 & E2 & Hs2 & Hd2 & Hi2).
  exists p2. unfold bind. rewrite E1, E2, Hs1, stream_append_app.
  repeat split; congruence.
Qed.

Lemma runs_bind_raise {A B} i ind (m : M A) (f : A -> M B) e t i1 :
  runs i ind m (Raise e) t i1 ->
  runs i ind (bind m f) (Raise e) t i1.
Proof.
  intros Hm p w Hi Hind.
  destruct (Hm p w Hi Hind) as (p1 & E1 & Hs1 & Hd1 & Hi1).
  exists p1. unfold bind. rewrite E1. auto.
Qed.

Lemma runs_add_indent i ind d : runs i ind (add_indent d) (Ok tt) "" (i + d).
Proof.
  intros p w Hi Hind. eexists. unfold add_indent. rewrite stream_append_nil.
  split; [reflexivity|]. simpl. repeat split; congruence.
Qed.

Lemma runs__write i ind s (b : bool) :
  runs i ind (_write s b)
       (Ok (Z.of_nat (String.length ((if b then str_mul i ind else "") ++ s))))
       ((if b then str_mul i ind else "") ++ s) i.
Proof.
  intros p w Hi Hind.
  unfold _write, bind, indent_prefix, stream_write, add_charcount, ret.
  destruct b; simpl; rewrite ?Hi, ?Hind; eexists; (split; [reflexivity|]); simpl; auto.
Qed.

Lemma runs_set_curpos i ind f : runs i ind (set_curpos f) (Ok tt) "" i.
Proof.
  intros p w Hi Hind. eexists. unfold set_curpos. rewrite stream_append_nil.
  split; [reflexivity|]. simpl. auto.
Qed.

Lemma runs_write i ind s (b : bool) :
  runs i ind (write s b) (Ok tt) ((if b then str_mul i ind else "") ++ s) i.
Proof.
  unfold write.
  rewrite <- (append_nil_r ((if b then str_mul i ind else "") ++ s)).
  eapply runs_bind_ok; [apply runs__write | apply runs_set_curpos].
Qed.

Lemma runs_print i ind s (b : bool) :
  runs i ind (print s b) (Ok tt) ((if b then str_mul i ind else "") ++ s ++ nl) i.
Proof.
  unfold print.
  rewrite <- (append_nil_r ((if b then str_mul i ind else "") ++ s ++ nl)).
  eapply runs_bind_ok; [apply runs__write | apply runs_set_curpos].
Qed.

(** Two runs from the same indent agree. *)
Lemma runs_deterministic {A} i ind (m : M A) r1 t1 i1 r2 t2 i2 :
  runs i ind m r1 t1 i1 -> runs i ind m r2 t2 i2 -> r1 = r2 /\ t1 = t2 /\ i1 = i2.
Proof.
  intros H1 H2.
  pose (p := mkPrettyPrinter Sink ind 0 0 0 i).
  destruct (H1 p (mkWorld "" "") eq_refl eq_refl) as (p1 & E1 & _ & _ & Hi1).
  destruct (H2 p (mkWorld "" "") eq_refl eq_refl) as (p2 & E2 & _ & _ & Hi2).
  rewrite E1 in E2. injection E2 as Er Ep Et. simpl in Et.
  subst. auto.
Qed.

(** ** The tests of the repository ([test_pprint.py]) *)

Example test_default_model :
  fst (pprint no_format_spec (NModel (Model_init "Unnamed" None None None None))
              None false "  " 80 0 (mkWorld "" ""))
  = Ok (Some ("model Unnamed" ++ nl ++ "end Unnamed;" ++ nl)).
Proof. reflexivity. Qed.

Example test_model :
  fst (pprint no_format_spec
         (NModel (Model_init "TestModel" (Some "Test") (Some "")
                    (Some (combine [ModelFlags.Final; ModelFlags.Partial;
                                    ModelFlags.Replaceable; ModelFlags.Encapsulated]))
                    (Some [("test", AScalar (SBool true))])))
         None false "  " 80 0 (mkWorld "" ""))
  = Ok (Some ("within;" ++ nl
              ++ "final encapsulated partial replaceable model TestModel "
              ++ dquote ++ "Test" ++ dquote ++ nl
              ++ "annotation (test=true);" ++ nl
              ++ "end TestModel;" ++ nl)).
Proof. reflexivity. Qed.

Example test_component :
  fst (pprint no_format_spec
         (NComponent
            (mkComponent "Real" "x" (SStr "[1, 2, 3, 4]") [("min", VScalar (SInt 0))]
               (Some (combine [ComponentFlags.Final; ComponentFlags.Inner;
                               ComponentFlags.Outer; ComponentFlags.Replaceable]))
               (Some Parameter_) (Some Input) (Some Flow) [SInt 4] (Some "True") None
               (Some "") [("test", AScalar (SBool true))]))
         None false "  " 80 0 (mkWorld "" ""))
  = Ok (Some ("final inner outer flow parameter input Real[4] x(min=0) = [1, 2, 3, 4] if True "
              ++ dquote ++ dquote ++ " annotation (test=true);" ++ nl)).
Proof. reflexivity. Qed.

Example test_small_component :
  let X init := NComponent (mkComponent "X" "x" SNone init None None None None []
                                        None None None []) in
  let render o := fst (pprint no_format_spec o None false "  " 80 0 (mkWorld "" "")) in
  render (NComponent (mkComponent "X" "x" (SInt 1) [] None None None None []
                                  None None None []))
  = Ok (Some ("X x=1;" ++ nl))
  /\ render (X [("y", VScalar (SInt 1))]) = Ok (Some ("X x(y=1);" ++ nl))
  /\ render (X [("y", VScalar (SInt 1)); ("z", VScalar (SInt 2))])
     = Ok (Some ("X x(y=1, z=2);" ++ nl))
  /\ render (X [("y", VScalar (SInt 1)); ("z", VScalar (SInt 2)); ("w", VScalar (SInt 3))])
     = Ok (Some ("X x(" ++ nl ++ "  y=1," ++ nl ++ "  z=2," ++ nl ++ "  w=3);" ++ nl)).
Proof. repeat split; reflexivity. Qed.

(** An [Assign] handed to [pprint] goes to the built-in [print]: nothing is
    returned for it, and nothing reaches a stream other than the standard
    output. *)
Example pprint_Assign :
  let a := NAssign (mkAssign (SInt 5) [] "" None None [] None) in
  pprint no_format_spec a None false "  " 80 0 (mkWorld "" "")
  = (Ok (Some ""), mkWorld ("5" ++ nl) "")
  /\ pprint no_format_spec a (Some Sink) false "  " 80 0 (mkWorld "" "")
     = (Ok None, mkWorld ("5" ++ nl) "")
  /\ pprint no_format_spec a (Some Stdout) false "  " 80 0 (mkWorld "" "")
     = (Ok None, mkWorld ("5" ++ nl) "").
Proof. repeat split; reflexivity. Qed.

(** A node without a [visit_] method, and a component with a constraint. *)
Example pprint_raises :
  fst (pprint no_format_spec (NOther "int") None false "  " 80 0 (mkWorld "" ""))
  = Raise (ValueError "no visit function for type <class 'int'>")
  /\ pprint no_format_spec
       (NComponent (mkComponent "X" "x" SNone [] None None None None [] None (Some tt)
                                None []))
       (Some Sink) false "  " 80 0 (mkWorld "" "")
     = (Raise (NotImplementedError "constraints are not yet implemented"),
        mkWorld "" "X x").
Proof. split; reflexivity. Qed.

(** ** Flags *)

Lemma flag_in_pow2 (k : Z) (f : Flags) : 0 <= k -> flag_in (2 ^ k) f = Z.testbit f k.
Proof.
  intros Hk. unfold flag_in. destruct (Z.testbit f k) eqn:E.
  - apply Z.eqb_eq, Z.bits_inj'. intros n Hn.
    rewrite Z.land_spec, Z.pow2_bits_eqb by lia.
    destruct (Z.eqb_spec k n); subst; simpl; auto using andb_true_r.
  - apply Z.eqb_neq. intros H.
    assert (Hb : Z.testbit (Z.land (2 ^ k) f) k = Z.testbit (2 ^ k) k) by now rewrite H.
    rewrite Z.land_spec, Z.pow2_bits_true, E in Hb by lia. discriminate.
Qed.

Lemma testbit_fold_flag_or (l : list Flags) (acc : Flags) (n : Z) :
  Z.testbit (fold_left flag_or l acc) n
  = Z.testbit acc n || existsb (fun a => Z.testbit a n) l.
Proof.
  revert acc. induction l as [|a l IH]; intros acc; simpl.
  - now rewrite orb_false_r.
  - rewrite IH. unfold flag_or. rewrite Z.lor_spec. now rewrite orb_assoc.
Qed.

Lemma testbit_combine (l : list Flags) (n : Z) :
  Z.testbit (combine l) n = existsb (fun a => Z.testbit a n) l.
Proof. unfold combine. rewrite testbit_fold_flag_or. now rewrite Z.bits_0. Qed.

Lemma existsb_Permutation {A} (f : A -> bool) (l l' : list A) :
  Permutation l l' -> existsb f l = existsb f l'.
Proof.
  induction 1 as [|x l l' _ IH|x y l|l l' l'' _ IH1 _ IH2]; simpl.
  - reflexivity.
  - now rewrite IH.
  - destruct (f x), (f y); reflexivity.
  - now rewrite IH1.
Qed.

(** The order in which flags are combined does not matter. *)
Lemma combine_Permutation (l l' : list Flags) : Permutation l l' -> combine l = combine l'.
Proof.
  intros H. apply Z.bits_inj. intros n.
  rewrite !testbit_combine. now apply existsb_Permutation.
Qed.

(** A member is in a combination exactly when it is one of the members
    combined. *)
Lemma flag_in_combine (a : Flags) (l : list Flags) :
  In a members -> Forall (fun b => In b members) l ->
  flag_in a (combine l) = existsb (Z.eqb a) l.
Proof.
  intros Ha Hl.
  assert (Hk : exists k, 0 <= k /\ a = 2 ^ k
                         /\ forall b, In b members -> Z.testbit b k = (a =? b)).
  { simpl in Ha.
    destruct Ha as [<-|[<-|[<-|[<-|[]]]]];
      [exists 0 | exists 1 | exists 2 | exists 3];
      (split; [lia|]); (split; [reflexivity|]);
      intros b Hb; simpl in Hb;
      destruct Hb as [<-|[<-|[<-|[<-|[]]]]]; reflexivity. }
  destruct Hk as (k & Hk & -> & Hbits).
  rewrite flag_in_pow2, testbit_combine by exact Hk.
  induction Hl as [|b l Hb _ IH]; simpl; [reflexivity|].
  now rewrite IH, Hbits.
Qed.

(** ** [Assign.__init__] *)

(** C9.  An [Assign] with a type name (the [type] keyword, used when
    redeclaring) cannot be constructed without flags or with flags, combined
    from any members in any order, that do not contain [Redeclare]: the
    constructor raises an [AssertionError].  With [Redeclare] among the flags
    combined, it returns the [Assign] with all its arguments stored. *)
Theorem Assign_init_type_needs_redeclare :
  forall value init fmt description annotation type (l : list Flags),
    Forall (fun b => In b members) l ->
    Assign_init value init fmt None description annotation (Some type)
      = Raise (AssertionError "")
    /\ Assign_init value init fmt (Some (combine l)) description annotation (Some type)
       = if existsb (Z.eqb AssignFlags.Redeclare) l
         then Ok (mkAssign value (match init with None => [] | Some d => d end) fmt
                           (Some (combine l)) description
                           (match annotation with None => [] | Some d => d end)
                           (Some type))
         else Raise (AssertionError "component type must be known when redeclaring").
Proof.
  intros value init fmt description annotation type l Hl. split; [reflexivity|].
  unfold Assign_init.
  rewrite (flag_in_combine AssignFlags.Redeclare l) by (simpl; auto).
  destruct (existsb (Z.eqb AssignFlags.Redeclare) l); reflexivity.
Qed.

Lemma Assign_init_type_needs_redeclare_witness :
  Assign_init (SInt 1) None "" (Some (combine [AssignFlags.Each; AssignFlags.Redeclare]))
              None None (Some "Real")
  = Ok (mkAssign (SInt 1) [] "" (Some 5) None [] (Some "Real"))
  /\ Assign_init (SInt 1) None "" (Some (combine [AssignFlags.Each; AssignFlags.Final]))
                 None None (Some "Real")
     = Raise (AssertionError "component type must be known when redeclaring").
Proof.
  split.
  - apply (proj2 (Assign_init_type_needs_redeclare
                    (SInt 1) None "" None None "Real"
                    [AssignFlags.Each; AssignFlags.Redeclare]
                    ltac:(repeat (apply Forall_cons; [simpl; auto 6|]); apply Forall_nil))).
  - apply (proj2 (Assign_init_type_needs_redeclare
                    (SInt 1) None "" None None "Real"
                    [AssignFlags.Each; AssignFlags.Final]
                    ltac:(repeat (apply Forall_cons; [simpl; auto 6|]); apply Forall_nil))).
Defined.

(** ** [Model.add] *)

(** C7.  [Model.add] with one of the six section names returns the node,
    appends it to that section and leaves the other five sections (and the
    rest of the model) as they were; with any other name it raises
    [ValueError] and the model is unchanged. *)
Theorem Model_add_sections :
  forall (self : Model) (some : Node) (where_ : string),
    match section_named where_ with
    | Some sec =>
        fst (Model_add self some where_) = Ok some
        /\ forall sec',
             get_section sec' (snd (Model_add self some where_))
             = if Section_eqb sec' sec
               then (get_section sec self ++ [some])%list
               else get_section sec' self
    | None =>
        Model_add self some where_ = (Raise (ValueError ("where=" ++ where_ ++ " unknown")), self)
    end
    /\ header (snd (Model_add self some where_)) = header self.
Proof.
  intros self some where_. unfold section_named, Model_add.
  repeat (destruct (String.eqb where_ _);
          [split; [split; [reflexivity | intros []; reflexivity] | reflexivity]|]).
  split; reflexivity.
Qed.

(** ** [add_connect] *)

(** C6.  [add_connect] with two references stores them as they are; with
    four arguments it stores the two strings [owner1.port1] and
    [owner2.port2], where the owner is the [ident] of a [Component] or the
    string itself; in both cases the new [Connect] goes to the end of the
    equations.  With any other number of arguments it raises [ValueError] and
    the model is unchanged. *)
Theorem add_connect_arity :
  forall (model : Model) (description : option string),
    (forall ref1 ref2,
        let c := mkConnect ref1 ref2 description [] in
        add_connect model ref1 ref2 [] description
        = (Ok c, set_equations model (equations model ++ [NConnect c])))
    /\ (forall owner1 port1 owner2 port2,
           let c := mkConnect (RStr (owner_name owner1 ++ "." ++ port1))
                              (RStr (owner_name owner2 ++ "." ++ port2)) description [] in
           add_connect model owner1 (RStr port1) [owner2; RStr port2] description
           = (Ok c, set_equations model (equations model ++ [NConnect c])))
    /\ (forall c s, owner_name (RComponent c) = c_ident c /\ owner_name (RStr s) = s)
    /\ (forall ref1 ref2 args,
           if ((length args =? 0) || (length args =? 2))%nat then True
           else add_connect model ref1 ref2 args description
                = (Raise (ValueError "Too many or too few args."), model)).
Proof.
  intros model description. repeat split.
  intros ref1 ref2 [|a [|b [|c args]]]; simpl; auto.
Qed.

(** ** [add_component] *)

Lemma dict_contains_set {V} (d : Dict V) (key : string) (v : V) :
  dict_contains key (dict_set d key v) = true.
Proof.
  unfold dict_contains. induction d as [|[k x] d IH]; simpl.
  - now rewrite String.eqb_refl.
  - destruct (String.eqb k key) eqn:E; simpl; rewrite E; auto.
Qed.

(** An identifier is registered once [add_component] has returned for it. *)
Lemma add_component_registers model typ ident value init protected parameter flags kwargs c m' :
  add_component model typ ident value init protected parameter flags kwargs = (Ok c, m') ->
  dict_contains ident (components m') = true.
Proof.
  unfold add_component.
  destruct (dict_contains ident (components model)); [discriminate|].
  destruct value as [v|d]; [|destruct init]; try discriminate;
    (destruct (flags_kwarg flags); [|discriminate]);
    (destruct (kw_others kwargs); [|discriminate]);
    (destruct (has_pos_keys kwargs);
     [destruct (kw_pos kwargs); [|discriminate];
      match goal with |- context [set_placement ?a ?b ?c ?d ?e] =>
        destruct (set_placement a b c d e) end; [|discriminate]|]);
    intros H; injection H as _ <-; destruct protected; simpl; apply dict_contains_set.
Qed.

(** C3.  [add_component] with an identifier that is already a key of
    [model.components] raises [KeyError], whatever the other arguments, and
    the model it was called on (its registry and its six sections) is left
    as it was. *)
Theorem add_component_duplicate :
  forall model typ ident value init protected parameter flags kwargs,
    dict_contains ident (components model) = true ->
    add_component model typ ident value init protected parameter flags kwargs
    = (Raise (KeyError ("component with ident " ++ ident ++ " already exists")), model).
Proof.
  intros model typ ident value init protected parameter flags kwargs H.
  unfold add_component. now rewrite H.
Qed.

Lemma add_component_duplicate_witness :
  let m1 := snd (add_component (Model_init "Unnamed" None None None None) "Real" "x"
                               (ValScalar (SInt 1)) None false true FlagsNone no_kwargs) in
  add_component m1 "Integer" "x" (ValScalar SNone) None true false (FlagsStr "final") no_kwargs
  = (Raise (KeyError "component with ident x already exists"), m1).
Proof.
  intros m1. apply (add_component_duplicate m1). reflexivity.
Defined.

(** ** Loops *)

(** [for_head_then_last] is the loop over [head] followed by the step for
    [last], where [*head, last = xs]. *)
Lemma for_head_then_last_unpack {A} (each final : A -> M unit) (xs : list A) (d : A) s :
  xs <> [] ->
  for_head_then_last each final xs s
  = (for_each each (removelast xs) ;; final (last xs d)) s.
Proof.
  revert s. induction xs as [|x xs IH]; intros s Hne; [congruence|].
  destruct xs as [|y xs]; [reflexivity|].
  change (for_head_then_last each final (x :: y :: xs) s)
    with ((each x ;; for_head_then_last each final (y :: xs)) s).
  change (removelast (x :: y :: xs)) with (x :: removelast (y :: xs)).
  change (last (x :: y :: xs) d) with (last (y :: xs) d).
  change (for_each each (x :: removelast (y :: xs)))
    with (each x ;; for_each each (removelast (y :: xs))).
  unfold bind. destruct (each x s) as [[[]|e] s']; [|reflexivity].
  apply IH. discriminate.
Qed.

(** ** Induction on annotations, values and nodes *)

(** [Forall P l] from a hypothesis [IH] that gives [P] at every element. *)
Ltac forall_elements IH :=
  match goal with
  | |- Forall _ ?l =>
      let x := fresh "x" in
      let IHl := fresh "IHl" in
      induction l as [|x l IHl]; constructor; [try apply IH | apply IHl]
  end.

Lemma Anno_induction (P : Anno -> Prop) :
  (forall items, Forall (fun kv => P (snd kv)) items -> P (ADict items)) ->
  (forall elems, Forall (Forall (fun kv => P (snd kv))) elems -> P (ADictList elems)) ->
  (forall elems, P (AListList elems)) ->
  (forall elems, P (AList elems)) ->
  (forall v, P (AScalar v)) ->
  forall a, P a.
Proof.
  intros HDict HDictList HListList HList HScalar.
  fix IH 1. intros [items|elems|elems|elems|v].
  - apply HDict. forall_elements IH.
  - apply HDictList. forall_elements IH. forall_elements IH.
  - apply HListList.
  - apply HList.
  - apply HScalar.
Qed.

Lemma Value_induction (P : Value -> Prop) :
  (forall v, P (VScalar v)) ->
  (forall items, Forall (fun kv => P (snd kv)) items -> P (VDict items)) ->
  (forall a, Forall (fun kv => P (snd kv)) (a_init a) -> P (VAssign a)) ->
  (forall elems, P (VTuple elems)) ->
  (forall type_name, P (VOther type_name)) ->
  forall v, P v.
Proof.
  intros HScalar HDict HAssign HTuple HOther.
  fix IH 1. intros [v|items|a|elems|type_name].
  - apply HScalar.
  - apply HDict. forall_elements IH.
  - apply HAssign. destruct a as [value init fmt flags description annotation type]. simpl.
    forall_elements IH.
  - apply HTuple.
  - apply HOther.
Qed.

Lemma Node_induction (P : Node -> Prop) :
  (forall a, P (NAlgorithm a)) ->
  (forall a, P (NAssign a)) ->
  (forall c, P (NComponent c)) ->
  (forall c, P (NConnect c)) ->
  (forall e, P (NEquation e)) ->
  (forall name, P (NExtends name)) ->
  (forall value, P (NExpression value)) ->
  (forall test body elseif orelse,
      P test -> Forall P body ->
      Forall (fun b => P (fst b) /\ Forall P (snd b)) elseif ->
      P (NIfEquation test body elseif orelse)) ->
  (forall m, Forall (Forall P) (sections_of m) -> P (NModel m)) ->
  (forall path names, P (NMultiImport path names)) ->
  (forall short long, P (NNamedImport short long)) ->
  (forall name, P (NQualifiedImport name)) ->
  (forall s, P (NStr s)) ->
  (forall lines with_indent, P (NText lines with_indent)) ->
  (forall w, P (NWithin w)) ->
  (forall type_name, P (NOther type_name)) ->
  forall node, P node.
Proof.
  intros HAlg HAssign HComp HConn HEq HExt HExpr HIf HModel HMulti HNamed HQual HStr
         HText HWithin HOther.
  fix IH 1.
  intros [a|a|c|c|e|name|value|test body elseif orelse|m|path names|short long|name|s
         |lines with_indent|w|type_name].
  - apply HAlg.
  - apply HAssign.
  - apply HComp.
  - apply HConn.
  - apply HEq.
  - apply HExt.
  - apply HExpr.
  - apply HIf; [apply IH | forall_elements IH |].
    forall_elements IH. destruct x as [e eqs]. simpl. split; [apply IH | forall_elements IH].
  - apply HModel.
    destruct m as [ident description within flags annotation comps s1 s2 s3 s4 s5 s6].
    unfold sections_of. simpl.
    repeat (apply Forall_cons; [forall_elements IH|]). apply Forall_nil.
  - apply HMulti.
  - apply HNamed.
  - apply HQual.
  - apply HStr.
  - apply HText.
  - apply HWithin.
  - apply HOther.
Qed.

(** ** Framing: what is written depends on the indent alone *)

Lemma framed_ret {A} (a : A) : framed 0 (ret a).
Proof. intros i ind. exists (Ok a), "", i. split; [apply runs_ret | lia]. Qed.

Lemma framed_raise {A} d e : framed d (@raise A e).
Proof. intros i ind. exists (Raise e), "", i. split; [apply runs_raise | discriminate]. Qed.

Lemma framed_lift {A} (r : Res A) : framed 0 (lift r).
Proof. intros i ind. exists r, "", i. split; [apply runs_lift | lia]. Qed.

Lemma framed_write s b : framed 0 (write s b).
Proof. intros i ind. eexists _, _, i. split; [apply runs_write | lia]. Qed.

Lemma framed_print s b : framed 0 (print s b).
Proof. intros i ind. eexists _, _, i. split; [apply runs_print | lia]. Qed.

Lemma framed_add_indent d : framed d (add_indent d).
Proof. intros i ind. eexists _, _, _. split; [apply runs_add_indent | reflexivity]. Qed.

Lemma framed_bind {A B} d d1 d2 (m : M A) (f : A -> M B) :
  framed d1 m -> (forall a, framed d2 (f a)) -> d = d1 + d2 -> framed d (bind m f).
Proof.
  intros Hm Hf -> i ind.
  destruct (Hm i ind) as ([a|e] & t1 & i1 & Hr1 & Hi1).
  - destruct (Hf a i1 ind) as (r & t2 & i2 & Hr2 & Hi2).
    exists r, (t1 ++ t2), i2. split; [eapply runs_bind_ok; eauto|].
    intros Hok. rewrite (Hi2 Hok), (Hi1 eq_refl). lia.
  - exists (Raise e), t1, i1. split; [now apply runs_bind_raise | discriminate].
Qed.

Lemma framed_for_each {A} (body : A -> M unit) (xs : list A) :
  Forall (fun x => framed 0 (body x)) xs -> framed 0 (for_each body xs).
Proof.
  induction 1 as [|x xs Hx _ IH]; simpl.
  - apply framed_ret.
  - eapply framed_bind; [exact Hx | intros; exact IH | reflexivity].
Qed.

Lemma framed_for_head_then_last {A} (each final : A -> M unit) (xs : list A) :
  Forall (fun x => framed 0 (each x)) xs ->
  Forall (fun x => framed 0 (final x)) xs ->
  framed 0 (for_head_then_last each final xs).
Proof.
  intros He Hf. induction xs as [|x xs IH]; simpl.
  - apply framed_ret.
  - inversion He as [|? ? Hex Hexs]; inversion Hf as [|? ? Hfx Hfxs]; subst.
    destruct xs as [|y xs]; [exact Hfx|].
    eapply framed_bind; [exact Hex | intros; apply IH; assumption | reflexivity].
Qed.

Create HintDb framed.

(** A proof that a method is framed, by the shape of the method: the parts
    of a sequence in their order, then the sum of their moves of the indent;
    what is not a sequence, a branch or a primitive is left to the hints. *)
Ltac framed_tac :=
  lazymatch goal with
  | |- framed _ (bind _ _) =>
      eapply framed_bind; [ framed_tac | intros; framed_tac | try reflexivity ]
  | |- framed _ (ret _) => apply framed_ret
  | |- framed _ (raise _) => apply framed_raise
  | |- framed _ (visit_default _) => apply framed_raise
  | |- framed _ (lift _) => apply framed_lift
  | |- framed _ (write _ _) => apply framed_write
  | |- framed _ (print _ _) => apply framed_print
  | |- framed _ (add_indent _) => apply framed_add_indent
  | |- framed _ (for_each _ _) => apply framed_for_each
  | |- framed _ (for_head_then_last _ _ _) => apply framed_for_head_then_last
  | |- framed _ (match ?x with _ => _ end) => destruct x; framed_tac
  | |- framed _ _ => try (cbn [fst snd] in *; eauto with framed)
  end.

(** [write_annotation] is framed, and leaves the indent where it was. *)
Lemma framed_write_annotation (anno : Anno) : framed 0 (write_annotation anno).
Proof.
  induction anno as [items IH|elems IH|elems|elems|v] using Anno_induction.
  - destruct items as [|[k v] [|kv rest]]; cbn [write_annotation].
    + apply framed_ret.
    + inversion IH; subst. framed_tac.
    + inversion IH as [|? ? Hv Hrest]; subst.
      framed_tac; (eapply Forall_impl; [|exact Hrest]); intros [k' v'] Hv'; framed_tac.
  - destruct elems as [|d elems]; [apply framed_write|].
    cbn [write_annotation].
    framed_tac; (eapply Forall_impl; [|exact IH]); intros e He.
    + destruct e as [|[name value] [|]]; try apply framed_raise.
      inversion He; subst. framed_tac.
    + destruct e as [|[name value] e]; try apply framed_raise.
      inversion He; subst. framed_tac.
  - destruct elems as [|e elems]; [apply framed_write|].
    cbn [write_annotation].
    framed_tac; apply Forall_forall; intros x _; framed_tac.
  - destruct elems; apply framed_write.
  - destruct v as [|[|]| | |]; apply framed_write.
Qed.
#[export] Hint Resolve framed_write_annotation : framed.

Lemma framed_write_dict (write_entry : string -> Value -> M unit) key (lst : Dict Value) :
  Forall (fun kv => forall k, framed 0 (write_entry k (snd kv))) lst ->
  framed 0 (write_dict write_entry key lst).
Proof.
  intros H. unfold write_dict.
  destruct lst as [|[k0 v0] [|[k1 v1] [|kv rest]]].
  - framed_tac.
  - inversion H; subst. framed_tac.
  - inversion H as [|? ? H0 H']; inversion H'; subst. framed_tac.
  - inversion H as [|? ? H0 H']; subst.
    framed_tac; (eapply Forall_impl; [|exact H']); intros [k v] Hv; framed_tac.
Qed.
#[export] Hint Resolve framed_write_dict : framed.

(** [write_key_value] is framed, and leaves the indent where it was. *)
Lemma framed_write_key_value format_spec (value : Value) :
  forall key, framed 0 (write_key_value format_spec key value).
Proof.
  induction value as [v|items IH|a IH|elems|type_name] using Value_induction; intros key.
  - destruct v as [|[|]| | |]; apply framed_write.
  - cbn [write_key_value]. now apply framed_write_dict.
  - cbn [write_key_value]. framed_tac.
  - apply framed_write.
  - apply framed_raise.
Qed.
#[export] Hint Resolve framed_write_key_value : framed.

(** ** The layout of a modification ([write_key_value]) *)

Lemma runs_conv {A} i ind (m : M A) r t t' i1 i' :
  runs i ind m r t i1 -> t = t' -> i1 = i' -> runs i ind m r t' i'.
Proof. now intros H <- <-. Qed.

(** A proof of what a sequence of methods writes, part by part; the text
    and the final indent are compared afterwards. *)
Ltac runs_tac :=
  lazymatch goal with
  | |- runs _ _ (bind _ _) _ _ _ => eapply runs_bind_ok; [ runs_tac | runs_tac ]
  | |- runs _ _ (ret _) _ _ _ => apply runs_ret
  | |- runs _ _ (write _ _) _ _ _ => apply runs_write
  | |- runs _ _ (print _ _) _ _ _ => apply runs_print
  | |- runs _ _ (add_indent _) _ _ _ => apply runs_add_indent
  | |- runs _ _ _ _ _ _ => try eassumption
  end.

Ltac text_eq := cbn [fst snd]; repeat rewrite append_assoc; repeat rewrite append_nil_r; reflexivity.

Lemma runs_entries_then_last (write_entry : string -> Value -> M unit) j ind
    (lst : Dict Value) (texts : list string) :
  Forall2 (fun kv t => emits_at j ind (write_entry (fst kv) (snd kv)) t) lst texts ->
  runs j ind
       (for_head_then_last
          (fun '(k, v) => write "" true ;; write_entry k v ;; print "," false)
          (fun '(k, v) => write "" true ;; write_entry k v)
          lst)
       (Ok tt)
       (join ("," ++ nl) (map (fun t => str_mul j ind ++ t) texts)) j.
Proof.
  unfold emits_at.
  induction 1 as [|[k v] t lst texts Hkv Hrest IH].
  - apply runs_ret.
  - destruct Hrest as [|kv' t' lst' texts' Hkv' Hrest'].
    + cbn [for_head_then_last map join String.concat fst snd] in *.
      eapply runs_conv; [runs_tac | text_eq | reflexivity].
    + cbn [for_head_then_last] in *. cbn [map join String.concat] in *.
      eapply runs_conv; [runs_tac | | reflexivity].
      cbn [fst snd]. repeat rewrite append_assoc. repeat rewrite append_nil_r. reflexivity.
Qed.

(** C1.  The layout of a dictionary in [write_key_value], for entries that
    are written as [texts]: after the key, nothing for no entry, [(t)] for
    one, [(t0, t1)] for two; from three entries on, an opening parenthesis
    and a line break, then every entry on a line of its own, one indent
    deeper, with a comma right after each entry but the last, and the closing
    parenthesis right after the last entry.  The indent is afterwards what it
    was before. *)
Theorem write_key_value_dict_layout :
  forall format_spec key (lst : Dict Value) i ind (texts : list string),
    Forall2 (fun kv t =>
               emits_at (if (3 <=? length lst)%nat then i + 1 else i) ind
                        (write_key_value format_spec (fst kv) (snd kv)) t)
            lst texts ->
    emits_at i ind (write_key_value format_spec key (VDict lst))
             (key ++ dict_layout i ind texts).
Proof.
  intros format_spec key lst i ind texts H.
  unfold emits_at in *. cbn [write_key_value]. unfold write_dict.
  destruct lst as [|[k0 v0] [|[k1 v1] [|kv2 rest]]];
    repeat match goal with
           | H : Forall2 _ [] _ |- _ => inversion H; subst; clear H
           | H : Forall2 _ (_ :: _) _ |- _ => inversion H; subst; clear H
           end;
    cbn [length Nat.leb fst snd dict_layout] in *.
  - eapply runs_conv; [runs_tac | text_eq | reflexivity].
  - eapply runs_conv; [runs_tac | text_eq | reflexivity].
  - eapply runs_conv; [runs_tac | text_eq | reflexivity].
  - match goal with
    | H1 : runs _ _ (write_key_value _ k1 v1) _ _ _,
      H2 : runs _ _ (write_key_value _ (fst kv2) (snd kv2)) _ _ _,
      H : Forall2 _ rest _ |- _ =>
        pose proof (runs_entries_then_last (write_key_value format_spec) (i + 1) ind
                      ((k1, v1) :: kv2 :: rest) _
                      (Forall2_cons (k1, v1) _ H1 (Forall2_cons kv2 _ H2 H))) as Hrest
    end.
    eapply runs_conv; [runs_tac | | lia].
    cbn [map join String.concat] in *. text_eq.
Qed.

Lemma emits_at_int format_spec i ind key z :
  emits_at i ind (write_key_value format_spec key (VScalar (SInt z)))
           (key ++ "=" ++ str_of_int z).
Proof. apply runs_write. Qed.

Lemma emits_at_bool format_spec i ind key (b : bool) :
  emits_at i ind (write_key_value format_spec key (VScalar (SBool b)))
           (key ++ (if b then "=true" else "=false")).
Proof. destruct b; apply runs_write. Qed.

Lemma write_key_value_dict_layout_witness :
  emits_at 0 "  "
           (write_key_value no_format_spec "x"
              (VDict [("y", VScalar (SInt 1)); ("z", VScalar (SInt 2)); ("w", VScalar (SInt 3))]))
           ("x(" ++ nl ++ "  y=1," ++ nl ++ "  z=2," ++ nl ++ "  w=3)").
Proof.
  apply (write_key_value_dict_layout no_format_spec "x"
           [("y", VScalar (SInt 1)); ("z", VScalar (SInt 2)); ("w", VScalar (SInt 3))]
           0 "  " ["y=1"; "z=2"; "w=3"]).
  repeat (apply Forall2_cons; [apply emits_at_int|]). apply Forall2_nil.
Defined.

(** Every value has such a text: when [write_key_value] succeeds once, it
    writes the same text, and succeeds, wherever it starts at that indent. *)
Lemma write_key_value_emits format_spec key value i ind p w :
  indent p = i -> indentation p = ind ->
  fst (write_key_value format_spec key value (p, w)) = Ok tt ->
  exists t, emits_at i ind (write_key_value format_spec key value) t.
Proof.
  intros Hi Hind Hok.
  destruct (framed_write_key_value format_spec value key i ind) as (r & t & i' & Hr & Hi').
  destruct (Hr p w Hi Hind) as (p' & E & _). rewrite E in Hok. simpl in Hok. subst r.
  exists t. unfold emits_at. rewrite (Hi' eq_refl), Z.add_0_r in Hr. exact Hr.
Qed.

(** ** The layout of an annotation ([write_annotation]) *)

(** C2, as the code has it.  An annotation with two entries is not written
    on one line: the first entry follows the opening parenthesis, then come
    a comma and a line break, and the second entry is on a line of its own,
    one indent deeper, with the closing parenthesis right after it.  The name
    of an entry is followed by what [write_annotation] writes for its value
    (an equals sign and the value for a scalar, a parenthesis for a nested
    dictionary). *)
Theorem write_annotation_two_entries :
  forall k0 v0 k1 v1 i ind t0 t1,
    emits_at (i + 1) ind (write_annotation v0) t0 ->
    emits_at (i + 1) ind (write_annotation v1) t1 ->
    emits_at i ind (write_annotation (ADict [(k0, v0); (k1, v1)]))
             ("(" ++ k0 ++ t0 ++ "," ++ nl ++ str_mul (i + 1) ind ++ k1 ++ t1 ++ ")").
Proof.
  intros k0 v0 k1 v1 i ind t0 t1 H0 H1. unfold emits_at in *.
  cbn [write_annotation for_head_then_last].
  eapply runs_conv; [runs_tac | text_eq | lia].
Qed.

Lemma emits_at_anno_scalar i ind (v : Scalar) :
  emits_at i ind (write_annotation (AScalar v))
           (match v with
            | SBool true => "=true"
            | SBool false => "=false"
            | _ => "=" ++ py_str v
            end).
Proof. destruct v as [|[|]| | |]; apply runs_write. Qed.

Lemma write_annotation_two_entries_witness :
  emits_at 0 "  "
           (write_annotation (ADict [("a", AScalar (SBool true)); ("b", AScalar (SInt 2))]))
           ("(a=true," ++ nl ++ "  b=2)").
Proof.
  apply (write_annotation_two_entries "a" (AScalar (SBool true)) "b" (AScalar (SInt 2))
                                      0 "  " "=true" "=2").
  - apply (emits_at_anno_scalar 1 "  " (SBool true)).
  - apply (emits_at_anno_scalar 1 "  " (SInt 2)).
Defined.

(** The same two entries as a modification are written on one line, and as
    an annotation, on their own or under a component, on two. *)
Lemma annotation_two_entries_not_on_one_line :
  let anno := [("a", AScalar (SBool true)); ("b", AScalar (SInt 2))] in
  let init := [("a", VScalar (SBool true)); ("b", VScalar (SInt 2))] in
  let start := (mkPrettyPrinter Sink "  " 80 0 0 0, mkWorld "" "") in
  sink (snd (snd (write_key_value no_format_spec "" (VDict init) start))) = "(a=true, b=2)"
  /\ sink (snd (snd (write_annotation (ADict anno) start))) = "(a=true," ++ nl ++ "  b=2)"
  /\ sink (snd (snd (write_annotation (ADict anno) start))) <> "(a=true, b=2)"
  /\ fst (pprint no_format_spec
            (NComponent (mkComponent "X" "x" SNone [] None None None None [] None None None anno))
            None false "  " 80 0 (mkWorld "" ""))
     = Ok (Some ("X x annotation (a=true," ++ nl ++ "  b=2);" ++ nl)).
Proof.
  repeat split; try reflexivity. vm_compute. discriminate.
Qed.

(** ** The order of the flags *)

Lemma runs_if_write i ind (b : bool) s :
  runs i ind (if b then write s false else ret tt) (Ok tt) (if b then s else "") i.
Proof. destruct b; [apply runs_write | apply runs_ret]. Qed.

Lemma combine_app (l : list Flags) (a : Flags) : combine (l ++ [a]) = flag_or (combine l) a.
Proof. unfold combine. now rewrite fold_left_app. Qed.

(** ** The empty model *)

(** C8.  A model named [Unnamed] with no description, no [within], no
    flags, an empty annotation and six empty sections is rendered, at the
    starting indent 0, as the line [model Unnamed] and the line
    [end Unnamed;], whatever the indentation unit and the width. *)
Theorem pprint_unnamed_model :
  forall format_spec comps draw indentation width (w : World),
    let model := NModel (mkModel "Unnamed" None None None [] comps [] [] [] [] [] []) in
    let text := "model Unnamed" ++ nl ++ "end Unnamed;" ++ nl in
    fst (pprint format_spec model None draw indentation width 0 w) = Ok (Some text)
    /\ pprint format_spec model (Some Sink) false indentation width 0 w
       = (Ok None, mkWorld (stdout w) (sink w ++ text))
    /\ Model_init "Unnamed" None None None None
       = mkModel "Unnamed" None None None [] [] [] [] [] [] [] [].
Proof.
  intros format_spec comps draw indentation width [out snk]. cbn zeta.
  split; [|split; [|reflexivity]].
  - destruct draw; reflexivity.
  - unfold pprint. cbn. now rewrite append_assoc.
Qed.

(** ** What a render writes, and where *)

Lemma flush_app st (l1 l2 : Log) w :
  flush st (l1 ++ l2)%list w = flush st l2 (flush st l1 w).
Proof. unfold flush. now rewrite fold_left_app. Qed.

Lemma flush_cons st (e : bool * string) (log : Log) w :
  flush st (e :: log) w
  = flush st log (stream_append (if fst e then st else Stdout) (snd e) w).
Proof. reflexivity. Qed.

Lemma flush_Sink (log : Log) (w : World) :
  flush Sink log w = mkWorld (stdout w ++ printed log) (sink w ++ written log).
Proof.
  revert w. induction log as [|[[|] s] log IH]; intros [out snk].
  - simpl. now rewrite !append_nil_r.
  - rewrite flush_cons, IH. simpl. now rewrite append_assoc.
  - rewrite flush_cons, IH. simpl. now rewrite append_assoc.
Qed.

Lemma flush_Stdout (log : Log) (w : World) :
  flush Stdout log w = mkWorld (stdout w ++ everything log) (sink w).
Proof.
  revert w. induction log as [|[[|] s] log IH]; intros [out snk].
  - simpl. now rewrite !append_nil_r.
  - rewrite flush_cons, IH. simpl. now rewrite append_assoc.
  - rewrite flush_cons, IH. simpl. now rewrite append_assoc.
Qed.

Lemma append_eq_nil (a b : string) : a ++ b = "" -> a = "" /\ b = "".
Proof. destruct a; simpl; [auto | discriminate]. Qed.

(** When the built-in [print] wrote nothing, all that was written went to
    the stream of the printer. *)
Lemma everything_written (log : Log) : printed log = "" -> everything log = written log.
Proof.
  induction log as [|[[|] s] log IH]; simpl; intros H.
  - reflexivity.
  - now rewrite IH.
  - apply append_eq_nil in H. destruct H as [-> H]. now apply IH.
Qed.

Lemma lframed_of_framed {A} d (m : M A) : framed d m -> lframed m.
Proof.
  intros H i ind. destruct (H i ind) as (r & t & i' & Hr & _).
  exists r, [(true, t)], i'. intros p w Hi Hind.
  destruct (Hr p w Hi Hind) as (p' & E & Hp'). exists p'. split; [exact E | exact Hp'].
Qed.

Lemma lframed_bind {A B} (m : M A) (f : A -> M B) :
  lframed m -> (forall a, lframed (f a)) -> lframed (bind m f).
Proof.
  intros Hm Hf i ind.
  destruct (Hm i ind) as ([a|e] & l1 & i1 & H1).
  - destruct (Hf a i1 ind) as (r & l2 & i2 & H2).
    exists r, (l1 ++ l2)%list, i2. intros p w Hi Hind.
    destruct (H1 p w Hi Hind) as (p1 & E1 & Hs1 & Hd1 & Hi1).
    destruct (H2 p1 (flush (stream p) l1 w) Hi1 Hd1) as (p2 & E2 & Hs2 & Hd2 & Hi2).
    exists p2. unfold bind. rewrite E1, E2, Hs1, flush_app. repeat split; congruence.
  - exists (Raise e), l1, i1. intros p w Hi Hind.
    destruct (H1 p w Hi Hind) as (p1 & E1 & Hp1).
    exists p1. unfold bind. rewrite E1. auto.
Qed.

Lemma lframed_builtin_print s : lframed (builtin_print s).
Proof.
  intros i ind. exists (Ok tt), [(false, s ++ nl)], i. intros p w Hi Hind.
  exists p. unfold builtin_print. simpl. auto.
Qed.

Lemma lframed_for_each {A} (body : A -> M unit) (xs : list A) :
  Forall (fun x => lframed (body x)) xs -> lframed (for_each body xs).
Proof.
  induction 1 as [|x xs Hx _ IH]; simpl.
  - apply (lframed_of_framed 0), framed_ret.
  - apply lframed_bind; [exact Hx | intros; exact IH].
Qed.

(** A proof that a method is framed with a log, by its shape; a part that
    writes to the stream only is framed by [framed_tac]. *)
Create HintDb lframed.

Ltac lframed_tac :=
  lazymatch goal with
  | |- lframed (bind _ _) => apply lframed_bind; [ lframed_tac | intros; lframed_tac ]
  | |- lframed (builtin_print _) => apply lframed_builtin_print
  | |- lframed (for_each _ _) => apply lframed_for_each; try assumption
  | |- lframed (match ?x with _ => _ end) => destruct x; lframed_tac
  | |- lframed _ =>
      first [ eassumption
            | solve [ eauto with lframed ]
            | solve [ eapply lframed_of_framed; framed_tac ]
            | idtac ]
  end.

Lemma lframed_visit_section {N} (visit : N -> M unit) keyword (section : list N) :
  Forall (fun x => lframed (visit x)) section ->
  lframed (visit_section visit keyword section).
Proof.
  intros H. unfold visit_section. destruct section as [|x section].
  - apply (lframed_of_framed 0), framed_ret.
  - lframed_tac.
Qed.
#[export] Hint Resolve lframed_visit_section : lframed.

(** [visit] is framed, on every node. *)
Lemma lframed_visit format_spec (node : Node) : lframed (visit format_spec node).
Proof.
  induction node as [a|a|c|c|e|name|value|test body elseif orelse IHtest IHbody IHelseif
                    |m IH|path names|short long|name|s|lines with_indent|w|type_name]
    using Node_induction; cbn [visit].
  - unfold visit_Algorithm, visit_Annotation. lframed_tac.
  - unfold visit_Assign. lframed_tac.
  - unfold visit_Component, visit_Annotation, write_component_flags. lframed_tac.
  - unfold visit_Connect, visit_Description, visit_Annotation. lframed_tac.
  - unfold visit_Equation, visit_Annotation. lframed_tac.
  - lframed_tac.
  - lframed_tac.
  - lframed_tac.
    + eapply Forall_impl; [|exact IHbody]. intros eq Heq. lframed_tac.
    + eapply Forall_impl; [|exact IHelseif]. intros [expr eqs] [Hexpr Heqs].
      cbn [fst snd] in *. lframed_tac.
      eapply Forall_impl; [|exact Heqs]. intros eq Heq. lframed_tac.
  - unfold sections_of in IH.
    repeat match goal with
           | H : Forall _ (_ :: _) |- _ => inversion H; subst; clear H
           end.
    unfold visit_Model, visit_Within, write_model_flags, visit_Annotation.
    lframed_tac.
  - lframed_tac.
  - lframed_tac.
  - lframed_tac.
  - lframed_tac.
  - lframed_tac. apply Forall_forall. intros x _. lframed_tac.
  - unfold visit_Within. lframed_tac.
  - apply (lframed_of_framed 0), framed_raise.
  Unshelve. all: exact 0.
Qed.

(** ** The flags of a model and of a component, as [visit] writes them *)

Lemma runs_log_written {A} i ind (m : M A) r (log : Log) i' :
  runs_log i ind m r log i' -> printed log = "" -> runs i ind m r (written log) i'.
Proof.
  intros H Hp p w Hi Hind. destruct (H p w Hi Hind) as (p' & E & Hrest).
  exists p'. split; [|exact Hrest]. rewrite E. f_equal. f_equal.
  destruct (stream p).
  - rewrite flush_Stdout, (everything_written log Hp). reflexivity.
  - rewrite flush_Sink, Hp, append_nil_r. reflexivity.
Qed.

(** One part of a sequence replaced by another: the text of the part changes
    and nothing else does, when what follows is framed. *)
Lemma runs_swap_middle (pre mid mid' tail : M unit) i ind t0 tm tm' (r : Res unit) rest i' :
  runs i ind pre (Ok tt) t0 i ->
  runs i ind mid (Ok tt) tm i ->
  runs i ind mid' (Ok tt) tm' i ->
  lframed tail ->
  runs i ind (pre ;; mid ;; tail) r (t0 ++ tm ++ rest) i' ->
  runs i ind (pre ;; mid' ;; tail) r (t0 ++ tm' ++ rest) i'.
Proof.
  intros Hpre Hmid Hmid' Htail H.
  destruct (Htail i ind) as (r0 & log & i0 & Hlog).
  pose (p0 := mkPrettyPrinter Sink ind 0 0 0 i). pose (w0 := mkWorld "" "").
  destruct (H p0 w0 eq_refl eq_refl) as (pe & E & _ & _ & Hie).
  destruct (Hpre p0 w0 eq_refl eq_refl) as (p1 & E1 & Hs1 & Hind1 & Hi1).
  destruct (Hmid p1 (stream_append (stream p0) t0 w0) Hi1 Hind1)
    as (p2 & E2 & Hs2 & Hind2 & Hi2).
  destruct (Hlog p2 (stream_append (stream p1) tm (stream_append (stream p0) t0 w0))
                 Hi2 Hind2) as (p3 & E3 & Hs3 & Hind3 & Hi3).
  unfold bind in E. rewrite E1, E2, E3 in E.
  rewrite Hs2, Hs1 in E. cbn [stream p0] in E. rewrite flush_Sink in E.
  injection E as Er Ep Eout Esnk. cbn in Eout, Esnk.
  rewrite <- append_assoc in Esnk. apply append_inv_head in Esnk.
  subst r0 pe. rewrite Hie in Hi3. subst i0.
  eapply runs_conv;
    [eapply runs_bind_ok; [exact Hpre|];
     eapply runs_bind_ok; [exact Hmid'|];
     apply runs_log_written; [exact Hlog | exact Eout]
    | now rewrite Esnk | reflexivity].
Qed.

Lemma runs_write_component_flags (l : list Flags) i ind :
  Forall (fun b => In b members) l ->
  runs i ind (write_component_flags (Some (combine l))) (Ok tt) (component_flags_text l) i
  /\ runs i ind
          (write_component_flags (Some (flag_or (combine l) ComponentFlags.Replaceable)))
          (Ok tt) (component_flags_text l) i.
Proof.
  intros Hl.
  assert (Hin : forall a, In a members -> flag_in a (combine l) = existsb (Z.eqb a) l)
    by (intros a Ha; now apply flag_in_combine).
  assert (Hl8 : Forall (fun b => In b members) (l ++ [ComponentFlags.Replaceable])).
  { apply Forall_app. split; [exact Hl|].
    apply Forall_cons; [simpl; auto 6 | apply Forall_nil]. }
  unfold component_flags_text. split.
  - unfold write_component_flags. rewrite !Hin by (simpl; auto 6).
    eapply runs_conv; [repeat (eapply runs_bind_ok; [apply runs_if_write|]);
                       apply runs_if_write | text_eq | reflexivity].
  - unfold write_component_flags. rewrite <- combine_app.
    rewrite !(fun a Ha => flag_in_combine a _ Ha Hl8) by (simpl; auto 6).
    rewrite !existsb_app. cbn [existsb Z.eqb ComponentFlags.Final ComponentFlags.Inner
                              ComponentFlags.Outer ComponentFlags.Replaceable Pos.eqb].
    rewrite !orb_false_r.
    eapply runs_conv; [repeat (eapply runs_bind_ok; [apply runs_if_write|]);
                       apply runs_if_write | text_eq | reflexivity].
Qed.

Lemma runs_write_model_flags_members (l : list Flags) i ind :
  Forall (fun b => In b members) l ->
  runs i ind (write_model_flags (Some (combine l))) (Ok tt) (model_flags_text l) i.
Proof.
  intros Hl.
  assert (Hin : forall a, In a members -> flag_in a (combine l) = existsb (Z.eqb a) l)
    by (intros a Ha; now apply flag_in_combine).
  unfold model_flags_text, write_model_flags. rewrite !Hin by (simpl; auto 6).
  eapply runs_conv; [repeat (eapply runs_bind_ok; [apply runs_if_write|]);
                     apply runs_if_write | text_eq | reflexivity].
Qed.

Lemma set_placement_keeps (c c' : Component) pos flip rotation size :
  set_placement c pos flip rotation size = Ok c' ->
  c_type c' = c_type c /\ c_ident c' = c_ident c /\ c_variability c' = c_variability c
  /\ c_init c' = c_init c /\ c_value c' = c_value c /\ c_flags c' = c_flags c.
Proof.
  unfold set_placement.
  destruct (setdefault_dict (c_annotation c) "Placement") as [[placement annotation]|];
    [|discriminate].
  destruct (setdefault_item placement "transformation") as [[transf placement']|];
    [|discriminate].
  intros [= <-]. simpl. repeat split.
Qed.

Lemma add_component_flags model typ ident value init protected parameter flags kwargs c model' :
  add_component model typ ident value init protected parameter flags kwargs = (Ok c, model') ->
  flags_kwarg flags = Ok (c_flags c).
Proof.
  unfold add_component.
  destruct (dict_contains ident (components model)); [discriminate|].
  destruct value as [v|d]; [|destruct init]; try discriminate;
    (destruct (flags_kwarg flags) as [flgs|]; [|discriminate]);
    (destruct (kw_others kwargs); [|discriminate]); cbv zeta;
    (destruct (has_pos_keys kwargs);
     [destruct (kw_pos kwargs); [|discriminate];
      match goal with |- context [set_placement ?a ?b ?c ?d ?e] =>
        destruct (set_placement a b c d e) as [c'|] eqn:Hplace end; [|discriminate];
      apply set_placement_keeps in Hplace; cbn [c_flags] in Hplace;
      destruct Hplace as (_ & _ & _ & _ & _ & Hf); intros [= <- _]; now rewrite Hf
     | intros [= <- _]; reflexivity]).
Qed.

(** C5.  For flags combined from members in any order, [visit] writes a
    model as it writes the model without flags, with [final],
    [encapsulated], [partial], [replaceable] put in after the [within] line,
    and a component as it writes the component without flags, with [final],
    [inner], [outer] put in after the indent; each word is there only when
    its flag is among the members combined.  [Replaceable] among the flags
    of a component changes nothing of what is written, and [add_component]
    stores it: the component it returns holds the flags it was given, as an
    enumeration or as a string of words. *)
Theorem flags_written_in_fixed_order :
  forall format_spec (l l' : list Flags) i ind,
    Forall (fun b => In b members) l ->
    Permutation l l' ->
    combine l' = combine l
    /\ (forall (m : Model) rest,
           emits_at i ind (visit format_spec (NModel (with_model_flags m None)))
                    (within_text i ind (m_within m) ++ rest) ->
           emits_at i ind (visit format_spec (NModel (with_model_flags m (Some (combine l')))))
                    (within_text i ind (m_within m) ++ model_flags_text l ++ rest))
    /\ (forall (c : Component) rest,
           emits_at i ind (visit format_spec (NComponent (with_flags c None)))
                    (str_mul i ind ++ rest) ->
           emits_at i ind (visit format_spec (NComponent (with_flags c (Some (combine l')))))
                    (str_mul i ind ++ component_flags_text l ++ rest)
           /\ emits_at i ind
                       (visit format_spec
                          (NComponent
                             (with_flags c (Some (flag_or (combine l')
                                                          ComponentFlags.Replaceable)))))
                       (str_mul i ind ++ component_flags_text l ++ rest))
    /\ (forall model typ ident value init protected parameter kwargs c model' flags,
           flags = flag_or (combine l') ComponentFlags.Replaceable ->
           add_component model typ ident value init protected parameter
                         (FlagsEnum flags) kwargs = (Ok c, model') ->
           c_flags c = Some flags /\ flag_in ComponentFlags.Replaceable flags = true)
    /\ (forall model typ ident value init protected parameter kwargs c model',
           add_component model typ ident value init protected parameter
                         (FlagsStr "replaceable final") kwargs = (Ok c, model') ->
           c_flags c = Some (combine [ComponentFlags.Replaceable; ComponentFlags.Final])).
Proof.
  intros format_spec l l' i ind Hl Hperm.
  assert (Hc : combine l' = combine l) by (symmetry; now apply combine_Permutation).
  rewrite Hc. split; [reflexivity|].
  assert (HF : forall sec : list Node, Forall (fun x => lframed (visit format_spec x)) sec).
  { intros sec. apply Forall_forall. intros x _. apply lframed_visit. }
  split; [|split; [|split]].
  - intros m rest H. unfold emits_at in *. cbn [visit] in *. unfold visit_Model in *.
    cbn [with_model_flags m_ident m_description m_within m_flags m_annotation
         public_section protected_section initial_equations initial_algorithms
         equations algorithms] in *.
    pose proof (HF (public_section m)). pose proof (HF (protected_section m)).
    pose proof (HF (initial_equations m)). pose proof (HF (initial_algorithms m)).
    pose proof (HF (equations m)). pose proof (HF (algorithms m)).
    eapply (runs_swap_middle _ (write_model_flags None) _ _ i ind
              (within_text i ind (m_within m)) "" (model_flags_text l) (Ok tt) rest i);
      [| apply runs_ret | now apply runs_write_model_flags_members | | exact H].
    + unfold within_text. destruct (m_within m) as [w|]; [|apply runs_ret].
      unfold visit_Within. destruct (within_name w);
        (eapply runs_conv; [apply runs_print | text_eq | reflexivity]).
    + unfold visit_Annotation. lframed_tac.
  - intros c rest H. unfold emits_at in *. cbn [visit] in *. unfold visit_Component in *.
    cbn [with_flags c_type c_ident c_value c_init c_flags c_variability c_causality c_flux
         c_subscripts c_condition c_constraint c_description c_annotation] in *.
    destruct (runs_write_component_flags l i ind Hl) as [Hf Hf8].
    assert (Hpre : runs i ind (write "" true) (Ok tt) (str_mul i ind) i).
    { eapply runs_conv; [apply runs_write | text_eq | reflexivity]. }
    split.
    + eapply (runs_swap_middle _ (write_component_flags None) _ _ i ind
                (str_mul i ind) "" (component_flags_text l) (Ok tt) rest i);
        [exact Hpre | apply runs_ret | exact Hf | | exact H].
      unfold visit_Annotation. cbv zeta. lframed_tac.
    + eapply (runs_swap_middle _ (write_component_flags None) _ _ i ind
                (str_mul i ind) "" (component_flags_text l) (Ok tt) rest i);
        [exact Hpre | apply runs_ret | exact Hf8 | | exact H].
      unfold visit_Annotation. cbv zeta. lframed_tac.
  - intros model typ ident value init protected parameter kwargs c model' flags Hflags Hadd.
    apply add_component_flags in Hadd. cbn [flags_kwarg] in Hadd. injection Hadd as <-.
    split; [reflexivity|]. subst flags. unfold flag_in, flag_or.
    apply Z.eqb_eq, Z.bits_inj'. intros n _. rewrite Z.land_spec, Z.lor_spec.
    now destruct (Z.testbit ComponentFlags.Replaceable n), (Z.testbit (combine l) n).
  - intros model typ ident value init protected parameter kwargs c model' Hadd.
    apply add_component_flags in Hadd.
    assert (Hs : flags_kwarg (FlagsStr "replaceable final")
                 = Ok (Some (combine [ComponentFlags.Replaceable; ComponentFlags.Final])))
      by reflexivity.
    rewrite Hs in Hadd. now injection Hadd as <-.
  Unshelve. all: exact 0.
Qed.

Lemma flags_written_in_fixed_order_witness :
  emits_at 0 "  "
           (visit no_format_spec
              (NModel (mkModel "M" None None
                               (Some (combine [ModelFlags.Replaceable; ModelFlags.Partial;
                                               ModelFlags.Final]))
                               [] [] [] [] [] [] [] [])))
           ("final partial replaceable model M" ++ nl ++ "end M;" ++ nl)
  /\ emits_at 0 "  "
              (visit no_format_spec
                 (NComponent
                    (mkComponent "Real" "x" SNone []
                                 (Some (combine [ComponentFlags.Replaceable;
                                                 ComponentFlags.Outer; ComponentFlags.Final]))
                                 None None None [] None None None [])))
              ("final outer Real x;" ++ nl).
Proof.
  assert (Hl : Forall (fun b => In b members) [1; 4; 8])
    by (repeat (apply Forall_cons; [simpl; auto 6|]); apply Forall_nil).
  assert (Hp : Permutation [1; 4; 8] [8; 4; 1]).
  { apply (Permutation_rev [1; 4; 8]). }
  destruct (flags_written_in_fixed_order no_format_spec [1; 4; 8] [8; 4; 1] 0 "  " Hl Hp)
    as (_ & Hmodel & Hcomponent & _).
  split.
  - apply (Hmodel (mkModel "M" None None None [] [] [] [] [] [] [] [])
                  ("model M" ++ nl ++ "end M;" ++ nl)).
    unfold emits_at. cbn [visit]. unfold visit_Model, visit_section, write_model_flags.
    cbn [with_model_flags m_ident m_description m_within m_flags m_annotation
         public_section protected_section initial_equations initial_algorithms
         equations algorithms for_each truthy].
    eapply runs_conv; [runs_tac | text_eq | reflexivity].
  - apply (Hcomponent (mkComponent "Real" "x" SNone [] None None None None [] None None None [])
                      ("Real x;" ++ nl)).
    unfold emits_at. cbn [visit]. unfold visit_Component, write_component_flags.
    cbn [with_flags c_type c_ident c_value c_init c_flags c_variability c_causality c_flux
         c_subscripts c_condition c_constraint c_description c_annotation truthy].
    eapply runs_conv; [runs_tac | text_eq | reflexivity].
Defined.

(** ** [pprint] *)

Lemma PrettyPrinter_init_world st ind width start draw w :
  snd (PrettyPrinter_init st ind width start draw w)
  = mkWorld (stdout w ++ warning_text draw) (sink w).
Proof.
  destruct w as [out snk], draw; simpl; [reflexivity | now rewrite append_nil_r].
Qed.

(** [pprint] through the log of [visit]: what [visit] writes from the
    starting indent is what [pprint] returns or appends, whatever the stream
    and whatever was written before. *)
Lemma pprint_of_visit format_spec o ind width start (r : Res unit) (log : Log) i' :
  runs_log start ind (visit format_spec o) r log i' ->
  forall stream draw w,
    pprint format_spec o stream draw ind width start w
    = match stream with
      | None =>
          (match r with Ok _ => Ok (Some (written log)) | Raise e => Raise e end,
           mkWorld (stdout w ++ warning_text draw ++ printed log) (sink w))
      | Some st =>
          (match r with Ok _ => Ok None | Raise e => Raise e end,
           flush st log (mkWorld (stdout w ++ warning_text draw) (sink w)))
      end.
Proof.
  intros Hr stream draw w. unfold pprint.
  destruct stream as [st|].
  - pose proof (PrettyPrinter_init_world st ind width start draw w) as Hw.
    destruct (PrettyPrinter_init st ind width start draw w) as [p w0] eqn:Einit.
    simpl in Hw. subst w0.
    assert (Hp : p = mkPrettyPrinter st ind width 0 0 start)
      by (unfold PrettyPrinter_init in Einit; now injection Einit).
    destruct (Hr p (mkWorld (stdout w ++ warning_text draw) (sink w))) as (p' & E & Hs & _);
      [now subst p | now subst p |].
    rewrite E. subst p. simpl. destruct r; reflexivity.
  - pose proof (PrettyPrinter_init_world Sink ind width start draw (mkWorld (stdout w) ""))
      as Hw.
    destruct (PrettyPrinter_init Sink ind width start draw (mkWorld (stdout w) ""))
      as [p w0] eqn:Einit.
    simpl in Hw. subst w0.
    assert (Hp : p = mkPrettyPrinter Sink ind width 0 0 start)
      by (unfold PrettyPrinter_init in Einit; now injection Einit).
    destruct (Hr p (mkWorld (stdout w ++ warning_text draw) "")) as (p' & E & Hs & _);
      [now subst p | now subst p |].
    rewrite E. subst p. cbn [stream]. rewrite flush_Sink. simpl.
    rewrite append_assoc. destruct r; reflexivity.
Qed.

Lemma pprint_log format_spec o ind width start :
  exists (r : Res unit) (log : Log),
    forall stream draw w,
      pprint format_spec o stream draw ind width start w
      = match stream with
        | None =>
            (match r with Ok _ => Ok (Some (written log)) | Raise e => Raise e end,
             mkWorld (stdout w ++ warning_text draw ++ printed log) (sink w))
        | Some st =>
            (match r with Ok _ => Ok None | Raise e => Raise e end,
             flush st log (mkWorld (stdout w ++ warning_text draw) (sink w)))
        end.
Proof.
  destruct (lframed_visit format_spec o start ind) as (r & log & i' & Hr).
  exists r, log. now apply pprint_of_visit with (i' := i').
Qed.

(** The text [visit] writes to the stream of the printer, for a node it
    writes nothing else for: the log of that run. *)
Lemma emits_at_log i ind (m : M unit) text (r : Res unit) (log : Log) i' :
  emits_at i ind m text -> runs_log i ind m r log i' ->
  r = Ok tt /\ written log = text /\ printed log = "".
Proof.
  intros He Hl.
  pose (p := mkPrettyPrinter Sink ind 0 0 0 i).
  destruct (He p (mkWorld "" "") eq_refl eq_refl) as (p1 & E1 & _).
  destruct (Hl p (mkWorld "" "") eq_refl eq_refl) as (p2 & E2 & _).
  rewrite E1 in E2. cbn [stream p] in E2. rewrite flush_Sink in E2.
  injection E2 as Er _ Eout Esnk. cbn in Eout, Esnk. auto.
Qed.


(** ** Rendering twice, and the store *)

(** What [pprint] returns and what it appends depend on the node and the
    options alone, not on what the streams hold. *)
Lemma pprint_appends format_spec o stream ind width start :
  exists (r : Res (option string)) (out snk : string),
    forall draw w,
      pprint format_spec o stream draw ind width start w
      = (r, mkWorld (stdout w ++ warning_text draw ++ out) (sink w ++ snk)).
Proof.
  destruct (pprint_log format_spec o ind width start) as (r & log & H).
  destruct stream as [[|]|].
  - eexists _, (everything log), "". intros draw w. rewrite H, flush_Stdout. simpl.
    now rewrite append_assoc, append_nil_r.
  - eexists _, (printed log), (written log). intros draw w. rewrite H, flush_Sink. simpl.
    now rewrite append_assoc.
  - eexists _, (printed log), "". intros draw w. rewrite H. now rewrite append_nil_r.
Qed.

Lemma sim_lift {A} h (m : M A) : sim h (liftH m) m.
Proof. intros s. unfold liftH. now destruct (m s). Qed.

Lemma sim_ret {A} h (a : A) : sim h (retH a) (ret a).
Proof. intros s. reflexivity. Qed.

Lemma sim_bind {A B} h (mh : MH A) (m : M A) (fh : A -> MH B) (f : A -> M B) :
  sim h mh m -> (forall a, sim h (fh a) (f a)) -> sim h (bindH mh fh) (bind m f).
Proof.
  intros Hm Hf s. unfold bindH, bind. rewrite Hm.
  destruct (m s) as [[a|e] s']; cbn [fst snd]; [apply Hf | reflexivity].
Qed.

Lemma sim_for_each {A B} h (bh : A -> MH unit) (b : B -> M unit) xs ys :
  Forall2 (fun x y => sim h (bh x) (b y)) xs ys ->
  sim h (for_each_ref bh xs) (for_each b ys).
Proof.
  induction 1 as [|x y xs ys Hxy _ IH]; cbn [for_each_ref for_each].
  - apply sim_ret.
  - apply sim_bind; [exact Hxy | intros _; exact IH].
Qed.

Lemma all_some_Forall2 {A B} (f : A -> option B) (xs : list A) (ys : list B) :
  all_some (map f xs) = Some ys -> Forall2 (fun x y => f x = Some y) xs ys.
Proof.
  revert ys. induction xs as [|x xs IH]; intros ys; cbn [map all_some].
  - intros [= <-]. constructor.
  - destruct (f x) as [y|] eqn:Hx; [|discriminate].
    destruct (all_some (map f xs)) as [r|]; [|discriminate].
    intros [= <-]. constructor; [exact Hx | now apply IH].
Qed.

Lemma sim_deref {A} h (l : Loc) (fh : Obj -> MH A) (m : M A) :
  sim h (fh (h l)) m -> sim h (bindH (deref l) fh) m.
Proof. intros H s. unfold bindH, deref. apply H. Qed.

Ltac sim_tac :=
  lazymatch goal with
  | |- sim _ (bindH _ _) (bind _ _) => apply sim_bind; [ sim_tac | intros; sim_tac ]
  | |- sim _ (liftH _) _ => apply sim_lift
  | |- sim _ (retH _) (ret _) => apply sim_ret
  | |- sim _ (for_each_ref _ _) (for_each _ _) => apply sim_for_each
  | |- sim _ _ _ => try eassumption
  end.

Lemma sim_visit_section h (vh : Loc -> MH unit) (v : Node -> M unit) keyword ls ns :
  Forall2 (fun l n => sim h (vh l) (v n)) ls ns ->
  sim h (visit_section_ref vh keyword ls) (visit_section v keyword ns).
Proof.
  intros H. unfold visit_section_ref, visit_section.
  destruct H as [|l n ls ns Hln H]; [apply sim_ret|].
  sim_tac. now constructor.
Qed.

(** A reference that stands for a tree is visited as the tree is, and the
    store is left as it is. *)
Lemma visit_ref_sim format_spec (fuel : nat) :
  forall (h : Store) (l : Loc) (node : Node),
    tree_at fuel h l = Some node ->
    sim h (visit_ref format_spec fuel l) (visit format_spec node).
Proof.
  induction fuel as [|fuel IH]; intros h l node Ht; [discriminate|].
  assert (Hlist : forall ls ns,
             all_some (map (tree_at fuel h) ls) = Some ns ->
             Forall2 (fun l n => sim h (visit_ref format_spec fuel l) (visit format_spec n))
                     ls ns).
  { intros ls ns H. apply all_some_Forall2 in H.
    eapply Forall2_impl; [|exact H]. intros l0 n0. apply IH. }
  cbn [tree_at] in Ht. cbv zeta in Ht. cbn [visit_ref]. apply sim_deref.
  destruct (h l) as [a|a|c|c|e|name|value|test body elseif orelse|m|path names|short long
                    |name|str|lines with_indent|w|type_name];
    try (injection Ht as <-; cbn [visit]; apply sim_lift).
  - destruct (tree_at fuel h test) as [test'|] eqn:Htest; [|discriminate].
    destruct (all_some (map (tree_at fuel h) body)) as [body'|] eqn:Hbody; [|discriminate].
    match type of Ht with
    | context [all_some (map ?f elseif)] =>
        destruct (all_some (map f elseif)) as [elseif'|] eqn:Helseif; [|discriminate]
    end.
    assert (Horelse : exists orelse',
               match orelse with
               | Some ls => option_map Some (all_some (map (tree_at fuel h) ls))
               | None => Some None
               end = Some orelse'
               /\ (orelse = None <-> orelse' = None)).
    { destruct orelse as [ls|].
      - destruct (all_some (map (tree_at fuel h) ls)); [|discriminate].
        eexists. split; [reflexivity|]. split; discriminate.
      - eexists. split; [reflexivity|]. tauto. }
    destruct Horelse as (orelse' & Eo & Hnone). rewrite Eo in Ht. injection Ht as <-.
    cbn [visit].
    assert (Hbody' : Forall2
               (fun l n =>
                  sim h (liftH (write "" true) ;;; visit_ref format_spec fuel l
                         ;;; liftH (print ";" false))
                        (write "" true ;; visit format_spec n ;; print ";" false))
               body body').
    { eapply Forall2_impl; [|exact (Hlist _ _ Hbody)]. intros l0 n0 H0. sim_tac. }
    apply all_some_Forall2 in Helseif.
    assert (Helseif' : Forall2
               (fun (b : Loc * list Loc) (b' : Node * list Node) =>
                  sim h
                    (let '(expr, eqs) := b in
                     liftH (write "elseif " true) ;;;
                     liftH (write "" true) ;;;
                     visit_ref format_spec fuel expr ;;;
                     liftH (write " then" false) ;;;
                     liftH (add_indent 1) ;;;
                     for_each_ref
                       (fun eq =>
                          liftH (write "" true) ;;; visit_ref format_spec fuel eq
                          ;;; liftH (print ";" false))
                       eqs ;;;
                     liftH (add_indent (-1)))
                    (let '(expr, eqs) := b' in
                     write "elseif " true ;;
                     write "" true ;;
                     visit format_spec expr ;;
                     write " then" false ;;
                     add_indent 1 ;;
                     for_each (fun eq => write "" true ;; visit format_spec eq ;; print ";" false)
                              eqs ;;
                     add_indent (-1)))
               elseif elseif').
    { eapply Forall2_impl; [|exact Helseif]. intros [expr eqs] [expr' eqs'] H0.
      cbn [fst snd] in H0.
      destruct (tree_at fuel h expr) as [e0|] eqn:He; [|discriminate].
      destruct (all_some (map (tree_at fuel h) eqs)) as [q0|] eqn:Hq; [|discriminate].
      injection H0 as <- <-. apply IH in He.
      sim_tac. eapply Forall2_impl; [|exact (Hlist _ _ Hq)]. intros l0 n0 H0. sim_tac. }
    apply IH in Htest.
    assert (Helse : sim h
               (match orelse with
                | Some _ => liftH (print "else" true) ;;; liftH (visit_default "list")
                | None => retH tt
                end)
               (match orelse' with
                | Some _ => print "else" true ;; visit_default "list"
                | None => ret tt
                end)).
    { destruct orelse, orelse'; try sim_tac.
      - destruct Hnone as [_ H0]. discriminate (H0 eq_refl).
      - destruct Hnone as [H0 _]. discriminate (H0 eq_refl). }
    sim_tac; assumption.
  - repeat match type of Ht with
           | context [all_some (map (tree_at fuel h) ?ls)] =>
               let ns := fresh "ns" in
               let H := fresh "Hs" in
               destruct (all_some (map (tree_at fuel h) ls)) as [ns|] eqn:H;
               [apply Hlist in H | discriminate]
           end.
    injection Ht as <-. cbn [visit]. unfold visit_Model_ref, visit_Model.
    cbn [m_ident m_description m_within m_flags m_annotation public_section
         protected_section initial_equations initial_algorithms equations algorithms].
    sim_tac; first [assumption | now apply sim_visit_section].
Qed.

Lemma keeps_lift {A} (m : M A) : keeps_store (liftH m).
Proof. intros s h. unfold liftH. now destruct (m s). Qed.

Lemma keeps_ret {A} (a : A) : keeps_store (retH a).
Proof. intros s h. reflexivity. Qed.

Lemma keeps_raise {A} e : keeps_store (@raiseH A e).
Proof. intros s h. reflexivity. Qed.

Lemma keeps_deref (l : Loc) : keeps_store (deref l).
Proof. intros s h. reflexivity. Qed.

Lemma keeps_bind {A B} (m : MH A) (f : A -> MH B) :
  keeps_store m -> (forall a, keeps_store (f a)) -> keeps_store (bindH m f).
Proof.
  intros Hm Hf s h. unfold bindH. specialize (Hm s h).
  destruct (m (s, h)) as [[a|e] [s' h']]; cbn [snd] in Hm; subst h'; [apply Hf | reflexivity].
Qed.

Lemma keeps_for_each {A} (body : A -> MH unit) (xs : list A) :
  (forall x, keeps_store (body x)) -> keeps_store (for_each_ref body xs).
Proof.
  intros H. induction xs as [|x xs IH]; cbn [for_each_ref].
  - apply keeps_ret.
  - apply keeps_bind; [apply H | intros _; exact IH].
Qed.

Ltac keeps_tac :=
  lazymatch goal with
  | |- keeps_store (bindH _ _) => apply keeps_bind; [ keeps_tac | intros; keeps_tac ]
  | |- keeps_store (liftH _) => apply keeps_lift
  | |- keeps_store (retH _) => apply keeps_ret
  | |- keeps_store (raiseH _) => apply keeps_raise
  | |- keeps_store (deref _) => apply keeps_deref
  | |- keeps_store (for_each_ref _ _) => apply keeps_for_each; intros; keeps_tac
  | |- keeps_store (match ?x with _ => _ end) => destruct x; keeps_tac
  | |- keeps_store _ => try solve [auto]
  end.

(** Whatever the store holds, and whether the visit ends or raises, [visit]
    on a reference leaves the store as it is. *)
Lemma keeps_visit_ref format_spec (fuel : nat) (l : Loc) :
  keeps_store (visit_ref format_spec fuel l).
Proof.
  revert l. induction fuel as [|fuel IH]; intros l; cbn [visit_ref].
  - apply keeps_raise.
  - unfold visit_Model_ref, visit_section_ref. keeps_tac.
Qed.

(** By contrast, an assignment to an object changes the store. *)
Lemma store_set_changes (l : Loc) (obj : Obj) (s : State) (h : Store) :
  h l <> obj -> snd (snd (store_set l obj (s, h))) <> h.
Proof.
  intros Hne Heq. apply Hne. cbn in Heq.
  apply (f_equal (fun f => f l)) in Heq. now rewrite Nat.eqb_refl in Heq.
Qed.

Lemma all_some_map_ext {A B} (f g : A -> option B) (xs : list A) (ys : list B) :
  (forall x y, f x = Some y -> g x = Some y) ->
  all_some (map f xs) = Some ys -> all_some (map g xs) = Some ys.
Proof.
  intros Hfg. revert ys. induction xs as [|x xs IH]; intros ys; cbn [map all_some]; [auto|].
  destruct (f x) as [y|] eqn:Hx; [|discriminate]. rewrite (Hfg _ _ Hx).
  destruct (all_some (map f xs)) as [r|]; [|discriminate].
  intros [= <-]. now rewrite (IH r eq_refl).
Qed.

(** More fuel reads the same tree. *)
Lemma tree_at_more (h : Store) (fuel : nat) :
  forall l node, tree_at fuel h l = Some node -> tree_at (S fuel) h l = Some node.
Proof.
  induction fuel as [|fuel IH]; intros l node Ht; [discriminate|].
  assert (Hlist : forall ls ns,
             all_some (map (tree_at fuel h) ls) = Some ns ->
             all_some (map (tree_at (S fuel) h) ls) = Some ns).
  { intros ls ns. apply all_some_map_ext. exact IH. }
  cbn [tree_at] in Ht. cbv zeta in Ht.
  remember (S fuel) as fuel1 eqn:Hfuel1.
  cbn [tree_at]. cbv zeta.
  destruct (h l) as [a|a|c|c|e|name|value|test body elseif orelse|m|path names|short long
                    |name|str|lines with_indent|w|type_name];
    try exact Ht.
  - destruct (tree_at fuel h test) as [test'|] eqn:Htest; [|discriminate].
    destruct (all_some (map (tree_at fuel h) body)) as [body'|] eqn:Hbody; [|discriminate].
    match type of Ht with
    | context [all_some (map ?f elseif)] =>
        destruct (all_some (map f elseif)) as [elseif'|] eqn:Helseif; [|discriminate]
    end.
    rewrite (IH _ _ Htest), (Hlist _ _ Hbody).
    match goal with
    | |- context [all_some (map ?g elseif)] =>
        assert (Hg : all_some (map g elseif) = Some elseif')
    end.
    { eapply all_some_map_ext; [|exact Helseif]. intros [expr eqs] [expr' eqs'].
      cbn [fst snd].
      destruct (tree_at fuel h expr) as [e0|] eqn:He; [|discriminate].
      destruct (all_some (map (tree_at fuel h) eqs)) as [q0|] eqn:Hq; [|discriminate].
      intros [= <- <-]. now rewrite (IH _ _ He), (Hlist _ _ Hq). }
    rewrite Hg. destruct orelse as [ls|]; [|exact Ht].
    destruct (all_some (map (tree_at fuel h) ls)) as [r|] eqn:Hr; [|discriminate].
    now rewrite (Hlist _ _ Hr).
  - repeat match type of Ht with
           | context [all_some (map (tree_at fuel h) ?ls)] =>
               let ns := fresh "ns" in
               let H := fresh "Hs" in
               destruct (all_some (map (tree_at fuel h) ls)) as [ns|] eqn:H;
               [rewrite (Hlist _ _ H) | discriminate]
           end.
    exact Ht.
Qed.

Lemma pprint_ref_sim format_spec fuel (h : Store) (o : Loc) (tree : Node)
      stream draw ind width start (w : World) :
  tree_at fuel h o = Some tree ->
  pprint_ref format_spec fuel o stream draw ind width start w h
  = (fst (pprint format_spec tree stream draw ind width start w),
     (snd (pprint format_spec tree stream draw ind width start w), h)).
Proof.
  intros Ht. pose proof (visit_ref_sim format_spec fuel h o tree Ht) as Hsim.
  unfold pprint_ref, pprint. destruct stream as [st|]; cbv zeta; rewrite Hsim;
    match goal with
    | |- context [visit format_spec tree ?s] =>
        destruct (visit format_spec tree s) as [[[]|e] [p' w']]; reflexivity
    end.
Qed.


(** A model whose sections share a component, with an if-equation, in a
    store, and what it is rendered as. *)
Example pprint_ref_shared :
  let x := mkComponent "Real" "x" SNone [] None None None None [] None None None [] in
  let h : Store :=
    fun l =>
      match l with
      | 0%nat => OModel (mkModel "M" None None None [] [("x", x)]
                                 [1%nat] [1%nat] [] [] [2%nat] [])
      | 1%nat => OComponent x
      | 2%nat => OIfEquation 3%nat [4%nat] [] None
      | 3%nat => OExpression "x > 0"
      | _ => OExpression "x = 1"
      end in
  pprint_ref no_format_spec 3%nat 0%nat None false "  " 80 0 (mkWorld "" "") h
  = (Ok (Some ("model M" ++ nl ++ "  Real x;" ++ nl ++ "protected" ++ nl ++ "  Real x;" ++ nl
               ++ "equation" ++ nl ++ "  if x > 0 then" ++ nl ++ "    x = 1;" ++ nl
               ++ "  end if;" ++ nl ++ "end M;" ++ nl)),
     (mkWorld "" "", h))
  /\ tree_at 3%nat h 0%nat
     = Some (NModel (mkModel "M" None None None [] [("x", x)]
                             [NComponent x] [NComponent x] [] []
                             [NIfEquation (NExpression "x > 0") [NExpression "x = 1"] [] None]
                             []))
  /\ fst (pprint_ref no_format_spec 2%nat 0%nat None false "  " 80 0 (mkWorld "" "") h)
     = Raise (RecursionError "maximum recursion depth exceeded").
Proof. repeat split. Qed.

(** * More properties *)

(** ** Which trees render *)

Lemma succeeds_ret {A} (a : A) : succeeds_iff true (ret a).
Proof. intros s. reflexivity. Qed.

Lemma succeeds_raise {A} e : succeeds_iff false (@raise A e).
Proof. intros s. reflexivity. Qed.

Lemma succeeds_lift {A} (r : Res A) : succeeds_iff (is_ok r) (lift r).
Proof. intros s. reflexivity. Qed.

Lemma succeeds_bind {A B} b b1 b2 (m : M A) (f : A -> M B) :
  succeeds_iff b1 m -> (forall a, succeeds_iff b2 (f a)) -> b = b1 && b2 ->
  succeeds_iff b (bind m f).
Proof.
  intros Hm Hf -> s. unfold bind. specialize (Hm s).
  destruct (m s) as [[a|e] s']; simpl in *; subst b1; simpl; [apply Hf | reflexivity].
Qed.

Lemma succeeds_write s b : succeeds_iff true (write s b).
Proof. intros [p w]. unfold write, _write, bind. destruct b; reflexivity. Qed.

Lemma succeeds_print s b : succeeds_iff true (print s b).
Proof. intros [p w]. unfold print, _write, bind. destruct b; reflexivity. Qed.

Lemma succeeds_add_indent d : succeeds_iff true (add_indent d).
Proof. intros [p w]. reflexivity. Qed.

Lemma succeeds_builtin_print s : succeeds_iff true (builtin_print s).
Proof. intros [p w]. reflexivity. Qed.

Lemma succeeds_conv {A} b b' (m : M A) : succeeds_iff b m -> b = b' -> succeeds_iff b' m.
Proof. now intros H <-. Qed.

Lemma succeeds_for_each {A} (body : A -> M unit) (ok : A -> bool) (xs : list A) :
  Forall (fun x => succeeds_iff (ok x) (body x)) xs ->
  succeeds_iff (forallb ok xs) (for_each body xs).
Proof.
  induction 1 as [|x xs Hx _ IH]; simpl.
  - apply succeeds_ret.
  - eapply succeeds_bind; [exact Hx | intros; exact IH | reflexivity].
Qed.

Lemma succeeds_for_head_then_last {A} (each final : A -> M unit) (head_ok last_ok : A -> bool)
    (xs : list A) :
  Forall (fun x => succeeds_iff (head_ok x) (each x)) xs ->
  Forall (fun x => succeeds_iff (last_ok x) (final x)) xs ->
  succeeds_iff (heads_and_last head_ok last_ok xs) (for_head_then_last each final xs).
Proof.
  intros He Hf. induction xs as [|x xs IH].
  - apply succeeds_ret.
  - inversion He as [|? ? Hex Hexs]; inversion Hf as [|? ? Hfx Hfxs]; subst.
    destruct xs as [|y xs]; [exact Hfx|].
    change (for_head_then_last each final (x :: y :: xs))
      with (each x ;; for_head_then_last each final (y :: xs)).
    change (heads_and_last head_ok last_ok (x :: y :: xs))
      with (head_ok x && heads_and_last head_ok last_ok (y :: xs)).
    eapply succeeds_bind; [exact Hex | intros; apply IH; assumption | reflexivity].
Qed.

(** A proof of [succeeds_iff] by the shape of the method; the boolean is
    compared afterwards. *)
Ltac succeeds_tac :=
  lazymatch goal with
  | |- succeeds_iff _ (bind _ _) =>
      eapply succeeds_bind; [ succeeds_tac | intros; succeeds_tac | reflexivity ]
  | |- succeeds_iff _ (ret _) => apply succeeds_ret
  | |- succeeds_iff _ (raise _) => apply succeeds_raise
  | |- succeeds_iff _ (visit_default _) => apply succeeds_raise
  | |- succeeds_iff _ (lift _) => apply succeeds_lift
  | |- succeeds_iff _ (write _ _) => apply succeeds_write
  | |- succeeds_iff _ (print _ _) => apply succeeds_print
  | |- succeeds_iff _ (add_indent _) => apply succeeds_add_indent
  | |- succeeds_iff _ (builtin_print _) => apply succeeds_builtin_print
  | |- succeeds_iff _ _ =>
      first [ eassumption
            | match goal with H : forall _, succeeds_iff _ _ |- _ => apply H end
            | lazymatch goal with
              | |- succeeds_iff _ (match ?x with _ => _ end) => destruct x; succeeds_tac
              end ]
  end.

Lemma heads_and_last_same {A} (ok : A -> bool) (xs : list A) :
  heads_and_last ok ok xs = forallb ok xs.
Proof.
  induction xs as [|x [|y l] IHl]; simpl in *; auto.
  - now rewrite andb_true_r.
  - now rewrite IHl.
Qed.

Lemma succeeds_write_annotation (anno : Anno) :
  succeeds_iff (writable_anno anno) (write_annotation anno).
Proof.
  induction anno as [items IH|elems IH|elems|elems|v] using Anno_induction.
  - destruct items as [|[k v] [|kv rest]]; cbn [write_annotation writable_anno forallb snd].
    + apply succeeds_ret.
    + inversion IH; subst. cbn [snd] in *.
      eapply succeeds_conv; [succeeds_tac | now rewrite andb_true_r].
    + inversion IH as [|? ? Hv Hrest]; subst. cbn [snd] in *.
      assert (Hloop : succeeds_iff (forallb (fun kv => writable_anno (snd kv)) (kv :: rest))
                (for_head_then_last
                   (fun '(k, v) => write k true ;; write_annotation v ;; print "," false)
                   (fun '(k, v) => write k true ;; write_annotation v)
                   (kv :: rest))).
      { eapply succeeds_conv.
        - apply (succeeds_for_head_then_last _ _
                   (fun kv => writable_anno (snd kv)) (fun kv => writable_anno (snd kv)));
            (eapply Forall_impl; [|exact Hrest]); intros [k' v'] Hv'; cbn [snd] in *;
            (eapply succeeds_conv; [succeeds_tac | now rewrite ?andb_true_r]).
        - clear. induction (kv :: rest) as [|x [|y l] IHl]; simpl in *; auto.
          + now rewrite andb_true_r.
          + now rewrite IHl. }
      eapply succeeds_conv; [succeeds_tac |].
      cbn [andb]. now rewrite !andb_true_r.
  - destruct elems as [|d elems]; [apply succeeds_write|].
    cbn [write_annotation]. change (writable_anno (ADictList (d :: elems)))
      with (heads_and_last
              (fun e => match e with [(_, value)] => writable_anno value | _ => false end)
              (fun e => match e with (_, value) :: _ => writable_anno value | [] => false end)
              (d :: elems)).
    assert (Hloop : succeeds_iff
              (heads_and_last
                 (fun e => match e with [(_, value)] => writable_anno value | _ => false end)
                 (fun e => match e with (_, value) :: _ => writable_anno value | [] => false end)
                 (d :: elems))
              (for_head_then_last
                 (fun e =>
                    match e with
                    | [(name, value)] =>
                        write name true ;; write_annotation value ;; print "," true
                    | _ => raise (AssertionError "only one object per array element allowed")
                    end)
                 (fun e =>
                    match e with
                    | (name, value) :: _ => write name true ;; write_annotation value
                    | [] => raise (IndexError "list index out of range")
                    end)
                 (d :: elems))).
    { apply succeeds_for_head_then_last; (eapply Forall_impl; [|exact IH]); intros e He.
      - destruct e as [|[name value] [|]]; try apply succeeds_raise.
        inversion He; subst. cbn [snd] in *.
        eapply succeeds_conv; [succeeds_tac | now rewrite andb_true_r].
      - destruct e as [|[name value] e]; try apply succeeds_raise.
        inversion He; subst. cbn [snd] in *.
        eapply succeeds_conv; [succeeds_tac | reflexivity]. }
    eapply succeeds_conv; [succeeds_tac |]. cbn [andb]. now rewrite !andb_true_r.
  - destruct elems as [|e elems]; [apply succeeds_write|].
    cbn [write_annotation writable_anno].
    assert (Hloop : succeeds_iff (heads_and_last (fun _ => true) (fun _ => true) (e :: elems))
              (for_head_then_last
                 (fun e => write ("{" ++ join "," (map py_str e) ++ "}") false ;; write "," false)
                 (fun e => write ("{" ++ join "," (map py_str e) ++ "}") false)
                 (e :: elems))).
    { apply succeeds_for_head_then_last; apply Forall_forall; intros x _.
      - eapply succeeds_conv; [succeeds_tac | reflexivity].
      - apply succeeds_write. }
    eapply succeeds_conv; [succeeds_tac |]. cbn [andb]. rewrite andb_true_r.
    clear. induction (e :: elems) as [|x [|y l] IHl]; simpl in *; auto.
  - destruct elems; apply succeeds_write.
  - destruct v as [|[|]| | |]; apply succeeds_write.
Qed.

Lemma succeeds_write_dict (write_entry : string -> Value -> M unit) (ok : Value -> bool)
    key (lst : Dict Value) :
  Forall (fun kv => forall k, succeeds_iff (ok (snd kv)) (write_entry k (snd kv))) lst ->
  succeeds_iff (forallb (fun kv => ok (snd kv)) lst) (write_dict write_entry key lst).
Proof.
  intros H. unfold write_dict.
  destruct lst as [|[k0 v0] [|[k1 v1] [|kv rest]]].
  - eapply succeeds_conv; [succeeds_tac | reflexivity].
  - inversion H as [|? ? Hv0 H']; subst. cbn [snd forallb] in *.
    pose proof (Hv0 k0). eapply succeeds_conv; [succeeds_tac | now rewrite !andb_true_r].
  - inversion H as [|? ? Hv0 H']; inversion H' as [|? ? Hv1 H'']; subst.
    cbn [snd forallb] in *.
    pose proof (Hv0 k0). pose proof (Hv1 k1).
    eapply succeeds_conv; [succeeds_tac | now rewrite !andb_true_r].
  - inversion H as [|? ? Hv0 H']; subst. cbn [snd] in *.
    pose proof (Hv0 k0) as Hfirst.
    assert (Hloop : succeeds_iff (forallb (fun kv => ok (snd kv)) ((k1, v1) :: kv :: rest))
              (for_head_then_last
                 (fun '(k, v) => write "" true ;; write_entry k v ;; print "," false)
                 (fun '(k, v) => write "" true ;; write_entry k v)
                 ((k1, v1) :: kv :: rest))).
    { rewrite <- heads_and_last_same.
      apply succeeds_for_head_then_last;
        (eapply Forall_impl; [|exact H']); intros [k v] Hv; cbn [snd] in *;
        pose proof (Hv k);
        (eapply succeeds_conv; [succeeds_tac | now rewrite ?andb_true_r]). }
    eapply succeeds_conv; [succeeds_tac |].
    cbn [andb forallb snd]. now rewrite !andb_true_r.
Qed.

Lemma succeeds_write_key_value format_spec (value : Value) :
  forall key, succeeds_iff (writable_value format_spec value)
                           (write_key_value format_spec key value).
Proof.
  induction value as [v|items IH|a IH|elems|type_name] using Value_induction; intros key.
  - destruct v as [|[|]| | |]; apply succeeds_write.
  - cbn [write_key_value writable_value].
    apply (succeeds_write_dict _ (writable_value format_spec)). exact IH.
  - cbn [write_key_value writable_value].
    pose proof (succeeds_write_dict _ (writable_value format_spec) key (a_init a) IH) as Hd.
    pose proof (succeeds_write_annotation (ADict (a_annotation a))) as Ha.
    cbn [writable_anno] in Ha.
    destruct a as [value init fmt flags description annotation type]; cbn [a_flags a_type
      a_init a_value a_description a_annotation] in *.
    assert (Hinit : succeeds_iff (forallb (fun kv => writable_value format_spec (snd kv)) init)
              (if truthy init
               then write_dict (write_key_value format_spec) key init
               else write key false)).
    { destruct init; [apply succeeds_write | exact Hd]. }
    assert (Hanno : succeeds_iff (forallb (fun kv => writable_anno (snd kv)) annotation)
              (if truthy annotation
               then write " annotation" false ;; write_annotation (ADict annotation)
               else ret tt)).
    { destruct annotation as [|x annotation]; [apply succeeds_ret|].
      cbn [truthy]. eapply succeeds_conv; [succeeds_tac | reflexivity]. }
    eapply succeeds_conv.
    + eapply succeeds_bind; [|intros; eapply succeeds_bind; [|intros; eapply succeeds_bind;
        [exact Hinit | intros; eapply succeeds_bind; [|intros; eapply succeeds_bind;
          [|intros; exact Hanno|reflexivity]|reflexivity] | reflexivity]|reflexivity]|reflexivity].
      * destruct flags; [apply succeeds_write | apply succeeds_ret].
      * destruct type as [[|c t]|]; [apply succeeds_ret | apply succeeds_write | apply succeeds_ret].
      * instantiate (1 := match value with
                          | SNone => true
                          | _ => is_ok (Assign_str format_spec
                                          (mkAssign value init fmt flags description annotation type))
                          end).
        destruct value; try apply succeeds_ret;
          (eapply succeeds_conv;
           [eapply succeeds_bind; [apply succeeds_lift | intros; destruct (truthy init);
                                    apply succeeds_write | reflexivity]
           | now rewrite andb_true_r]).
      * instantiate (1 := true). destruct description; [apply succeeds_write | apply succeeds_ret].
    + cbn [andb]. now rewrite ?andb_true_r, ?andb_assoc.
  - apply succeeds_write.
  - apply succeeds_raise.
Qed.

Lemma succeeds_visit_Annotation (d : Dict Anno) :
  succeeds_iff (writable_annotation d) (visit_Annotation d).
Proof.
  unfold visit_Annotation.
  pose proof (succeeds_write_annotation (ADict d)) as H. cbn [writable_anno] in H.
  eapply succeeds_conv; [succeeds_tac | reflexivity].
Qed.

Lemma succeeds_if_annotation (d : Dict Anno) :
  succeeds_iff (writable_annotation d)
               (if truthy d then write " " false ;; visit_Annotation d else ret tt).
Proof.
  pose proof (succeeds_visit_Annotation d) as H.
  destruct d as [|x d]; [apply succeeds_ret|]. cbn [truthy].
  eapply succeeds_conv; [succeeds_tac | reflexivity].
Qed.

Lemma succeeds_visit_Component format_spec (c : Component) :
  succeeds_iff (renderable format_spec (NComponent c)) (visit_Component format_spec c).
Proof.
  unfold visit_Component, write_component_flags. cbn [renderable].
  pose proof (succeeds_if_annotation (c_annotation c)) as Hanno.
  assert (Hinit : succeeds_iff
            (forallb (fun kv => writable_value format_spec (snd kv)) (c_init c))
            (if truthy (c_init c)
             then write_key_value format_spec "" (VDict (c_init c))
             else ret tt)).
  { pose proof (succeeds_write_key_value format_spec (VDict (c_init c)) "") as H.
    cbn [writable_value] in H. destruct (c_init c); [apply succeeds_ret | exact H]. }
  assert (Hcons : succeeds_iff
            (match c_constraint c with Some _ => false | None => true end)
            (match c_constraint c with
             | Some _ => raise (NotImplementedError "constraints are not yet implemented")
             | None => ret tt
             end)).
  { destruct (c_constraint c); [apply succeeds_raise | apply succeeds_ret]. }
  assert (Hvalue : succeeds_iff true
            (match c_value c with
             | SNone => ret tt
             | v =>
                 let spacing := if truthy (c_init c) then " " else "" in
                 write (spacing ++ "=" ++ spacing) false ;; write (py_str v) false
             end)).
  { destruct (c_value c); cbv zeta; try apply succeeds_ret;
      (eapply succeeds_conv; [succeeds_tac | reflexivity]). }
  eapply succeeds_conv; [succeeds_tac |].
  cbn [andb]. now rewrite ?andb_true_r, ?andb_assoc.
Qed.

Lemma succeeds_visit_section {N} (visit : N -> M unit) (ok : N -> bool) keyword
    (section : list N) :
  Forall (fun x => succeeds_iff (ok x) (visit x)) section ->
  succeeds_iff (forallb ok section) (visit_section visit keyword section).
Proof.
  intros H. unfold visit_section.
  pose proof (succeeds_for_each visit ok section H) as Hloop.
  destruct section as [|x section]; [apply succeeds_ret|].
  eapply succeeds_conv; [succeeds_tac | reflexivity].
Qed.

(** X1.  [visit] succeeds on exactly the renderable nodes, from whatever
    state it starts: a node of a type without a [visit_] method, a component
    with a constraint, an [IfEquation] with an [else] branch, an object of an
    unknown type among the modifications, a list of dictionaries in an
    annotation with a dictionary of the wrong size, or an [Assign] whose
    value cannot be formatted, anywhere in the tree, make it raise; nothing
    else does. *)
Theorem visit_succeeds_on_renderable :
  forall format_spec (node : Node) (s : State),
    is_ok (fst (visit format_spec node s)) = renderable format_spec node.
Proof.
  intros format_spec node. change (succeeds_iff (renderable format_spec node)
                                                (visit format_spec node)).
  induction node as [a|a|c|c|e|name|value|test body elseif orelse IHtest IHbody IHelseif
                    |m IH|path names|short long|name|s|lines with_indent|w|type_name]
    using Node_induction; cbn [visit].
  - unfold visit_Algorithm. cbn [renderable].
    assert (Ha : succeeds_iff
              (match alg_annotation a with Some d => writable_annotation d | None => true end)
              (match alg_annotation a with
               | Some a0 => write " " false ;; visit_Annotation a0
               | None => ret tt
               end)).
    { destruct (alg_annotation a) as [d|]; [|apply succeeds_ret].
      pose proof (succeeds_visit_Annotation d).
      eapply succeeds_conv; [succeeds_tac | reflexivity]. }
    eapply succeeds_conv; [succeeds_tac |]. cbn [andb]. now rewrite ?andb_true_r.
  - unfold visit_Assign. cbn [renderable].
    eapply succeeds_conv; [succeeds_tac | now rewrite andb_true_r].
  - apply succeeds_visit_Component.
  - unfold visit_Connect, visit_Description. cbn [renderable].
    pose proof (succeeds_if_annotation (con_annotation c)).
    eapply succeeds_conv; [succeeds_tac |]. cbn [andb]. now rewrite ?andb_true_r.
  - unfold visit_Equation. cbn [renderable].
    pose proof (succeeds_if_annotation (eq_annotation e)).
    eapply succeeds_conv; [succeeds_tac |]. cbn [andb]. now rewrite ?andb_true_r.
  - apply succeeds_print.
  - apply succeeds_write.
  - cbn [renderable].
    assert (Hbody : succeeds_iff (forallb (renderable format_spec) body)
              (for_each (fun eq => write "" true ;; visit format_spec eq ;; print ";" false)
                        body)).
    { apply succeeds_for_each. eapply Forall_impl; [|exact IHbody]. intros eq Heq.
      cbv beta in *. eapply succeeds_conv; [succeeds_tac | now rewrite andb_true_r]. }
    assert (Helseif : succeeds_iff
              (forallb (fun b => renderable format_spec (fst b)
                                 && forallb (renderable format_spec) (snd b)) elseif)
              (for_each
                 (fun '(expr, eqs) =>
                    write "elseif " true ;;
                    write "" true ;;
                    visit format_spec expr ;;
                    write " then" false ;;
                    add_indent 1 ;;
                    for_each (fun eq => write "" true ;; visit format_spec eq ;; print ";" false)
                             eqs ;;
                    add_indent (-1))
                 elseif)).
    { apply succeeds_for_each. eapply Forall_impl; [|exact IHelseif].
      intros [expr eqs] [Hexpr Heqs]. cbn [fst snd] in *.
      assert (Hloop : succeeds_iff (forallb (renderable format_spec) eqs)
                (for_each (fun eq => write "" true ;; visit format_spec eq ;; print ";" false)
                          eqs)).
      { apply succeeds_for_each. eapply Forall_impl; [|exact Heqs]. intros eq Heq.
        cbv beta in *. eapply succeeds_conv; [succeeds_tac | now rewrite andb_true_r]. }
      eapply succeeds_conv; [succeeds_tac |]. cbn [andb]. now rewrite ?andb_true_r. }
    assert (Hels : succeeds_iff (match orelse with Some _ => false | None => true end)
              (match orelse with
               | Some _ => print "else" true ;; visit_default "list"
               | None => ret tt
               end)).
    { destruct orelse; [|apply succeeds_ret].
      eapply succeeds_conv; [succeeds_tac | reflexivity]. }
    eapply succeeds_conv; [succeeds_tac |].
    cbn [andb]. now rewrite ?andb_true_r, ?andb_assoc.
  - unfold sections_of in IH.
    repeat match goal with
           | H : Forall _ (_ :: _) |- _ => inversion H; subst; clear H
           end.
    unfold visit_Model, visit_Within, write_model_flags. cbn [renderable].
    repeat match goal with
           | H : Forall (fun node => succeeds_iff _ _) ?sec |- _ =>
               pose proof (succeeds_for_each _ _ _ H);
               pose proof (fun kw => succeeds_visit_section (visit format_spec)
                                       (renderable format_spec) kw sec H);
               clear H
           end.
    assert (Hanno : succeeds_iff (writable_annotation (m_annotation m))
              (if truthy (m_annotation m)
               then visit_Annotation (m_annotation m) ;; print ";" false
               else ret tt)).
    { pose proof (succeeds_visit_Annotation (m_annotation m)) as Hva.
      destruct (m_annotation m); [apply succeeds_ret|]. cbn [truthy].
      eapply succeeds_conv; [succeeds_tac | now rewrite andb_true_r]. }
    eapply succeeds_conv; [succeeds_tac |].
    cbn [andb]. now rewrite ?andb_true_r, ?andb_assoc.
  - apply succeeds_print.
  - apply succeeds_print.
  - apply succeeds_print.
  - apply succeeds_write.
  - cbn [renderable]. eapply succeeds_conv.
    + apply (succeeds_for_each _ (fun _ => true)). apply Forall_forall. intros x _.
      cbv beta. apply succeeds_print.
    + induction lines; simpl; auto.
  - unfold visit_Within. cbn [renderable]. succeeds_tac.
  - apply succeeds_raise.
Qed.

(** ** The indent and the character count *)

Lemma length_append (a b : string) :
  String.length (a ++ b) = (String.length a + String.length b)%nat.
Proof. induction a as [|c a IH]; simpl; [reflexivity | now rewrite IH]. Qed.

Lemma written_app (l1 l2 : Log) : written (l1 ++ l2)%list = written l1 ++ written l2.
Proof.
  induction l1 as [|[[|] s] l1 IH]; simpl; [reflexivity | | exact IH].
  now rewrite IH, append_assoc.
Qed.

Lemma tracks_ret {A} (a : A) : tracks 0 (ret a).
Proof.
  intros p w. exists (Ok a), p, []. simpl. repeat split; lia.
Qed.

Lemma tracks_raise {A} d e : tracks d (@raise A e).
Proof.
  intros p w. exists (Raise e), p, []. simpl. repeat split; try lia; try discriminate.
Qed.

Lemma tracks_lift {A} (r : Res A) : tracks 0 (lift r).
Proof.
  intros p w. exists r, p, []. simpl. repeat split; lia.
Qed.

Lemma tracks_add_indent d : tracks d (add_indent d).
Proof.
  intros p w. eexists (Ok tt), _, []. simpl. repeat split; simpl; lia.
Qed.

Lemma tracks_builtin_print s : tracks 0 (builtin_print s).
Proof.
  intros p w. exists (Ok tt), p, [(false, s ++ nl)]. simpl. repeat split; lia.
Qed.

Lemma tracks_write s b : tracks 0 (write s b).
Proof.
  intros p w.
  exists (Ok tt).
  unfold write, _write, bind, indent_prefix, stream_write, add_charcount, set_curpos, ret.
  destruct b; simpl;
    (eexists _, [(true, _)]; split; [reflexivity|]; simpl;
     rewrite append_nil_r; repeat split; lia).
Qed.

Lemma tracks_print s b : tracks 0 (print s b).
Proof.
  intros p w.
  exists (Ok tt).
  unfold print, _write, bind, indent_prefix, stream_write, add_charcount, set_curpos, ret.
  destruct b; simpl;
    (eexists _, [(true, _)]; split; [reflexivity|]; simpl;
     rewrite append_nil_r; repeat split; lia).
Qed.

Lemma tracks_bind {A B} d d1 d2 (m : M A) (f : A -> M B) :
  tracks d1 m -> (forall a, tracks d2 (f a)) -> d = d1 + d2 -> tracks d (bind m f).
Proof.
  intros Hm Hf -> p w.
  destruct (Hm p w) as ([a|e] & p1 & l1 & E1 & Hs1 & Hd1 & Hw1 & Hc1 & Hi1).
  - destruct (Hf a p1 (flush (stream p) l1 w))
      as (r & p2 & l2 & E2 & Hs2 & Hd2 & Hw2 & Hc2 & Hi2).
    exists r, p2, (l1 ++ l2)%list. unfold bind. rewrite E1, E2, Hs1, flush_app.
    rewrite written_app, length_append, Nat2Z.inj_add.
    repeat split; try congruence; try lia.
    intros Hok. rewrite (Hi2 Hok), (Hi1 eq_refl). lia.
  - exists (Raise e), p1, l1. unfold bind. rewrite E1.
    repeat split; try assumption. discriminate.
Qed.

Lemma tracks_for_each {A} (body : A -> M unit) (xs : list A) :
  Forall (fun x => tracks 0 (body x)) xs -> tracks 0 (for_each body xs).
Proof.
  induction 1 as [|x xs Hx _ IH]; simpl.
  - apply tracks_ret.
  - eapply tracks_bind; [exact Hx | intros; exact IH | reflexivity].
Qed.

Lemma tracks_for_head_then_last {A} (each final : A -> M unit) (xs : list A) :
  Forall (fun x => tracks 0 (each x)) xs ->
  Forall (fun x => tracks 0 (final x)) xs ->
  tracks 0 (for_head_then_last each final xs).
Proof.
  intros He Hf. induction xs as [|x xs IH]; simpl.
  - apply tracks_ret.
  - inversion He as [|? ? Hex Hexs]; inversion Hf as [|? ? Hfx Hfxs]; subst.
    destruct xs as [|y xs]; [exact Hfx|].
    eapply tracks_bind; [exact Hex | intros; apply IH; assumption | reflexivity].
Qed.

Create HintDb tracks.

Ltac tracks_tac :=
  lazymatch goal with
  | |- tracks _ (bind _ _) =>
      eapply tracks_bind; [ tracks_tac | intros; tracks_tac | try reflexivity ]
  | |- tracks _ (ret _) => apply tracks_ret
  | |- tracks _ (raise _) => apply tracks_raise
  | |- tracks _ (visit_default _) => apply tracks_raise
  | |- tracks _ (lift _) => apply tracks_lift
  | |- tracks _ (write _ _) => apply tracks_write
  | |- tracks _ (print _ _) => apply tracks_print
  | |- tracks _ (add_indent _) => apply tracks_add_indent
  | |- tracks _ (builtin_print _) => apply tracks_builtin_print
  | |- tracks _ (for_each _ _) => apply tracks_for_each; try assumption
  | |- tracks _ (for_head_then_last _ _ _) => apply tracks_for_head_then_last
  | |- tracks _ (match ?x with _ => _ end) => destruct x; tracks_tac
  | |- tracks _ _ => try (cbn [fst snd] in *; eauto with tracks)
  end.

Lemma tracks_write_annotation (anno : Anno) : tracks 0 (write_annotation anno).
Proof.
  induction anno as [items IH|elems IH|elems|elems|v] using Anno_induction.
  - destruct items as [|[k v] [|kv rest]]; cbn [write_annotation].
    + apply tracks_ret.
    + inversion IH; subst. tracks_tac.
    + inversion IH as [|? ? Hv Hrest]; subst.
      tracks_tac; (eapply Forall_impl; [|exact Hrest]); intros [k' v'] Hv'; tracks_tac.
  - destruct elems as [|d elems]; [apply tracks_write|].
    cbn [write_annotation].
    tracks_tac; (eapply Forall_impl; [|exact IH]); intros e He.
    + destruct e as [|[name value] [|]]; try apply tracks_raise.
      inversion He; subst. tracks_tac.
    + destruct e as [|[name value] e]; try apply tracks_raise.
      inversion He; subst. tracks_tac.
  - destruct elems as [|e elems]; [apply tracks_write|].
    cbn [write_annotation].
    tracks_tac; apply Forall_forall; intros x _; tracks_tac.
  - destruct elems; apply tracks_write.
  - destruct v as [|[|]| | |]; apply tracks_write.
Qed.
#[export] Hint Resolve tracks_write_annotation : tracks.

Lemma tracks_write_dict (write_entry : string -> Value -> M unit) key (lst : Dict Value) :
  Forall (fun kv => forall k, tracks 0 (write_entry k (snd kv))) lst ->
  tracks 0 (write_dict write_entry key lst).
Proof.
  intros H. unfold write_dict.
  destruct lst as [|[k0 v0] [|[k1 v1] [|kv rest]]].
  - tracks_tac.
  - inversion H; subst. tracks_tac.
  - inversion H as [|? ? H0 H']; inversion H'; subst. tracks_tac.
  - inversion H as [|? ? H0 H']; subst.
    tracks_tac; (eapply Forall_impl; [|exact H']); intros [k v] Hv; tracks_tac.
Qed.
#[export] Hint Resolve tracks_write_dict : tracks.

Lemma tracks_write_key_value format_spec (value : Value) :
  forall key, tracks 0 (write_key_value format_spec key value).
Proof.
  induction value as [v|items IH|a IH|elems|type_name] using Value_induction; intros key.
  - destruct v as [|[|]| | |]; apply tracks_write.
  - cbn [write_key_value]. now apply tracks_write_dict.
  - cbn [write_key_value]. tracks_tac.
  - apply tracks_write.
  - apply tracks_raise.
Qed.
#[export] Hint Resolve tracks_write_key_value : tracks.

Lemma tracks_visit_section {N} (visit : N -> M unit) keyword (section : list N) :
  Forall (fun x => tracks 0 (visit x)) section ->
  tracks 0 (visit_section visit keyword section).
Proof.
  intros H. unfold visit_section. destruct section as [|x section]; tracks_tac.
Qed.
#[export] Hint Resolve tracks_visit_section : tracks.

Lemma tracks_visit format_spec (node : Node) : tracks 0 (visit format_spec node).
Proof.
  induction node as [a|a|c|c|e|name|value|test body elseif orelse IHtest IHbody IHelseif
                    |m IH|path names|short long|name|s|lines with_indent|w|type_name]
    using Node_induction; cbn [visit].
  - unfold visit_Algorithm, visit_Annotation. tracks_tac.
  - unfold visit_Assign. tracks_tac.
  - unfold visit_Component, visit_Annotation, write_component_flags. tracks_tac.
  - unfold visit_Connect, visit_Description, visit_Annotation. tracks_tac.
  - unfold visit_Equation, visit_Annotation. tracks_tac.
  - tracks_tac.
  - tracks_tac.
  - tracks_tac.
    + eapply Forall_impl; [|exact IHbody]. intros eq Heq. tracks_tac.
    + eapply Forall_impl; [|exact IHelseif]. intros [expr eqs] [Hexpr Heqs].
      cbn [fst snd] in *. tracks_tac.
      eapply Forall_impl; [|exact Heqs]. intros eq Heq. tracks_tac.
  - unfold sections_of in IH.
    repeat match goal with
           | H : Forall _ (_ :: _) |- _ => inversion H; subst; clear H
           end.
    unfold visit_Model, visit_Within, write_model_flags, visit_Annotation.
    tracks_tac.
  - tracks_tac.
  - tracks_tac.
  - tracks_tac.
  - tracks_tac.
  - tracks_tac. apply Forall_forall. intros x _. tracks_tac.
  - unfold visit_Within. tracks_tac.
  - apply tracks_raise.
Qed.


(** ** The layout of annotations *)

Lemma runs_anno_entries j ind (items : Dict Anno) (texts : list string) :
  Forall2 (fun kv t => emits_at j ind (write_annotation (snd kv)) t) items texts ->
  runs j ind
       (for_head_then_last
          (fun '(k, v) => write k true ;; write_annotation v ;; print "," false)
          (fun '(k, v) => write k true ;; write_annotation v)
          items)
       (Ok tt)
       (join ("," ++ nl) (map (fun e => str_mul j ind ++ e) (entry_texts items texts))) j.
Proof.
  unfold emits_at, entry_texts.
  induction 1 as [|[k v] t items texts Hkv Hrest IH].
  - apply runs_ret.
  - destruct Hrest as [|kv' t' items' texts' Hkv' Hrest'].
    + cbn [for_head_then_last List.combine map join String.concat fst snd] in *.
      eapply runs_conv; [runs_tac | text_eq | reflexivity].
    + cbn [for_head_then_last] in *. cbn [List.combine map join String.concat] in *.
      eapply runs_conv; [runs_tac | | reflexivity].
      cbn [fst snd]. repeat rewrite append_assoc. repeat rewrite append_nil_r. reflexivity.
Qed.

(** X3.  The layout of a dictionary in [write_annotation], for entries
    whose values are written as [texts]: nothing for no entry; [(name text)]
    for one; from two entries on the first entry right after the opening
    parenthesis, then every other entry on a line of its own, one indent
    deeper, a comma after every entry but the last and the closing
    parenthesis right after the last.  The indent is afterwards what it was. *)
Theorem write_annotation_dict_layout :
  forall (items : Dict Anno) i ind (texts : list string),
    Forall2 (fun kv t =>
               emits_at (if (2 <=? length items)%nat then i + 1 else i) ind
                        (write_annotation (snd kv)) t)
            items texts ->
    emits_at i ind (write_annotation (ADict items))
             (anno_layout i ind (entry_texts items texts)).
Proof.
  intros items i ind texts H. unfold emits_at in *.
  destruct items as [|[k0 v0] [|kv1 rest]];
    repeat match goal with
           | H : Forall2 _ [] _ |- _ => inversion H; subst; clear H
           | H : Forall2 _ (_ :: _) _ |- _ => inversion H; subst; clear H
           end;
    cbn [length Nat.leb fst snd write_annotation] in *.
  - apply runs_ret.
  - unfold entry_texts. cbn [List.combine map anno_layout fst snd].
    eapply runs_conv; [runs_tac | text_eq | reflexivity].
  - match goal with
    | H1 : runs _ _ (write_annotation (snd kv1)) _ _ _,
      H : Forall2 _ rest _ |- _ =>
        pose proof (runs_anno_entries (i + 1) ind (kv1 :: rest) _
                      (Forall2_cons kv1 _ H1 H)) as Hrest
    end.
    unfold entry_texts in *.
    cbn [List.combine map anno_layout fst snd] in *.
    eapply runs_conv; [runs_tac | | lia].
    text_eq.
Qed.

Lemma write_annotation_dict_layout_witness :
  emits_at 0 "  "
           (write_annotation
              (ADict [("a", AScalar (SBool true)); ("b", AScalar (SInt 2));
                      ("c", AScalar (SStr "x"))]))
           ("(a=true," ++ nl ++ "  b=2," ++ nl ++ "  c=x)").
Proof.
  apply (write_annotation_dict_layout
           [("a", AScalar (SBool true)); ("b", AScalar (SInt 2)); ("c", AScalar (SStr "x"))]
           0 "  " ["=true"; "=2"; "=x"]).
  repeat (apply Forall2_cons; [apply runs_write|]). apply Forall2_nil.
Defined.

Lemma runs_braced_elems j ind (elems : list (list Scalar)) :
  elems <> [] ->
  runs j ind
       (for_head_then_last
          (fun e => write ("{" ++ join "," (map py_str e) ++ "}") false ;; write "," false)
          (fun e => write ("{" ++ join "," (map py_str e) ++ "}") false)
          elems)
       (Ok tt) (join "," (map braced elems)) j.
Proof.
  induction elems as [|e elems IH]; [congruence|]. intros _.
  destruct elems as [|e' elems].
  - cbn [for_head_then_last map join String.concat].
    eapply runs_conv; [runs_tac | text_eq | reflexivity].
  - specialize (IH ltac:(discriminate)).
    cbn [for_head_then_last] in *. cbn [map join String.concat] in *.
    eapply runs_conv; [runs_tac | | reflexivity].
    unfold braced. text_eq.
Qed.

(** X4.  A list (or tuple) of lists of scalars in an annotation is written
    flat: an equals sign and, between braces and separated by commas without
    blanks, every inner list between braces of its own; a list of scalars is
    written the same way, one level less; the empty list is [={}].  Nothing of
    it depends on the indent, and the elements are written with [str]. *)
Theorem write_annotation_lists :
  forall i ind,
    (forall elems : list (list Scalar),
        emits_at i ind (write_annotation (AListList elems))
                 ("={" ++ join "," (map braced elems) ++ "}"))
    /\ (forall elems : list Scalar,
           emits_at i ind (write_annotation (AList elems))
                    ("=" ++ braced elems)).
Proof.
  intros i ind. unfold emits_at. split; intros elems.
  - destruct elems as [|e elems]; [apply runs_write|].
    pose proof (runs_braced_elems i ind (e :: elems) ltac:(discriminate)) as Hloop.
    cbn [write_annotation].
    eapply runs_conv; [runs_tac | text_eq | reflexivity].
  - destruct elems as [|e elems]; [apply runs_write|].
    cbn [write_annotation]. unfold braced.
    eapply runs_conv; [apply runs_write | text_eq | reflexivity].
Qed.

(** ** The layout of a model *)

Lemma runs_for_each_texts {A} j ind (body : A -> M unit) (xs : list A) (texts : list string) :
  Forall2 (fun x t => emits_at j ind (body x) t) xs texts ->
  runs j ind (for_each body xs) (Ok tt) (String.concat "" texts) j.
Proof.
  unfold emits_at.
  induction 1 as [|x t xs texts Hx Hrest IH].
  - apply runs_ret.
  - cbn [for_each].
    eapply runs_conv; [runs_tac | | reflexivity].
    destruct texts; cbn [String.concat]; [now rewrite append_nil_r | reflexivity].
Qed.

Lemma runs_visit_section {N} i ind (visit : N -> M unit) keyword (section : list N)
    (texts : list string) :
  Forall2 (fun x t => emits_at (i + 1) ind (visit x) t) section texts ->
  runs (i + 1) ind (visit_section visit keyword section) (Ok tt)
       (section_text i ind keyword texts) (i + 1).
Proof.
  intros H. pose proof (runs_for_each_texts _ _ _ _ _ H) as Hloop.
  unfold visit_section, section_text.
  destruct H as [|x t section texts Hx Hrest]; [apply runs_ret|].
  eapply runs_conv.
  - eapply runs_bind_ok; [apply runs_add_indent|].
    replace (i + 1 + -1) with i by lia.
    eapply runs_bind_ok; [apply runs_print|].
    eapply runs_bind_ok; [apply runs_add_indent | exact Hloop].
  - text_eq.
  - reflexivity.
Qed.

Lemma runs_write_model_flags i ind flags :
  runs i ind (write_model_flags flags) (Ok tt) (model_flags_written flags) i.
Proof.
  unfold write_model_flags, model_flags_written. destruct flags as [f|]; [|apply runs_ret].
  eapply runs_conv; [repeat (eapply runs_bind_ok; [apply runs_if_write|]);
                     apply runs_if_write | text_eq | reflexivity].
Qed.

(** X5.  The layout of a model, for nodes and an annotation that are
    written as the given texts one indent deeper: the [within] line if there
    is one, the flags, the line [model] with the identifier and the quoted
    description, the nodes of the public section, then the protected
    section, the initial equations, the initial algorithms, the equations and
    the algorithms in this order, each under its keyword line at the indent
    of the model and only when it is not empty, the annotation with a
    semicolon when it is not empty, and the line [end] with the identifier.
    The indent is afterwards what it was. *)
Theorem visit_Model_layout :
  forall format_spec (m : Model) i ind (pub prot ieq ialg eqs algs : list string) anno,
    Forall2 (fun n t => emits_at (i + 1) ind (visit format_spec n) t) (public_section m) pub ->
    Forall2 (fun n t => emits_at (i + 1) ind (visit format_spec n) t)
            (protected_section m) prot ->
    Forall2 (fun n t => emits_at (i + 1) ind (visit format_spec n) t)
            (initial_equations m) ieq ->
    Forall2 (fun n t => emits_at (i + 1) ind (visit format_spec n) t)
            (initial_algorithms m) ialg ->
    Forall2 (fun n t => emits_at (i + 1) ind (visit format_spec n) t) (equations m) eqs ->
    Forall2 (fun n t => emits_at (i + 1) ind (visit format_spec n) t) (algorithms m) algs ->
    emits_at (i + 1) ind (write_annotation (ADict (m_annotation m))) anno ->
    emits_at i ind (visit format_spec (NModel m))
             (model_layout i ind m pub prot ieq ialg eqs algs anno).
Proof.
  intros format_spec m i ind pub prot ieq ialg eqs algs anno Hpub Hprot Hieq Hialg Heqs Halgs
         Hanno.
  unfold emits_at in *. cbn [visit]. unfold visit_Model, model_layout.
  apply runs_for_each_texts in Hpub.
  apply (runs_visit_section i ind _ "protected") in Hprot.
  apply (runs_visit_section i ind _ "initial equation") in Hieq.
  apply (runs_visit_section i ind _ "initial algorithm") in Hialg.
  apply (runs_visit_section i ind _ "equation") in Heqs.
  apply (runs_visit_section i ind _ "algorithm") in Halgs.
  pose proof (runs_write_model_flags i ind (m_flags m)) as Hflags.
  assert (Hwithin : runs i ind
            (match m_within m with Some w => visit_Within w | None => ret tt end)
            (Ok tt) (within_text i ind (m_within m)) i).
  { unfold within_text, visit_Within.
    destruct (m_within m) as [[[name|]]|]; cbn [within_name];
      [eapply runs_conv; [apply runs_print | text_eq | reflexivity]
      |eapply runs_conv; [apply runs_print | text_eq | reflexivity]
      |apply runs_ret]. }
  assert (Hmodel : runs i ind
            (match m_description m with
             | Some d => print ("model " ++ m_ident m ++ quoted d) true
             | None => print ("model " ++ m_ident m) true
             end)
            (Ok tt)
            (str_mul i ind ++ "model " ++ m_ident m
             ++ match m_description m with Some d => quoted d | None => "" end ++ nl) i).
  { destruct (m_description m);
      (eapply runs_conv; [apply runs_print | text_eq | reflexivity]). }
  assert (Hann : runs (i + 1) ind
            (if truthy (m_annotation m)
             then visit_Annotation (m_annotation m) ;; print ";" false
             else ret tt)
            (Ok tt) (model_annotation_text (m_annotation m) anno) (i + 1)).
  { unfold model_annotation_text, visit_Annotation.
    destruct (truthy (m_annotation m)); [|apply runs_ret].
    eapply runs_conv; [runs_tac | text_eq | reflexivity]. }
  eapply runs_conv.
  - eapply runs_bind_ok; [exact Hwithin|].
    eapply runs_bind_ok; [exact Hflags|].
    eapply runs_bind_ok; [exact Hmodel|].
    eapply runs_bind_ok; [apply runs_add_indent|].
    eapply runs_bind_ok; [exact Hpub|].
    eapply runs_bind_ok; [exact Hprot|].
    eapply runs_bind_ok; [exact Hieq|].
    eapply runs_bind_ok; [exact Hialg|].
    eapply runs_bind_ok; [exact Heqs|].
    eapply runs_bind_ok; [exact Halgs|].
    eapply runs_bind_ok; [exact Hann|].
    eapply runs_bind_ok; [apply runs_add_indent|].
    replace (i + 1 + -1) with i by lia.
    apply runs_print.
  - text_eq.
  - reflexivity.
Qed.

Lemma emits_visit_Equation format_spec i ind left right :
  emits_at i ind (visit format_spec (NEquation (mkEquation left right None [])))
           (str_mul i ind ++ left ++ " = " ++ right ++ ";" ++ nl).
Proof.
  unfold emits_at. cbn [visit]. unfold visit_Equation.
  cbn [eq_left eq_right eq_description eq_annotation truthy].
  eapply runs_conv; [runs_tac | text_eq | reflexivity].
Qed.

Lemma visit_Model_layout_witness :
  emits_at 0 "  "
           (visit no_format_spec
              (NModel (mkModel "M" None None None [] [] [] [] [] []
                               [NEquation (mkEquation "x" "1" None [])] [])))
           ("model M" ++ nl ++ "equation" ++ nl ++ "  x = 1;" ++ nl ++ "end M;" ++ nl).
Proof.
  apply (visit_Model_layout no_format_spec
           (mkModel "M" None None None [] [] [] [] [] []
                    [NEquation (mkEquation "x" "1" None [])] [])
           0 "  " [] [] [] [] ["  x = 1;" ++ nl] [] "").
  - apply Forall2_nil.
  - apply Forall2_nil.
  - apply Forall2_nil.
  - apply Forall2_nil.
  - apply Forall2_cons; [apply (emits_visit_Equation no_format_spec 1 "  " "x" "1")
                        | apply Forall2_nil].
  - apply Forall2_nil.
  - apply runs_ret.
Defined.

(** ** Text blocks, imports and connections *)

Lemma runs_print_lines j ind (with_indent : bool) (lines : list string) :
  runs j ind (for_each (fun e => print e with_indent) lines) (Ok tt)
       (String.concat ""
          (map (fun e => (if with_indent then str_mul j ind else "") ++ e ++ nl) lines)) j.
Proof.
  apply runs_for_each_texts.
  induction lines as [|e lines IH]; cbn [map]; constructor; [apply runs_print | exact IH].
Qed.

(** X6.  A text block is written as it is: every line in its order,
    followed by a line break and, when the block asks for it, preceded by the
    current indent.  [add_text] returns such a block for its lines, or raises
    and leaves the model as it was. *)
Theorem visit_Text_verbatim :
  forall format_spec (model : Model) (lines : list string) (with_indent : bool)
         (where_ : string) i ind,
    emits_at i ind (visit format_spec (NText lines with_indent))
             (String.concat ""
                (map (fun e => (if with_indent then str_mul i ind else "") ++ e ++ nl) lines))
    /\ match add_text model lines with_indent where_ with
       | (Ok node, _) => node = NText lines with_indent
       | (Raise _, model') => model' = model
       end.
Proof.
  intros format_spec model lines with_indent where_ i ind. split.
  - apply runs_print_lines.
  - unfold add_text, Model_add.
    repeat (destruct (String.eqb where_ _); [reflexivity|]). reflexivity.
Qed.

(** X7.  [add_import] puts one node at the end of the public section, and
    the node is written as one line: [import name;] without a second
    argument (a name that ends in [.*] included), [import name.{a, b};] with
    a list of names, and [import alias = name;] with a string; any other
    second argument raises [AssertionError] and leaves the model as it was. *)
Theorem add_import_lines :
  forall format_spec (model : Model) (name : string) (arg : ImportArg) i ind,
    match arg with
    | ImportOther => add_import model name arg = (Raise (AssertionError ""), model)
    | _ =>
        exists node,
          add_import model name arg
          = (Ok node, set_public_section model (public_section model ++ [node]))
          /\ emits_at i ind (visit format_spec node)
                      (str_mul i ind ++ "import "
                       ++ match arg with
                          | ImportNames names => name ++ ".{" ++ join ", " names ++ "}"
                          | ImportAlias short => short ++ " = " ++ name
                          | _ => name
                          end
                       ++ ";" ++ nl)
    end.
Proof.
  intros format_spec model name arg i ind. destruct arg as [|names|short|].
  - eexists. split; [reflexivity|]. unfold emits_at. cbn [visit].
    eapply runs_conv; [apply runs_print | text_eq | reflexivity].
  - eexists. split; [reflexivity|]. unfold emits_at. cbn [visit].
    eapply runs_conv; [apply runs_print | text_eq | reflexivity].
  - eexists. split; [reflexivity|]. unfold emits_at. cbn [visit].
    eapply runs_conv; [apply runs_print | text_eq | reflexivity].
  - reflexivity.
Qed.

(** X8.  What [add_connect] builds is written as one line: with two
    references [connect(ref1, ref2)], with four arguments
    [connect(owner1.port1, owner2.port2)], then the description between
    double quotes if there is one, and a semicolon. *)
Theorem add_connect_rendered :
  forall format_spec (model : Model) (description : option string) i ind
         (s1 s2 port1 port2 : string) (owner1 owner2 : Ref),
    match add_connect model (RStr s1) (RStr s2) [] description with
    | (Ok c, _) =>
        emits_at i ind (visit format_spec (NConnect c))
                 (str_mul i ind ++ "connect(" ++ s1 ++ ", " ++ s2 ++ ")"
                  ++ match description with Some d => quoted d | None => "" end
                  ++ ";" ++ nl)
    | (Raise _, _) => False
    end
    /\ match add_connect model owner1 (RStr port1) [owner2; RStr port2] description with
       | (Ok c, _) =>
           emits_at i ind (visit format_spec (NConnect c))
                    (str_mul i ind ++ "connect(" ++ owner_name owner1 ++ "." ++ port1 ++ ", "
                     ++ owner_name owner2 ++ "." ++ port2 ++ ")"
                     ++ match description with Some d => quoted d | None => "" end
                     ++ ";" ++ nl)
       | (Raise _, _) => False
       end.
Proof.
  intros format_spec model description i ind s1 s2 port1 port2 owner1 owner2.
  split; cbn [add_connect Model_add String.eqb Ascii.eqb Bool.eqb];
    unfold emits_at; cbn [visit]; unfold visit_Connect, visit_Description;
    cbn [ref1 ref2 con_description con_annotation truthy Ref_format];
    destruct description;
    (eapply runs_conv; [runs_tac | text_eq | reflexivity]).
Qed.

(** ** Dictionaries *)

Lemma dict_get_set_same {V} (d : Dict V) (key : string) (v : V) :
  dict_get (dict_set d key v) key = Some v.
Proof.
  induction d as [|[k x] d IH]; simpl.
  - now rewrite String.eqb_refl.
  - destruct (String.eqb k key) eqn:E; simpl; rewrite E; auto.
Qed.

Lemma dict_get_set_other {V} (d : Dict V) (key key' : string) (v : V) :
  key <> key' -> dict_get (dict_set d key v) key' = dict_get d key'.
Proof.
  intros Hne. induction d as [|[k x] d IH]; simpl.
  - destruct (String.eqb_spec key key'); [contradiction | reflexivity].
  - destruct (String.eqb_spec k key) as [->|Hk]; simpl.
    + destruct (String.eqb_spec key key'); [contradiction | reflexivity].
    + destruct (String.eqb k key'); [reflexivity | exact IH].
Qed.

Lemma dict_set_keys {V} (d : Dict V) (key : string) (v : V) :
  map fst (dict_set d key v)
  = if dict_contains key d then map fst d else (map fst d ++ [key])%list.
Proof.
  unfold dict_contains. induction d as [|[k x] d IH]; simpl; [reflexivity|].
  destruct (String.eqb k key) eqn:E; simpl; [reflexivity|].
  rewrite IH. destruct (dict_get d key); reflexivity.
Qed.

Lemma dict_set_same {V} (d : Dict V) (key : string) (v : V) :
  dict_get d key = Some v -> dict_set d key v = d.
Proof.
  induction d as [|[k x] d IH]; simpl; [discriminate|].
  destruct (String.eqb_spec k key) as [->|Hk].
  - now intros [= ->].
  - intros H. now rewrite IH.
Qed.

Lemma dict_get_In {V} (d : Dict V) (key : string) (v : V) :
  dict_get d key = Some v -> In key (map fst d).
Proof.
  induction d as [|[k x] d IH]; simpl; [discriminate|].
  destruct (String.eqb_spec k key) as [->|Hk]; [auto | intros H; right; auto].
Qed.

Lemma dict_contains_In {V} (d : Dict V) (key : string) :
  dict_contains key d = false -> ~ In key (map fst d).
Proof.
  unfold dict_contains. induction d as [|[k x] d IH]; simpl; [tauto|].
  destruct (String.eqb_spec k key) as [->|Hk]; [discriminate|].
  intros H [Heq|Hin]; [contradiction | now apply IH].
Qed.

(** ** Components and the registry *)

(** X9.  [component[key] = value] followed by [component[key']] gives the
    value back for the same key and what was there before for any other; a
    key that is not in the modifications raises [KeyError]; and the
    assignment keeps the order of the modifications, a new key going last. *)
Theorem Component_setitem_getitem :
  forall (c : Component) (key key' : string) (value : Value),
    Component_getitem (Component_setitem c key value) key'
    = (if String.eqb key key' then Ok value else Component_getitem c key')
    /\ map fst (c_init (Component_setitem c key value))
       = (if dict_contains key (c_init c)
          then map fst (c_init c)
          else (map fst (c_init c) ++ [key])%list)
    /\ (if dict_contains key' (c_init c) then True
        else Component_getitem c key' = Raise (KeyError key')).
Proof.
  intros c key key' value. unfold Component_getitem, Component_setitem, dict_contains.
  cbn [c_init]. repeat split.
  - destruct (String.eqb_spec key key') as [->|Hne].
    + now rewrite dict_get_set_same.
    + now rewrite dict_get_set_other.
  - apply dict_set_keys.
  - destruct (dict_get (c_init c) key'); auto.
Qed.

(** [add_component] either raises and leaves the model exactly as it
    was, or returns a component with the type and the identifier it was
    given, registers it under that identifier, which was free before, and
    appends it to the protected section when [protected] is set and to the
    public section otherwise, no other section being touched; with
    [parameter] set the component is a parameter, whatever variability was
    passed. *)
Lemma add_component_result :
  forall model typ ident value init protected parameter flags kwargs,
    match add_component model typ ident value init protected parameter flags kwargs with
    | (Raise _, model') => model' = model
    | (Ok c, model') =>
        c_type c = typ /\ c_ident c = ident
        /\ dict_contains ident (components model) = false
        /\ components model' = dict_set (components model) ident c
        /\ (forall sec,
               get_section sec model'
               = if Section_eqb sec (if protected then Protected else Public)
                 then (get_section sec model ++ [NComponent c])%list
                 else get_section sec model)
        /\ c_variability c = (if parameter then Some Parameter_ else kw_variability kwargs)
    end.
Proof.
  intros model typ ident value init protected parameter flags kwargs.
  unfold add_component.
  destruct (dict_contains ident (components model)) eqn:Hfree; [reflexivity|].
  destruct value as [v|d]; [|destruct init]; try reflexivity;
    (destruct (flags_kwarg flags); [|reflexivity]);
    (destruct (kw_others kwargs); [|reflexivity]);
    (destruct (has_pos_keys kwargs);
     [destruct (kw_pos kwargs); [|reflexivity];
      match goal with |- context [set_placement ?a ?b ?c ?d ?e] =>
        destruct (set_placement a b c d e) as [c'|] eqn:Hplace end; [|reflexivity];
      apply set_placement_keeps in Hplace; simpl in Hplace;
      destruct Hplace as (-> & -> & -> & _)|]);
    (repeat split; try reflexivity; try assumption;
     try (destruct protected; reflexivity);
     try (intros sec; destruct protected, sec; reflexivity)).
Qed.

(** X10.  A call of [add_component] that does not both pass an annotation
    and place the component (where the placement is written into the
    [dict] of the caller) either raises and leaves the model exactly as it
    was, or returns a component with the type and the identifier it was
    given, registers it under that identifier, which was free before, and
    appends it to the protected section when [protected] is set and to the
    public section otherwise, no other section being touched; with
    [parameter] set the component is a parameter, whatever variability was
    passed.  A [dict] passed as [value] becomes the initialization and
    leaves the component without a value, and a placement changes neither. *)
Theorem add_component_effect :
  forall model typ ident value init protected parameter flags kwargs,
    kw_annotation kwargs = None \/ has_pos_keys kwargs = false ->
    match add_component model typ ident value init protected parameter flags kwargs with
    | (Raise _, model') => model' = model
    | (Ok c, model') =>
        c_type c = typ /\ c_ident c = ident
        /\ dict_contains ident (components model) = false
        /\ components model' = dict_set (components model) ident c
        /\ (forall sec,
               get_section sec model'
               = if Section_eqb sec (if protected then Protected else Public)
                 then (get_section sec model ++ [NComponent c])%list
                 else get_section sec model)
        /\ c_variability c = (if parameter then Some Parameter_ else kw_variability kwargs)
        /\ c_value c = match value with ValScalar v => v | ValDict _ => SNone end
        /\ c_init c = match value, init with
                      | ValDict d, _ => d
                      | ValScalar _, Some d => d
                      | ValScalar _, None => []
                      end
    end.
Proof.
  intros model typ ident value init protected parameter flags kwargs _.
  pose proof (add_component_result model typ ident value init protected parameter flags
                                   kwargs) as H.
  destruct (add_component model typ ident value init protected parameter flags kwargs)
    as [[c|e] model'] eqn:E; [|exact H].
  destruct H as (H1 & H2 & H3 & H4 & H5 & H6). repeat (split; [assumption|]).
  clear H1 H2 H3 H4 H5 H6. unfold add_component in E.
  destruct (dict_contains ident (components model)); [discriminate|].
  destruct value as [v|d]; [|destruct init]; try discriminate;
    (destruct (flags_kwarg flags); [|discriminate]);
    (destruct (kw_others kwargs); [|discriminate]); cbv zeta in E;
    (destruct (has_pos_keys kwargs);
     [destruct (kw_pos kwargs); [|discriminate];
      match type of E with context [set_placement ?a ?b ?c ?d ?e] =>
        destruct (set_placement a b c d e) as [c'|] eqn:Hplace end; [|discriminate];
      apply set_placement_keeps in Hplace; cbn [c_init c_value] in Hplace;
      destruct Hplace as (_ & _ & _ & Hi & Hv & _); injection E as <- _;
      rewrite Hi, Hv
     | injection E as <- _; cbn [c_init c_value]]);
    split; try reflexivity; now destruct init.
Qed.

Lemma add_component_effect_witness :
  match add_component (Model_init "M" None None None None) "Real" "x"
          (ValDict [("start", VScalar (SInt 1))]) None true true FlagsNone
          (mkKwargs None None None None None None None None
                    (Some (SInt 10, SInt 20)) None None None []) with
  | (Ok c, model') =>
      c_ident c = "x" /\ protected_section model' = [NComponent c]
      /\ c_init c = [("start", VScalar (SInt 1))]
  | (Raise _, _) => False
  end.
Proof.
  pose proof (add_component_effect (Model_init "M" None None None None) "Real" "x"
                (ValDict [("start", VScalar (SInt 1))]) None true true FlagsNone
                (mkKwargs None None None None None None None None
                          (Some (SInt 10, SInt 20)) None None None [])
                (or_introl eq_refl)) as H.
  destruct (add_component (Model_init "M" None None None None) "Real" "x"
              (ValDict [("start", VScalar (SInt 1))]) None true true FlagsNone
              (mkKwargs None None None None None None None None
                        (Some (SInt 10, SInt 20)) None None None []))
    as [[c|e] model'] eqn:E; [|discriminate E].
  destruct H as (_ & Hid & _ & _ & Hsec & _ & _ & Hinit).
  split; [exact Hid|]. split; [exact (Hsec Protected) | exact Hinit].
Defined.

Lemma NoDup_snoc {A} (l : list A) (a : A) : NoDup l -> ~ In a l -> NoDup (l ++ [a]).
Proof.
  intros Hl Ha. induction Hl as [|x l Hx Hl IH]; simpl.
  - constructor; [tauto | constructor].
  - constructor.
    + rewrite in_app_iff. simpl. intros [H|[H|[]]]; [contradiction|].
      subst. apply Ha. now left.
    + apply IH. intros H. apply Ha. now right.
Qed.

(** X11.  The registry stays consistent with the sections: if no identifier
    is registered twice and every registered identifier stands for a
    component that bears it and is in the public or protected section, the
    same holds after [add_component], whether it succeeds or raises, after
    [Model.add] and after [add_connect]. *)
Theorem registry_stays_consistent :
  forall (model : Model),
    registry_consistent model ->
    (forall typ ident value init protected parameter flags kwargs,
        registry_consistent
          (snd (add_component model typ ident value init protected parameter flags kwargs)))
    /\ (forall some where_, registry_consistent (snd (Model_add model some where_)))
    /\ (forall ref1 ref2 args description,
           registry_consistent (snd (add_connect model ref1 ref2 args description))).
Proof.
  intros model [Hnodup Hreg].
  assert (Hadd : forall some where_, registry_consistent (snd (Model_add model some where_))).
  { intros some where_. unfold Model_add.
    repeat (destruct (String.eqb where_ _);
            [split; [exact Hnodup|]; intros k c Hk; cbn in Hk |- *;
             destruct (Hreg k c Hk) as [Hi Hin]; split; [exact Hi|];
             rewrite ?in_app_iff in *; tauto|]).
    split; assumption. }
  split; [|split; [exact Hadd|]].
  - intros typ ident value init protected parameter flags kwargs.
    pose proof (add_component_result model typ ident value init protected parameter flags
                                     kwargs) as H.
    destruct (add_component model typ ident value init protected parameter flags kwargs)
      as [[c|e] m']; cbn [snd]; [|subst m'; split; assumption].
    destruct H as (Ht & Hi & Hfree & Hcomp & Hsec & _).
    split.
    + rewrite Hcomp, dict_set_keys, Hfree.
      apply NoDup_snoc; [exact Hnodup | now apply dict_contains_In].
    + intros k c0 Hk. rewrite Hcomp in Hk.
      pose proof (Hsec Public) as Hpub. pose proof (Hsec Protected) as Hprot.
      cbn [get_section] in Hpub, Hprot. rewrite Hpub, Hprot.
      destruct (String.eqb_spec ident k) as [<-|Hne].
      * rewrite dict_get_set_same in Hk. injection Hk as <-. split; [exact Hi|].
        destruct protected; cbn [Section_eqb]; rewrite !in_app_iff; simpl; tauto.
      * rewrite dict_get_set_other in Hk by exact Hne.
        destruct (Hreg k c0 Hk) as [Hi0 Hin]. split; [exact Hi0|].
        rewrite in_app_iff in Hin.
        destruct protected; cbn [Section_eqb]; rewrite !in_app_iff; tauto.
  - intros ref1 ref2 args description. unfold add_connect.
    destruct args as [|a [|b [|x args]]]; cbn [snd];
      try (split; assumption);
      match goal with
      | |- context [Model_add model ?n ?w] =>
          pose proof (Hadd n w) as H; destruct (Model_add model n w) as [[?|?] ?]; exact H
      end.
Qed.

Lemma registry_stays_consistent_witness :
  registry_consistent
    (snd (add_component (Model_init "Unnamed" None None None None) "Real" "x"
                        (ValScalar (SInt 1)) None false true FlagsNone no_kwargs)).
Proof.
  apply (registry_stays_consistent (Model_init "Unnamed" None None None None)).
  split; [constructor | intros ident c H; discriminate H].
Defined.

Lemma or_flags_combine (flgs : Flags) (parts : list string) :
  Forall (fun w => dict_contains w str2ComponentFlags = true) parts ->
  or_flags flgs parts = Ok (fold_left flag_or (map flag_of_word parts) flgs).
Proof.
  intros H. revert flgs. induction H as [|w parts Hw _ IH]; intros flgs;
    cbn [or_flags map fold_left].
  - reflexivity.
  - unfold dict_contains in Hw.
    assert (Hf : flag_of_word w
                 = match dict_get str2ComponentFlags w with Some f => f | None => 0 end)
      by reflexivity.
    destruct (dict_get str2ComponentFlags w) as [f|]; [|discriminate].
    rewrite Hf. apply IH.
Qed.

(** X12.  Flags passed to [add_component] as a string are the flags its
    words stand for, combined: when the string splits at white space into
    known words, the call does what it does with the combination of their
    flags, and the order of the words does not matter. *)
Theorem add_component_flags_string :
  forall model typ ident value init protected parameter kwargs (s : string)
         (word : string) (words : list string),
    py_split s = word :: words ->
    Forall (fun w => dict_contains w str2ComponentFlags = true) (word :: words) ->
    add_component model typ ident value init protected parameter (FlagsStr s) kwargs
    = add_component model typ ident value init protected parameter
                    (FlagsEnum (combine (map flag_of_word (word :: words)))) kwargs
    /\ forall words', Permutation (word :: words) words' ->
                      combine (map flag_of_word words')
                      = combine (map flag_of_word (word :: words)).
Proof.
  intros model typ ident value init protected parameter kwargs s word words Hs Hw. split.
  - assert (Hk : flags_kwarg (FlagsStr s)
                 = flags_kwarg (FlagsEnum (combine (map flag_of_word (word :: words))))).
    { unfold flags_kwarg. rewrite Hs. inversion Hw as [|? ? Hword Hwords]; subst.
      unfold dict_contains in Hword. unfold combine. cbn [map fold_left].
      assert (Hf : flag_of_word word
                   = match dict_get str2ComponentFlags word with Some f => f | None => 0 end)
        by reflexivity.
      destruct (dict_get str2ComponentFlags word) as [f|]; [|discriminate].
      rewrite (or_flags_combine f words Hwords), Hf.
      replace (flag_or 0 f) with f by (unfold flag_or; now rewrite Z.lor_0_l).
      reflexivity. }
    unfold add_component. now rewrite Hk.
  - intros words' Hperm. symmetry. apply combine_Permutation. now apply Permutation_map.
Qed.

Lemma add_component_flags_string_witness :
  add_component (Model_init "Unnamed" None None None None) "Real" "x" (ValScalar SNone) None
                false false (FlagsStr " outer  final") no_kwargs
  = add_component (Model_init "Unnamed" None None None None) "Real" "x" (ValScalar SNone) None
                  false false (FlagsEnum 5) no_kwargs.
Proof.
  apply (proj1 (add_component_flags_string
                  (Model_init "Unnamed" None None None None) "Real" "x" (ValScalar SNone) None
                  false false no_kwargs " outer  final" "outer" ["final"] eq_refl
                  ltac:(repeat (apply Forall_cons; [reflexivity|]); apply Forall_nil))).
Defined.

(** ** Comments *)

Lemma Model_add_result (model : Model) (some : Node) (where_ : string) :
  match section_named where_ with
  | Some _ => fst (Model_add model some where_) = Ok some
  | None =>
      Model_add model some where_ = (Raise (ValueError ("where=" ++ where_ ++ " unknown")), model)
  end.
Proof.
  unfold section_named, Model_add.
  repeat (destruct (String.eqb where_ _); [reflexivity|]). reflexivity.
Qed.

(** X13.  [add_comment] with a known comment type, at least one line and a
    known section returns a text block with one line for each line given,
    each between the prefix of the type and nothing or the closing [ */];
    with an unknown type, no line or an unknown section it raises
    [ValueError] and leaves the model as it was. *)
Theorem add_comment_lines :
  forall (model : Model) (lines : list string) (indent : bool) (type where_ : string),
    match comment_prefixes type, lines, section_named where_ with
    | Some (_, start_prefix, prefix), _ :: _, Some sec =>
        exists parts,
          add_comment model lines indent type where_
          = (Ok (NText parts indent), snd (Model_add model (NText parts indent) where_))
          /\ Forall2 (comment_line_ok start_prefix prefix) lines parts
    | _, _, _ =>
        exists msg,
          add_comment model lines indent type where_ = (Raise (ValueError msg), model)
    end.
Proof.
  intros model lines indent type where_. unfold add_comment.
  destruct (comment_prefixes type) as [[[is_multi start_prefix] prefix]|];
    [|eexists; reflexivity].
  destruct lines as [|first rest]; [eexists; reflexivity|].
  assert (Hparts : exists parts,
             comment_parts is_multi start_prefix prefix (first :: rest) = Ok parts
             /\ Forall2 (comment_line_ok start_prefix prefix) (first :: rest) parts).
  { unfold comment_parts. destruct rest as [|second rest].
    - eexists. split; [reflexivity|]. constructor; [|constructor].
      exists start_prefix, ((if is_multi then " */" else "") ++ "").
      destruct is_multi; simpl; auto.
    - eexists. split; [reflexivity|]. constructor.
      + exists start_prefix, "". auto.
      + clear first. revert second. induction rest as [|third rest IH]; intros second.
        * cbn. constructor; [|constructor]. exists prefix, " */". auto.
        * change (removelast (second :: third :: rest))
            with (second :: removelast (third :: rest)).
          change (last (second :: third :: rest) "") with (last (third :: rest) "").
          cbn [map app]. constructor; [|apply IH].
          exists prefix, "". auto. }
  destruct Hparts as (parts & -> & Hall).
  pose proof (Model_add_result model (NText parts indent) where_) as H.
  destruct (section_named where_) as [sec|].
  - exists parts. split; [|exact Hall].
    destruct (Model_add model (NText parts indent) where_) as [r m']. simpl in *.
    now subst r.
  - rewrite H. eexists. reflexivity.
Qed.

(** ** Placements and drawn connections *)

Lemma dict_get_set {V} (d : Dict V) (key key' : string) (v : V) :
  dict_get (dict_set d key v) key' = if String.eqb key key' then Some v else dict_get d key'.
Proof.
  destruct (String.eqb_spec key key') as [->|Hne].
  - apply dict_get_set_same.
  - now apply dict_get_set_other.
Qed.

Lemma dict_set_set {V} (d : Dict V) (key : string) (v v' : V) :
  dict_set (dict_set d key v) key v' = dict_set d key v'.
Proof.
  induction d as [|[k x] d IH]; simpl.
  - now rewrite String.eqb_refl.
  - destruct (String.eqb k key) eqn:E; simpl; rewrite E; [reflexivity | now rewrite IH].
Qed.

Lemma set_placement_result (c : Component) pos flip rotation size :
  let result placement transf :=
    let transf1 := dict_set transf "extent" (placement_extent flip size) in
    let transf2 := match stored_rotation rotation with
                   | Some r => dict_set transf1 "rotation" (AScalar r)
                   | None => transf1
                   end in
    let transf3 := dict_set transf2 "origin" (AList [fst pos; snd pos]) in
    with_annotation c
      (dict_set (c_annotation c) "Placement"
         (ADict (dict_set placement "transformation" (ADict transf3)))) in
  set_placement c pos flip rotation size
  = match dict_get (c_annotation c) "Placement" with
    | None => Ok (result [] [])
    | Some (ADict placement) =>
        match dict_get placement "transformation" with
        | None => Ok (result placement [])
        | Some (ADict transf) => Ok (result placement transf)
        | Some _ => Raise (TypeError "object does not support item assignment")
        end
    | Some _ => Raise (AttributeError "object has no attribute 'setdefault'")
    end.
Proof.
  cbv zeta. unfold set_placement, setdefault_dict, setdefault_item, with_annotation.
  fold (placement_extent flip size).
  assert (Hrot : forall transf : Dict Anno,
             match rotation with
             | Some SNone | None => transf
             | Some r => dict_set transf "rotation" (AScalar r)
             end
             = match stored_rotation rotation with
               | Some r => dict_set transf "rotation" (AScalar r)
               | None => transf
               end).
  { intros transf. now destruct rotation as [[]|]. }
  destruct (dict_get (c_annotation c) "Placement") as [[placement| | | |]|] eqn:Hp;
    try reflexivity.
  - destruct (dict_get placement "transformation") as [[transf| | | |]|] eqn:Ht;
      try reflexivity.
    + now rewrite Hrot.
    + rewrite Hrot, dict_set_set. reflexivity.
  - cbn [dict_get]. rewrite Hrot, !dict_set_set. reflexivity.
Qed.


Lemma draw_connect_cases (c : Connect) (idents : Dict Component) :
  match draw_connect c idents with
  | Ok c' =>
      if placed idents (ref1 c) && placed idents (ref2 c) then drawn c c' else c' = c
  | Raise _ => True
  end.
Proof.
  unfold draw_connect, placed.
  destruct (lookup_owner (ref1 c) idents) as [[comp1|]|]; cbn [andb]; auto.
  destruct (get_component_origin comp1) as [[pos1|]|]; cbn [andb]; auto.
  destruct (lookup_owner (ref2 c) idents) as [[comp2|]|]; cbn [andb]; auto.
  destruct (get_component_origin comp2) as [[pos2|]|]; cbn [andb]; auto.
  assert (Hgo : forall line,
             sub_dict (con_annotation c) "Line" = line ->
             drawn c (mkConnect (ref1 c) (ref2 c) (con_description c)
                        (dict_set (con_annotation c) "Line"
                           (ADict (dict_set (dict_set line "points" line_points)
                                            "color" line_color))))).
  { intros line <-. unfold drawn, has_line. cbn [ref1 ref2 con_description con_annotation].
    split; [reflexivity|]. split; [reflexivity|]. split; [reflexivity|]. split; [|split].
    - eexists. rewrite dict_get_set_same. split; [reflexivity|]. split.
      + rewrite dict_get_set_other by discriminate. apply dict_get_set_same.
      + apply dict_get_set_same.
    - intros key. unfold sub_dict at 1. rewrite dict_get_set_same, !dict_get_set.
      reflexivity.
    - intros key. destruct (String.eqb_spec "Line" key); [exact I|].
      now apply dict_get_set_other. }
  unfold sub_dict in Hgo.
  destruct (dict_get (con_annotation c) "Line") as [[d| | | |]|]; cbv zeta; auto.
Qed.

Lemma draw_connect_again (c c' : Connect) (idents : Dict Component) :
  draw_connect c idents = Ok c' -> draw_connect c' idents = Ok c'.
Proof.
  unfold draw_connect.
  destruct (lookup_owner (ref1 c) idents) as [[comp1|]|] eqn:H1;
    try discriminate; [|intros [= <-]; now rewrite H1].
  destruct (get_component_origin comp1) as [[pos1|]|] eqn:H2;
    try discriminate; [|intros [= <-]; now rewrite H1, H2].
  destruct (lookup_owner (ref2 c) idents) as [[comp2|]|] eqn:H3;
    try discriminate; [|intros [= <-]; now rewrite H1, H2, H3].
  destruct (get_component_origin comp2) as [[pos2|]|] eqn:H4;
    try discriminate; [|intros [= <-]; now rewrite H1, H2, H3, H4].
  assert (Hgo : forall line,
             let line' := dict_set (dict_set line "points" line_points) "color" line_color in
             dict_set (dict_set line' "points" line_points) "color" line_color = line').
  { intros line line'. subst line'.
    rewrite (dict_set_same (dict_set (dict_set line "points" line_points) "color" line_color)
               "points" line_points).
    - now rewrite dict_set_set.
    - rewrite dict_get_set_other by discriminate. apply dict_get_set_same. }
  cbv zeta in Hgo.
  destruct (dict_get (con_annotation c) "Line") as [[d| | | |]|]; cbv zeta;
    try discriminate; intros [= <-]; cbn [ref1 ref2 con_annotation con_description];
    rewrite H1, H2, H3, H4, dict_get_set_same, dict_set_set;
    [now rewrite Hgo | reflexivity].
Qed.

Lemma draw_equations_again (eqs : list Node) (idents : Dict Component) :
  draw_equations (snd (draw_equations eqs idents)) idents = draw_equations eqs idents.
Proof.
  induction eqs as [|e eqs IH]; [reflexivity|].
  assert (Hother : forall e0,
             (let '(r, eqs'') := draw_equations eqs idents in (r, e0 :: eqs''))
             = (fst (draw_equations eqs idents), e0 :: snd (draw_equations eqs idents))).
  { intros e0. now destruct (draw_equations eqs idents). }
  destruct e; cbn [draw_equations];
    try (rewrite Hother; cbn [snd draw_equations]; rewrite IH, Hother; reflexivity).
  destruct (draw_connect c idents) as [c'|err] eqn:Hc.
  - rewrite Hother. cbn [snd draw_equations].
    rewrite (draw_connect_again _ _ _ Hc), IH, Hother. reflexivity.
  - cbn [snd draw_equations]. now rewrite Hc.
Qed.

Lemma draw_equations_frame (eqs : list Node) (idents : Dict Component) :
  Forall2 (drawn_from idents) eqs (snd (draw_equations eqs idents))
  /\ (fst (draw_equations eqs idents) = Ok tt ->
      Forall (line_if_placed idents) (snd (draw_equations eqs idents))).
Proof.
  assert (Hsame : forall l, Forall2 (drawn_from idents) l l).
  { induction l; constructor; [now left | assumption]. }
  induction eqs as [|e eqs [IH1 IH2]]; [split; constructor|].
  destruct e; cbn [draw_equations];
    try (destruct (draw_equations eqs idents) as [r eqs'']; cbn [fst snd] in *; split;
         [constructor; [now left | assumption]
         | intros Hr; constructor; [exact I | now apply IH2]]).
  pose proof (draw_connect_cases c idents) as Hc.
  destruct (draw_connect c idents) as [c'|err].
  - destruct (draw_equations eqs idents) as [r eqs'']. cbn [fst snd] in *.
    destruct (placed idents (ref1 c) && placed idents (ref2 c)) eqn:Hp.
    + apply andb_prop in Hp as [Hp1 Hp2]. split.
      * constructor; [|assumption]. right. exists c, c'. auto.
      * intros Hr. constructor; [|now apply IH2].
        destruct Hc as (E1 & E2 & _ & Hl & _). cbn [line_if_placed].
        rewrite E1, E2, Hp1, Hp2. exact Hl.
    + subst c'. split.
      * constructor; [now left | assumption].
      * intros Hr. constructor; [|now apply IH2]. cbn [line_if_placed]. now rewrite Hp.
  - cbn [fst snd]. split; [apply Hsame | discriminate].
Qed.


(** X16.  Running [draw_connections] a second time changes nothing more and
    ends as the first run did, with the same exception if that one raised. *)
Theorem draw_connections_idempotent :
  forall m : Model,
    draw_connections (snd (draw_connections m)) = draw_connections m.
Proof.
  intros m. unfold draw_connections.
  pose proof (draw_equations_again (equations m)
                (collect_idents (protected_section m) (collect_idents (public_section m) [])))
    as H.
  destruct (draw_equations (equations m) _) as [r eqs] eqn:E.
  cbn [fst snd] in *. cbn [set_equations protected_section public_section equations].
  rewrite H. reflexivity.
Qed.

(** ** Dictionaries along a path *)

Lemma create_dict_nil (path : list string) : fst (create_dict [] path) = Ok [].
Proof.
  induction path as [|p path IH]; [reflexivity|].
  cbn [create_dict dict_get]. now destruct (create_dict [] path).
Qed.

(** X17.  [create_dict] and [get_dict] agree: after [create_dict] has
    returned a dictionary, [get_dict] finds that dictionary at the path;
    where [get_dict] already found one, [create_dict] returns it and changes
    nothing; where [get_dict] found none, the one created is empty.
    [create_dict] raises exactly where [get_dict] does, and then it has
    changed nothing. *)
Theorem create_dict_then_get_dict :
  forall (path : list string) (root : Dict Anno),
    match create_dict root path with
    | (Ok node, root') =>
        get_dict root' path = Ok (Some node)
        /\ match get_dict root path with
           | Ok (Some found) => node = found /\ root' = root
           | Ok None => node = []
           | Raise _ => False
           end
    | (Raise _, root') => root' = root /\ is_ok (get_dict root path) = false
    end.
Proof.
  induction path as [|p path IH]; intros root; [cbn; auto|].
  cbn [create_dict get_dict].
  destruct (dict_get root p) as [[sub| | | |]|] eqn:Hp; try (split; reflexivity).
  - specialize (IH sub). destruct (create_dict sub path) as [[node|e] sub'].
    + rewrite dict_get_set_same. destruct IH as [H1 H2]. split; [exact H1|].
      destruct (get_dict sub path) as [[found|]|]; auto.
      destruct H2 as [-> ->]. split; [reflexivity | now apply dict_set_same].
    + destruct IH as [-> H]. split; [now apply dict_set_same | exact H].
  - pose proof (create_dict_nil path) as Hnil. specialize (IH []).
    destruct (create_dict [] path) as [[node|e] sub']; cbn [fst] in Hnil;
      [|discriminate].
    injection Hnil as ->. rewrite dict_get_set_same. now destruct IH as [H1 _].
Qed.

Lemma set_layer_extent_result (a : Dict Anno) (layer : string) (extent : Anno) :
  match set_layer_extent a layer extent with
  | Ok a' =>
      extent_set a a' extent layer
      /\ forall key, layer <> key -> dict_get a' key = dict_get a key
  | Raise e => extent_blocked a layer e
  end.
Proof.
  unfold set_layer_extent, setdefault_dict, extent_set, extent_blocked, extent_of, blocked,
    sub_dict.
  cbn [get_dict].
  destruct (dict_get a layer) as [[ld| | | |]|] eqn:Hl;
    try (left; split; [reflexivity | eexists; reflexivity]).
  - destruct (dict_get ld "coordinateSystem") as [[cs| | | |]|] eqn:Hc;
      try (right; split; [reflexivity | split; [reflexivity | eexists; reflexivity]]);
      rewrite !dict_get_set_same;
      (split; [|intros key Hk; now apply dict_get_set_other]);
      (split; [cbn; now rewrite ?String.eqb_refl|]);
      (split; intros key; rewrite ?dict_get_set; [|reflexivity]).
    + now destruct (String.eqb "coordinateSystem" key).
    + now destruct (String.eqb "coordinateSystem" key).
  - cbn [dict_get]. rewrite !dict_get_set_same.
    split; [|intros key Hk; now rewrite !dict_get_set_other].
    split; [reflexivity|]. split; intros key.
    + rewrite dict_get_set. cbn [dict_get].
      now destruct (String.eqb "coordinateSystem" key).
    + reflexivity.
Qed.

Lemma extent_set_same (a0 a a' a'' : Dict Anno) (extent : Anno) (layer : string) :
  dict_get a0 layer = dict_get a layer ->
  dict_get a'' layer = dict_get a' layer ->
  extent_set a a' extent layer -> extent_set a0 a'' extent layer.
Proof.
  unfold extent_set, extent_of, sub_dict. cbn [get_dict]. now intros -> ->.
Qed.

Lemma extent_blocked_same (a0 a : Dict Anno) (layer : string) (e : PyError) :
  dict_get a0 layer = dict_get a layer ->
  extent_blocked a layer e -> extent_blocked a0 layer e.
Proof. unfold extent_blocked, blocked, sub_dict. now intros ->. Qed.


(** ** What the builder builds can be written *)

Lemma renderable_Model format_spec (m : Model) :
  renderable format_spec (NModel m)
  = forallb (renderable format_spec) (public_section m)
    && forallb (renderable format_spec) (protected_section m)
    && forallb (renderable format_spec) (initial_equations m)
    && forallb (renderable format_spec) (initial_algorithms m)
    && forallb (renderable format_spec) (equations m)
    && forallb (renderable format_spec) (algorithms m)
    && writable_annotation (m_annotation m).
Proof. reflexivity. Qed.

Lemma renderable_Model_parts format_spec (m : Model) :
  renderable format_spec (NModel m) = true <->
  forallb (renderable format_spec) (public_section m) = true
  /\ forallb (renderable format_spec) (protected_section m) = true
  /\ forallb (renderable format_spec) (initial_equations m) = true
  /\ forallb (renderable format_spec) (initial_algorithms m) = true
  /\ forallb (renderable format_spec) (equations m) = true
  /\ forallb (renderable format_spec) (algorithms m) = true
  /\ writable_annotation (m_annotation m) = true.
Proof. rewrite renderable_Model, !andb_true_iff. tauto. Qed.

Lemma forallb_snoc {A} (f : A -> bool) (l : list A) (x : A) :
  forallb f l = true -> f x = true -> forallb f (l ++ [x]) = true.
Proof. intros Hl Hx. rewrite forallb_app, Hl. cbn. now rewrite Hx. Qed.

Lemma Model_add_renderable format_spec (m : Model) (node : Node) (where_ : string) :
  renderable format_spec (NModel m) = true ->
  renderable format_spec node = true ->
  renderable format_spec (NModel (snd (Model_add m node where_))) = true.
Proof.
  intros Hm Hn. pose proof Hm as Hm'.
  apply renderable_Model_parts in Hm' as (H1 & H2 & H3 & H4 & H5 & H6 & H7).
  unfold Model_add.
  repeat (destruct (String.eqb where_ _);
          [apply renderable_Model_parts; cbn; repeat split; auto using forallb_snoc|]).
  exact Hm.
Qed.

Lemma writable_annotation_set (d : Dict Anno) (key : string) (v : Anno) :
  writable_annotation d = true -> writable_anno v = true ->
  writable_annotation (dict_set d key v) = true.
Proof.
  unfold writable_annotation. intros Hd Hv.
  induction d as [|[k x] d IH]; cbn [dict_set forallb snd] in *.
  - now rewrite Hv.
  - apply andb_prop in Hd as [Hx Hd].
    destruct (String.eqb k key); cbn [forallb snd].
    + now rewrite Hv, Hd.
    + now rewrite Hx, IH.
Qed.

Lemma writable_annotation_get (d : Dict Anno) (key : string) (v : Anno) :
  writable_annotation d = true -> dict_get d key = Some v -> writable_anno v = true.
Proof.
  unfold writable_annotation. intros Hd.
  induction d as [|[k x] d IH]; cbn [dict_get forallb snd] in *; [discriminate|].
  apply andb_prop in Hd as [Hx Hd].
  destruct (String.eqb k key); [now intros [= <-] | auto].
Qed.

Lemma writable_anno_ADict (d : Dict Anno) :
  writable_anno (ADict d) = writable_annotation d.
Proof. reflexivity. Qed.

Lemma draw_connect_renderable format_spec (c c' : Connect) (idents : Dict Component) :
  draw_connect c idents = Ok c' ->
  renderable format_spec (NConnect c) = true ->
  renderable format_spec (NConnect c') = true.
Proof.
  unfold draw_connect. cbn [renderable].
  destruct (lookup_owner (ref1 c) idents) as [[comp1|]|];
    try discriminate; [|now intros [= <-]].
  destruct (get_component_origin comp1) as [[pos1|]|];
    try discriminate; [|now intros [= <-]].
  destruct (lookup_owner (ref2 c) idents) as [[comp2|]|];
    try discriminate; [|now intros [= <-]].
  destruct (get_component_origin comp2) as [[pos2|]|];
    try discriminate; [|now intros [= <-]].
  destruct (dict_get (con_annotation c) "Line") as [[d| | | |]|] eqn:Hl; cbv zeta;
    try discriminate; intros [= <-] Hc; cbn [con_annotation];
    apply writable_annotation_set; try assumption; rewrite writable_anno_ADict;
    repeat (apply writable_annotation_set; try reflexivity).
  - apply (writable_annotation_get _ _ _ Hc Hl).
  - reflexivity.
Qed.

Lemma draw_equations_renderable format_spec (eqs : list Node) (idents : Dict Component) :
  forallb (renderable format_spec) eqs = true ->
  forallb (renderable format_spec) (snd (draw_equations eqs idents)) = true.
Proof.
  induction eqs as [|e eqs IH]; [reflexivity|].
  cbn [forallb]. intros H. apply andb_prop in H as [He Heqs]. specialize (IH Heqs).
  destruct e; cbn [draw_equations];
    try (destruct (draw_equations eqs idents) as [r eqs'']; cbn [snd forallb] in *;
         now rewrite He, IH).
  destruct (draw_connect c idents) as [c'|err] eqn:Hc.
  - destruct (draw_equations eqs idents) as [r eqs'']. cbn [snd forallb] in *.
    now rewrite (draw_connect_renderable _ _ _ _ Hc He), IH.
  - cbn [snd forallb]. now rewrite He, Heqs.
Qed.

Lemma set_layer_extent_writable (a a' : Dict Anno) (layer : string) (extent : Anno) :
  set_layer_extent a layer extent = Ok a' ->
  writable_annotation a = true -> writable_anno extent = true ->
  writable_annotation a' = true.
Proof.
  unfold set_layer_extent, setdefault_dict. intros H Ha He.
  destruct (dict_get a layer) as [[ld| | | |]|] eqn:Hl; try discriminate.
  - pose proof (writable_annotation_get _ _ _ Ha Hl) as Hld.
    rewrite writable_anno_ADict in Hld.
    destruct (dict_get ld "coordinateSystem") as [[cs| | | |]|] eqn:Hc;
      try discriminate; injection H as <-;
      repeat (apply writable_annotation_set || rewrite writable_anno_ADict);
      try assumption.
    + pose proof (writable_annotation_get _ _ _ Hld Hc) as Hcs.
      now rewrite writable_anno_ADict in Hcs.
    + cbn. now rewrite He.
  - cbn [dict_get] in H. injection H as <-.
    repeat (apply writable_annotation_set || rewrite writable_anno_ADict);
      try assumption; try reflexivity.
    cbn. now rewrite He.
Qed.

(** X19.  What the builder adds to a model that can be written can be
    written: after [add_extends], [add_import], [add_text], [add_comment],
    [add_connect], and [add_equation] and [add_algorithm] with no annotation
    or one that can be written, whether the call returned or raised, the
    model is one [visit] renders. *)
Theorem builder_keeps_renderable :
  forall format_spec (m : Model),
    renderable format_spec (NModel m) = true ->
    (forall name, renderable format_spec (NModel (snd (add_extends m name))) = true)
    /\ (forall name arg, renderable format_spec (NModel (snd (add_import m name arg))) = true)
    /\ (forall lines indent where_,
           renderable format_spec (NModel (snd (add_text m lines indent where_))) = true)
    /\ (forall lines indent type where_,
           renderable format_spec (NModel (snd (add_comment m lines indent type where_)))
           = true)
    /\ (forall ref1 ref2 args description,
           renderable format_spec (NModel (snd (add_connect m ref1 ref2 args description)))
           = true)
    /\ (forall left right initial description annotation,
           match annotation with Some a => writable_annotation a | None => true end = true ->
           renderable format_spec
             (NModel (snd (add_equation m left right initial description annotation))) = true
           /\ renderable format_spec
                (NModel (snd (add_algorithm m left right initial description annotation)))
              = true).
Proof.
  intros format_spec m Hm. repeat split.
  - intros name. apply (Model_add_renderable format_spec m (NExtends name) "public" Hm).
    reflexivity.
  - intros name arg. destruct arg; cbn [add_import snd]; try assumption;
      now apply Model_add_renderable.
  - intros lines indent where_. now apply Model_add_renderable.
  - intros lines indent type where_. unfold add_comment.
    destruct (comment_prefixes type) as [[[is_multi start_prefix] prefix]|]; [|assumption].
    destruct (comment_parts is_multi start_prefix prefix lines); [|assumption].
    now apply Model_add_renderable.
  - intros ref1 ref2 args description. unfold add_connect.
    destruct args as [|arg1 [|port2 [|]]]; try assumption.
    + pose proof (Model_add_renderable format_spec m
                    (NConnect (mkConnect ref1 ref2 description [])) "equation" Hm eq_refl) as H.
      now destruct (Model_add m _ "equation") as [[|] m'].
    + cbv zeta.
      match goal with |- context [Model_add m ?n "equation"] =>
        pose proof (Model_add_renderable format_spec m n "equation" Hm eq_refl) as H;
        now destruct (Model_add m n "equation") as [[|] m'] end.
  - pose proof (Model_add_renderable format_spec m
             (NEquation (mkEquation left right description
                           (match annotation with None => [] | Some a => a end)))
             (if initial then "initial equation" else "equation") Hm) as H'.
    destruct initial; apply H'; cbn [renderable eq_annotation]; now destruct annotation.
  - pose proof (Model_add_renderable format_spec m
             (NAlgorithm (mkAlgorithm left right description annotation))
             (if initial then "initial algorithm" else "algorithm") Hm) as H'.
    destruct initial; apply H'; cbn [renderable alg_annotation]; now destruct annotation.
Qed.

(** X20.  [draw_connections] and [set_extent] with an extent that can be
    written keep a model one [visit] renders, whether they return or
    raise. *)
Theorem drawing_keeps_renderable :
  forall format_spec (m : Model),
    renderable format_spec (NModel m) = true ->
    renderable format_spec (NModel (snd (draw_connections m))) = true
    /\ forall extent layer,
         writable_anno extent = true ->
         renderable format_spec (NModel (snd (set_extent m extent layer))) = true.
Proof.
  intros format_spec m Hm. pose proof Hm as Hm'.
  apply renderable_Model_parts in Hm' as (H1 & H2 & H3 & H4 & H5 & H6 & H7). split.
  - unfold draw_connections.
    pose proof (draw_equations_renderable format_spec (equations m)
                  (collect_idents (protected_section m)
                     (collect_idents (public_section m) [])) H5) as H.
    destruct (draw_equations (equations m) _) as [r eqs]. cbn [snd] in *.
    apply renderable_Model_parts. cbn. auto 10.
  - intros extent layer He.
    assert (Hset : forall a, writable_annotation a = true ->
                             renderable format_spec (NModel (set_annotation m a)) = true).
    { intros a Ha. apply renderable_Model_parts. cbn. auto 10. }
    unfold set_extent. destruct (String.eqb layer "both").
    + destruct (set_layer_extent (m_annotation m) "Diagram" extent) as [a|e] eqn:E1;
        [|assumption].
      pose proof (set_layer_extent_writable _ _ _ _ E1 H7 He) as Ha.
      destruct (set_layer_extent a "Icon" extent) as [a'|e] eqn:E2; cbn [snd].
      * apply Hset. apply (set_layer_extent_writable _ _ _ _ E2 Ha He).
      * now apply Hset.
    + destruct (set_layer_extent (m_annotation m) layer extent) as [a|e] eqn:E1;
        [|assumption].
      cbn [snd]. apply Hset. apply (set_layer_extent_writable _ _ _ _ E1 H7 He).
Qed.

Lemma builder_keeps_renderable_witness :
  renderable no_format_spec
    (NModel (snd (add_connect (Model_init "M" None None None None)
                              (RStr "a.p") (RStr "b.n") [] (Some "wire")))) = true.
Proof.
  destruct (builder_keeps_renderable no_format_spec (Model_init "M" None None None None)
              eq_refl) as (_ & _ & _ & _ & H & _).
  apply H.
Defined.

Lemma drawing_keeps_renderable_witness :
  renderable no_format_spec
    (NModel (snd (draw_connections
                    (snd (add_connect (Model_init "M" None None None None)
                                      (RStr "a.p") (RStr "b.n") [] None))))) = true.
Proof.
  apply (drawing_keeps_renderable no_format_spec
           (snd (add_connect (Model_init "M" None None None None)
                             (RStr "a.p") (RStr "b.n") [] None))).
  reflexivity.
Defined.

Lemma set_placement_renderable format_spec (c c' : Component) pos flip rotation size :
  set_placement c pos flip rotation size = Ok c' ->
  renderable format_spec (NComponent c) = true ->
  renderable format_spec (NComponent c') = true.
Proof.
  rewrite set_placement_result. cbv zeta. cbn [renderable]. intros H Hc.
  apply andb_prop in Hc as [Hc Ha].
  assert (Hgo : forall placement transf : Dict Anno,
             writable_annotation placement = true ->
             writable_annotation transf = true ->
             writable_annotation
               (dict_set (c_annotation c) "Placement"
                  (ADict (dict_set placement "transformation"
                     (ADict (dict_set
                               match stored_rotation rotation with
                               | Some r =>
                                   dict_set (dict_set transf "extent" (placement_extent flip size))
                                            "rotation" (AScalar r)
                               | None => dict_set transf "extent" (placement_extent flip size)
                               end "origin" (AList [fst pos; snd pos])))))) = true).
  { intros placement transf H2 H3.
    repeat (apply writable_annotation_set || rewrite writable_anno_ADict);
      try assumption; try reflexivity.
    destruct (stored_rotation rotation);
      repeat (apply writable_annotation_set || rewrite writable_anno_ADict);
      try assumption; reflexivity. }
  assert (Hmade : forall placement transf : Dict Anno,
             writable_annotation placement = true ->
             writable_annotation transf = true ->
             forall a, a = dict_set (c_annotation c) "Placement"
                  (ADict (dict_set placement "transformation"
                     (ADict (dict_set
                               match stored_rotation rotation with
                               | Some r =>
                                   dict_set (dict_set transf "extent" (placement_extent flip size))
                                            "rotation" (AScalar r)
                               | None => dict_set transf "extent" (placement_extent flip size)
                               end "origin" (AList [fst pos; snd pos]))))) ->
             c' = with_annotation c a ->
             forallb (fun kv => writable_value format_spec (snd kv)) (c_init c')
             && match c_constraint c' with Some _ => false | None => true end
             && writable_annotation (c_annotation c') = true).
  { intros placement transf H2 H3 a -> ->. cbn [with_annotation c_init c_constraint c_annotation].
    apply andb_true_intro. split; [exact Hc | now apply Hgo]. }
  destruct (dict_get (c_annotation c) "Placement") as [[placement| | | |]|] eqn:Hp;
    try discriminate.
  - pose proof (writable_annotation_get _ _ _ Ha Hp) as Hpl.
    rewrite writable_anno_ADict in Hpl.
    destruct (dict_get placement "transformation") as [[transf| | | |]|] eqn:Ht;
      try discriminate; injection H as H.
    + pose proof (writable_annotation_get _ _ _ Hpl Ht) as Htr.
      rewrite writable_anno_ADict in Htr.
      now apply (Hmade placement transf Hpl Htr _ eq_refl).
    + now apply (Hmade placement [] Hpl eq_refl _ eq_refl).
  - injection H as H. now apply (Hmade [] [] eq_refl eq_refl _ eq_refl).
Qed.

(** X21.  What [add_component] adds to a model that can be written can be
    written, as long as what is passed can: an initialization, given as
    [value] or as [init], of values [write_key_value] writes, no constraint,
    and no annotation or one [write_annotation] writes.  This holds with and
    without a placement, and also when the call raises. *)
Theorem add_component_keeps_renderable :
  forall format_spec model typ ident value init protected parameter flags kwargs,
    renderable format_spec (NModel model) = true ->
    match value with
    | ValDict d => forallb (fun kv => writable_value format_spec (snd kv)) d
    | ValScalar _ => true
    end = true ->
    match init with
    | Some d => forallb (fun kv => writable_value format_spec (snd kv)) d
    | None => true
    end = true ->
    kw_constraint kwargs = None ->
    match kw_annotation kwargs with Some a => writable_annotation a | None => true end = true ->
    renderable format_spec
      (NModel (snd (add_component model typ ident value init protected parameter flags
                                  kwargs))) = true.
Proof.
  intros format_spec model typ ident value init protected parameter flags kwargs
         Hm Hvalue Hinit Hconstraint Hanno.
  pose proof Hm as Hm'.
  apply renderable_Model_parts in Hm' as (H1 & H2 & H3 & H4 & H5 & H6 & H7).
  assert (Hadd : forall c, renderable format_spec (NComponent c) = true ->
            renderable format_spec
              (NModel (set_components
                         (if protected
                          then set_protected_section model
                                 (protected_section model ++ [NComponent c])
                          else set_public_section model
                                 (public_section model ++ [NComponent c]))
                         (dict_set (components model) ident c))) = true).
  { intros c Hc. apply renderable_Model_parts.
    destruct protected; cbn; repeat split; auto using forallb_snoc. }
  unfold add_component.
  destruct (dict_contains ident (components model)); [assumption|].
  assert (Hmade : forall v (i : option (Dict Value)),
            match i with
            | Some d => forallb (fun kv => writable_value format_spec (snd kv)) d
            | None => true
            end = true ->
            forall flgs,
            renderable format_spec
              (NComponent
                 (mkComponent typ ident v (match i with None => [] | Some d => d end) flgs
                    (if parameter then Some Parameter_ else kw_variability kwargs)
                    (kw_causality kwargs) (kw_flux kwargs)
                    (match kw_subscripts kwargs with None => [] | Some l => l end)
                    (kw_condition kwargs) (kw_constraint kwargs) (kw_description kwargs)
                    (match kw_annotation kwargs with None => [] | Some a => a end))) = true).
  { intros v i Hi flgs. cbn [renderable c_init c_constraint c_annotation].
    rewrite Hconstraint. destruct i, (kw_annotation kwargs); cbn in *;
      rewrite ?Hi, ?Hanno; reflexivity. }
  destruct value as [v|d]; [|destruct init]; try assumption;
    (destruct (flags_kwarg flags) as [flgs|]; [|assumption]);
    (destruct (kw_others kwargs); [|assumption]); cbv zeta;
    (destruct (has_pos_keys kwargs);
     [destruct (kw_pos kwargs); [|assumption];
      match goal with |- context [set_placement ?a ?b ?c ?d ?e] =>
        destruct (set_placement a b c d e) as [c'|] eqn:Hplace end; [|assumption];
      cbn [snd]; apply Hadd; apply (set_placement_renderable _ _ _ _ _ _ _ Hplace)
     | cbn [snd]; apply Hadd]);
    first [apply (Hmade v init Hinit) | apply (Hmade SNone (Some d) Hvalue)].
Qed.

Lemma add_component_keeps_renderable_witness :
  renderable no_format_spec
    (NModel (snd (add_component (Model_init "M" None None None None) "Real" "x"
                    (ValDict [("start", VScalar (SInt 1))]) None false true FlagsNone
                    (mkKwargs None None None None None None None None
                              (Some (SInt 10, SInt 20)) None None None [])))) = true.
Proof.
  apply (add_component_keeps_renderable no_format_spec
           (Model_init "M" None None None None)); reflexivity.
Defined.

(** ** Annotations of the model *)

Lemma dict_contains_set_other {V} (d : Dict V) (key key' : string) (v : V) :
  key <> key' -> dict_contains key' (dict_set d key v) = dict_contains key' d.
Proof. intros H. unfold dict_contains. now rewrite dict_get_set_other. Qed.

Lemma add_annotation_loop_result (replace : bool) (path : list string) :
  forall annotation : Dict Anno,
    let fresh := NoDup path /\ Forall (fun p => dict_contains p annotation = false) path in
    match add_annotation_loop annotation path replace with
    | (Ok _, annotation') =>
        (replace = true \/ fresh)
        /\ forall key,
             dict_get annotation' key
             = if existsb (String.eqb key) path then Some (ADict [])
               else dict_get annotation key
    | (Raise e, _) =>
        replace = false /\ e = ValueError "Not allowed to replace '{p}'" /\ ~ fresh
    end.
Proof.
  induction path as [|p path IH]; intros annotation fresh; subst fresh.
  - cbn. split; [right; split; constructor | reflexivity].
  - assert (Hstep :
      (replace = true \/ dict_contains p annotation = false) ->
      match add_annotation_loop (dict_set annotation p (ADict [])) path replace with
      | (Ok _, annotation') =>
          (replace = true
           \/ (NoDup (p :: path)
               /\ Forall (fun p => dict_contains p annotation = false) (p :: path)))
          /\ forall key,
               dict_get annotation' key
               = if existsb (String.eqb key) (p :: path) then Some (ADict [])
                 else dict_get annotation key
      | (Raise e, _) =>
          replace = false /\ e = ValueError "Not allowed to replace '{p}'"
          /\ ~ (NoDup (p :: path)
                /\ Forall (fun p => dict_contains p annotation = false) (p :: path))
      end).
    { intros Hp. specialize (IH (dict_set annotation p (ADict []))). cbv zeta in IH.
      destruct (add_annotation_loop (dict_set annotation p (ADict [])) path replace)
        as [[[]|e] annotation'].
      - destruct IH as [Hfresh Hkeys]. split.
        + destruct Hfresh as [Hr|[Hnd Hall]]; [now left|].
          destruct Hp as [Hr|Hp]; [now left|]. right.
          assert (Hnotin : ~ In p path).
          { intros Hin. rewrite Forall_forall in Hall. specialize (Hall p Hin).
            now rewrite dict_contains_set in Hall. }
          split; [now constructor|]. constructor; [exact Hp|].
          rewrite Forall_forall in *. intros q Hq. specialize (Hall q Hq).
          rewrite dict_contains_set_other in Hall; [exact Hall|].
          intros ->. contradiction.
        + intros key. rewrite Hkeys. cbn [existsb].
          destruct (String.eqb_spec key p) as [->|Hk]; cbn [orb].
          * destruct (existsb (String.eqb p) path); [reflexivity|].
            apply dict_get_set_same.
          * destruct (existsb (String.eqb key) path); [reflexivity|].
            apply dict_get_set_other. congruence.
      - destruct IH as (Hr & He & Hnot). repeat split; try assumption.
        intros [Hnd Hall]. apply Hnot. inversion Hnd as [|? ? Hnotin Hnd']; subst.
        inversion Hall as [|? ? _ Hall']; subst. split; [assumption|].
        rewrite Forall_forall in *. intros q Hq.
        rewrite dict_contains_set_other; [now apply Hall'|].
        intros ->. contradiction. }
    cbn [add_annotation_loop].
    destruct (dict_contains p annotation) eqn:Hp; cbn [negb].
    + destruct replace.
      * apply Hstep. now left.
      * repeat split. intros [_ Hall]. inversion Hall as [|? ? Hp' _]; subst.
        rewrite Hp in Hp'. discriminate.
    + apply Hstep. now right.
Qed.

(** X22.  [add_annotation] sets the entry of the model's annotation for
    every name of [path] to an empty dictionary and leaves every other entry
    and the rest of the model as they were; the annotation it is given is
    stored nowhere.  With [replace] it always returns; without, it returns
    exactly when the names of [path] are distinct and none of them is an
    entry of the annotation, and raises [ValueError] otherwise. *)
Theorem add_annotation_effect :
  forall (model : Model) (path : list string) (anno : Dict Anno) (replace : bool),
    let fresh :=
      NoDup path /\ Forall (fun p => dict_contains p (m_annotation model) = false) path in
    match add_annotation model path anno replace with
    | (Ok _, model') =>
        (replace = true \/ fresh)
        /\ model' = set_annotation model (m_annotation model')
        /\ forall key,
             dict_get (m_annotation model') key
             = if existsb (String.eqb key) path then Some (ADict [])
               else dict_get (m_annotation model) key
    | (Raise e, _) =>
        replace = false /\ e = ValueError "Not allowed to replace '{p}'" /\ ~ fresh
    end.
Proof.
  intros model path anno replace. unfold add_annotation.
  pose proof (add_annotation_loop_result replace path (m_annotation model)) as H.
  cbv zeta in *.
  destruct (add_annotation_loop (m_annotation model) path replace) as [[[]|e] annotation'].
  - destruct H as [H1 H2]. cbn [m_annotation set_annotation]. auto.
  - exact H.
Qed.
